(** * penn: pitch and periodicity estimation pipeline (penn/core.py)

    A shallow embedding of the inference pipeline of [penn/core.py]:
    [preprocess] (framing and batching), [infer] (cached model handle),
    [postprocess] (range masking and strategy dispatch) and the
    orchestration functions [from_audio], [from_file], [from_file_to_file]
    and [from_files_to_files].

    Conventions of the embedding.
    - Python integers are [Z]; real-valued quantities (seconds, Hz, decoded
      pitch and periodicity) are [Q]; floating-point rounding is not
      modelled.
    - Logit values are extended integers: [NegInf] or a finite score.
    - Python exceptions are values of [exn]; a call that may raise returns
      [res A].
    - The generator returned by [preprocess] is the list of the items it
      yields, followed by the exception that ends it, if any.
    - Stateful code (the attributes cached on the function object [infer],
      tensors mutated in place, files written by [torch.save]) runs in a
      state-and-exception monad over [world].
    - What the libraries leave open is a parameter: the exception of
      [torch.cat] on an empty list, whether [torch.save] can write a file,
      and, in the evaluation script, the rounding of a division of floats.
    - [penn.time.timer] context managers only measure time and are left out. *)

From stdpp Require Import gmap strings list.
From Stdlib Require Import ZArith QArith Qround Lia Ascii.

Local Open Scope Z_scope.

(** ** Exceptions and fallible results *)

Inductive exn : Type :=
| ValueError (msg : string)
| ZeroDivisionError (msg : string)
| RuntimeError (msg : string).

Inductive res (A : Type) : Type :=
| Ok (a : A)
| Raise (e : exn).
Arguments Ok {A} a.
Arguments Raise {A} e.

Definition res_bind {A B} (r : res A) (k : A -> res B) : res B :=
  match r with
  | Ok a => k a
  | Raise e => Raise e
  end.

Declare Scope res_scope.
Delimit Scope res_scope with res.
Notation "x <-? r ; k" := (res_bind r (fun x => k))
  (at level 100, r at next level, k at level 200, right associativity,
   format "x  <-?  r ;  '//' k") : res_scope.

(** A generator run to exhaustion: what it yields, then how it ends. *)
Record generator (A : Type) : Type := Gen {
  yielded : list A;
  raised : option exn
}.
Arguments Gen {A} yielded raised.
Arguments yielded {A} g.
Arguments raised {A} g.

(** ** Python built-ins used by the pipeline *)
Module py.

(** [int(a / b)] on integers: true division, then truncation towards
    zero.  Exact as long as the quotient is representable, which holds
    for every sample count below 2^53. *)
Definition int_truediv (a b : Z) : res Z :=
  if b =? 0 then Raise (ZeroDivisionError "division by zero")
  else Ok (Z.quot a b).

(** Number of elements of [range(start, stop, step)] for [step <> 0]. *)
Definition range_len (start stop step : Z) : Z :=
  if 0 <? step then
    (if start <? stop then (stop - start - 1) / step + 1 else 0)
  else
    (if stop <? start then (start - stop - 1) / (- step) + 1 else 0).

(** [range(start, stop, step)], iterated to a list. *)
Definition range (start stop step : Z) : res (list Z) :=
  if step =? 0 then Raise (ValueError "range() arg 3 must not be zero")
  else Ok (map (fun k : nat => start + Z.of_nat k * step)
               (seq 0 (Z.to_nat (range_len start stop step)))).

(** Index adjustment of a slice bound against a sequence of length [n]. *)
Definition adjust (i n : Z) : Z :=
  if i <? 0 then Z.max 0 (i + n) else Z.min i n.

(** [x[start:stop]] *)
Definition slice {A} (x : list A) (start stop : Z) : list A :=
  let n := Z.of_nat (length x) in
  let s := adjust start n in
  let e := adjust stop n in
  take (Z.to_nat (e - s)) (drop (Z.to_nat s) x).

(** [zip(xs, ys)] stops at the shorter argument. *)
Fixpoint zip {A B} (xs : list A) (ys : list B) : list (A * B) :=
  match xs, ys with
  | x :: xs', y :: ys' => (x, y) :: zip xs' ys'
  | _, _ => []
  end.

End py.

(** ** Tensor kernels of the numerical library

    Audio is a single-channel buffer [(1, samples)], kept as the list of
    its samples.  The kernels follow the library's documented shapes. *)
Module torch.

(** [torch.nn.functional.pad(x, (left, right))]: zero padding; a negative
    width crops; a negative resulting length is an error. *)
Definition pad (x : list Z) (left right : Z) : res (list Z) :=
  if Z.of_nat (length x) + left + right <? 0 then
    Raise (RuntimeError "padding resulted in a negative output size")
  else
    let l := if 0 <=? left then replicate (Z.to_nat left) 0 ++ x
             else drop (Z.to_nat (- left)) x in
    Ok (if 0 <=? right then l ++ replicate (Z.to_nat right) 0
        else take (Z.to_nat (Z.of_nat (length l) + right)) l).

(** Number of sliding blocks of width [kernel] at stride [stride] in a
    row of [n] samples (floor division). *)
Definition blocks (n kernel stride : Z) : Z := (n - kernel) / stride + 1.

(** [torch.nn.functional.unfold(x[:, None, None, :], kernel_size=(1, kernel),
    stride=(1, stride)).permute(2, 0, 1)]: the sliding windows of [x], one
    per row, shape [(frames, 1, kernel)]. *)
Definition unfold (x : list Z) (kernel stride : Z) : res (list (list Z)) :=
  if (kernel <=? 0) || (stride <=? 0) then
    Raise (RuntimeError "kernel size and stride should be greater than zero")
  else if blocks (Z.of_nat (length x)) kernel stride <? 1 then
    Raise (RuntimeError
      "calculated shape of the array of sliding blocks must be at least one")
  else
    Ok (map (fun k : nat =>
               take (Z.to_nat kernel) (drop (Z.to_nat (Z.of_nat k * stride)) x))
            (seq 0 (Z.to_nat (blocks (Z.of_nat (length x)) kernel stride)))).

(** [torch.cat(tensors, 1)] on rows of shape [(1, n)]; an empty list of
    tensors is an error, whose class and wording depend on the release of
    the library: [empty] is that exception. *)
Definition cat (empty : exn) (rows : list (list Q)) : res (list Q) :=
  match rows with
  | [] => Raise empty
  | _ => Ok (concat rows)
  end.

End torch.


(** ** Paths (pathlib)

    A path is its anchor (absolute or not) and its components; this covers
    the operations the pipeline uses: [parent], [stem], [/] and [str]. *)

Record Path : Type := mkPath {
  absolute : bool;
  parts : list string
}.

#[global] Instance Path_eq_dec : EqDecision Path.
Proof. solve_decision. Defined.

Module pathlib.

(** The final component, or the empty string when there is none. *)
Definition name (p : Path) : string := List.last (parts p) EmptyString.

(** Offset of the last dot of [s], counted from [i]. *)
Fixpoint rfind_dot (s : string) (i : nat) : option nat :=
  match s with
  | EmptyString => None
  | String c s' =>
      match rfind_dot s' (S i) with
      | Some j => Some j
      | None => if Ascii.eqb c "."%char then Some i else None
      end
  end.

(** The final component without its last suffix. *)
Definition stem (p : Path) : string :=
  let n := name p in
  match rfind_dot n 0 with
  | Some i =>
      if ((0 <? i)%nat && (i <? String.length n - 1)%nat)%bool
      then String.substring 0 i n else n
  | None => n
  end.

Definition parent (p : Path) : Path :=
  mkPath (absolute p) (removelast (parts p)).

(** The pieces of [s] between the occurrences of [sep]. *)
Fixpoint split (sep : ascii) (s : string) : list string :=
  match s with
  | EmptyString => [EmptyString]
  | String c s' =>
      if Ascii.eqb c sep then EmptyString :: split sep s'
      else match split sep s' with
           | [] => [String c EmptyString]
           | piece :: pieces => String c piece :: pieces
           end
  end.

(** The components a string is parsed into: the pieces between slashes,
    without the empty ones and without the ones that are a single dot. *)
Definition components (s : string) : list string :=
  filter (fun piece => piece <> EmptyString /\ piece <> ".") (split "/"%char s).

(** [p / s]: the components of [s] are appended to those of [p], unless
    [s] begins with a slash and so replaces [p].  (A name that begins with
    exactly two slashes keeps both in pathlib; the anchor of a [Path] here
    does not tell them from one.) *)
Definition truediv (p : Path) (s : string) : Path :=
  if String.prefix "/" s then mkPath true (components s)
  else mkPath (absolute p) (parts p ++ components s).

(** [str(p)], which is also what an f-string interpolates. *)
Definition str (p : Path) : string :=
  if absolute p then String.append "/" (String.concat "/" (parts p))
  else match parts p with
       | [] => "."
       | _ => String.concat "/" (parts p)
       end.

End pathlib.

(** ** Tensors and devices *)

Record Device : Type := mkDevice {
  device_type : string;
  device_index : option Z
}.

Definition cpu : Device := mkDevice "cpu" None.
Definition cuda (gpu : Z) : Device := mkDevice "cuda" (Some gpu).

(** A batch of analysis windows, shape [(frames, 1, window)], on a device. *)
Record Frames : Type := mkFrames {
  windows : list (list Z);
  device : Device
}.

(** [frames.to(device)] *)
Definition to (frames : Frames) (d : Device) : Frames :=
  mkFrames (windows frames) d.

(** A logit: negative infinity or a finite score. *)
Inductive score : Type :=
| NegInf
| Fin (z : Z).

#[global] Instance score_eq_dec : EqDecision score.
Proof. solve_decision. Defined.

(** Logits, indexed by (frame, pitch bin, time step). *)
Abbreviation Logits := (list (list (list score))).

(** Rounding passed to [penn.convert.frequency_to_bins]. *)
Inductive quantize_fn : Type := floor | ceil.

(** ** The rest of the [penn] package, and of the libraries

    Constants and helpers of the package that [penn/core.py] uses and that
    live in other modules, and what the libraries leave open: they are
    parameters of the development. *)
Record penn_env : Type := mkEnv {
  Model : Type;
  SAMPLE_RATE : Z;
  WINDOW_SIZE : Z;
  DECODER : string;
  PERIODICITY : string;
  (** penn.convert *)
  seconds_to_samples : Q -> Z;
  frequency_to_bins : Q -> quantize_fn -> nat;
  (** penn.load.audio *)
  load_audio : Path -> list Z;
  (** penn.Model(), penn.checkpoint.load, Module.to, and the forward pass
      in evaluation mode *)
  new_model : Model;
  checkpoint_load : Path -> Model -> Model;
  model_to : Model -> Device -> Model;
  model_call : Model -> Frames -> Logits;
  (** torchaudio.transforms.Resample(orig, target) applied to a buffer *)
  Resample : Z -> Z -> list Z -> list Z;
  (** penn.decode: each returns (bins, pitch), one value per frame *)
  decode_argmax : Logits -> list nat * list Q;
  decode_average : Logits -> list nat * list Q;
  decode_viterbi : Logits -> list nat * list Q;
  decode_weighted : Logits -> list nat * list Q;
  (** penn.periodicity: one value per frame *)
  periodicity_entropy : Logits -> list Q;
  periodicity_max : Logits -> list Q;
  periodicity_sum : Logits -> list Q;
  (** the exception of [torch.cat] on an empty list of tensors *)
  torch_cat_error : exn;
  (** [torch.save]: the exception, if any, with which writing a file of
      this name fails, given the files written so far (a missing
      directory, a name that cannot be opened, a full disk) *)
  torch_save_error : string -> gmap string (list Q) -> option exn
}.

(** ** Process state *)

(** The attributes stored on the function object [infer]. *)
Record infer_attrs (M : Type) : Type := mkAttrs {
  attr_model : M;
  attr_checkpoint : Path;
  attr_device_type : string
}.
Arguments mkAttrs {M} _ _ _.
Arguments attr_model {M} _.
Arguments attr_checkpoint {M} _.
Arguments attr_device_type {M} _.

(** What the process did to the outside: checkpoint loads, model moves,
    audio loads and saved files, most recent last. *)
Inductive event : Type :=
| LoadCheckpoint (checkpoint : Path)
| MoveModel (d : Device)
| LoadAudio (file : Path)
| Save (name : string).

(** [infer_fn]: attributes of [infer], absent before the first call;
    [tensors]: logits tensors by identity, so that a tensor passed to a
    callee and updated in place is the caller's tensor;
    [disk]: files written by [torch.save]. *)
Record world (M : Type) : Type := mkWorld {
  infer_fn : option (infer_attrs M);
  events : list event;
  tensors : list Logits;
  disk : gmap string (list Q)
}.
Arguments mkWorld {M} _ _ _ _.
Arguments infer_fn {M} _.
Arguments events {M} _.
Arguments tensors {M} _.
Arguments disk {M} _.

Definition fresh_world (M : Type) : world M := mkWorld None [] [] ∅.

(** ** The pipeline of penn/core.py *)

Section Pipeline.

Context (E : penn_env).

Local Abbreviation World := (world (Model E)).

(** State and exceptions. *)
Definition M (A : Type) : Type := World -> res A * World.

Definition ret {A} (a : A) : M A := fun w => (Ok a, w).

Definition raise {A} (e : exn) : M A := fun w => (Raise e, w).

Definition lift {A} (r : res A) : M A := fun w => (r, w).

Definition bind {A B} (m : M A) (k : A -> M B) : M B :=
  fun w =>
    match m w with
    | (Ok a, w') => k a w'
    | (Raise e, w') => (Raise e, w')
    end.

Notation "x <- m ;; k" := (bind m (fun x => k))
  (at level 100, m at next level, k at level 200, right associativity).
Notation "m ;;; k" := (bind m (fun _ => k))
  (at level 100, k at level 200, right associativity).

(** A [for] loop whose body may raise: the results of the completed
    iterations are collected in order. *)
Fixpoint for_each {A B} (xs : list A) (body : A -> M B) : M (list B) :=
  match xs with
  | [] => ret []
  | x :: xs' =>
      y <- body x ;;
      ys <- for_each xs' body ;;
      ret (y :: ys)
  end.

(** *** Utilities *)

Definition resample (audio : list Z) (sample_rate target_rate : Z) : list Z :=
  if decide (sample_rate = target_rate) then audio
  else Resample E sample_rate target_rate audio.

(** *** preprocess *)

(** The items of a generator whose loop body may raise: iteration stops at
    the first exception. *)
Fixpoint generate {A} (body : Z -> res A) (indices : list Z) : generator A :=
  match indices with
  | [] => Gen [] None
  | i :: rest =>
      match body i with
      | Raise e => Gen [] (Some e)
      | Ok item =>
          let g := generate body rest in
          Gen (item :: yielded g) (raised g)
      end
  end.

(** Body of the batch loop of [preprocess]: the frames of the batch that
    starts at frame [i], and the size of the batch. *)
Definition preprocess_batch (audio : list Z) (hopsize total_frames batch_size i : Z)
  : res (list (list Z) * Z) :=
  (let batch := Z.min (total_frames - i) batch_size in
   let start := i * hopsize in
   let end_ := start + (batch - 1) * hopsize + WINDOW_SIZE E in
   frames <-? torch.unfold (py.slice audio start end_) (WINDOW_SIZE E) hopsize;
   Ok (frames, batch))%res.

(** Everything [preprocess] computes before its loop. *)
Definition preprocess_setup (audio : list Z) (sample_rate : Z) (hopsize : Q)
    (batch_size : option Z) : res (list Z * Z * Z * Z * list Z) :=
  (let hopsize := seconds_to_samples E hopsize in
   let audio :=
     if decide (sample_rate <> SAMPLE_RATE E)
     then resample audio sample_rate (SAMPLE_RATE E) else audio in
   total_frames <-? py.int_truediv (Z.of_nat (length audio)) hopsize;
   let padding := Z.quot (WINDOW_SIZE E - hopsize) 2 in
   audio <-? torch.pad audio padding padding;
   let batch_size :=
     match batch_size with None => total_frames | Some b => b end in
   indices <-? py.range 0 total_frames batch_size;
   Ok (audio, hopsize, total_frames, batch_size, indices))%res.

Definition preprocess (audio : list Z) (sample_rate : Z) (hopsize : Q)
    (batch_size : option Z) : generator (list (list Z) * Z) :=
  match preprocess_setup audio sample_rate hopsize batch_size with
  | Raise e => Gen [] (Some e)
  | Ok (audio, hopsize, total_frames, batch_size, indices) =>
      generate (preprocess_batch audio hopsize total_frames batch_size) indices
  end.

(** *** infer *)

(** The cached attributes [infer] ends up with, and what it had to do to
    get them: nothing when the cache is reused, a load and a move otherwise. *)
Definition infer_load (frames : Frames) (checkpoint : Path)
    (cached : option (infer_attrs (Model E)))
  : infer_attrs (Model E) * list event :=
  let reload :=
    let model := new_model E in
    let loaded := checkpoint_load E checkpoint model in
    (mkAttrs (model_to E loaded (device frames)) checkpoint
             (device_type (device frames)),
     [LoadCheckpoint checkpoint; MoveModel (device frames)]) in
  match cached with
  | None => reload
  | Some a =>
      if bool_decide (attr_checkpoint a <> checkpoint)
         || bool_decide (attr_device_type a <> device_type (device frames))
      then reload
      else (a, [])
  end.

(** [infer] returns a new logits tensor, named by its identity.  The
    forward pass runs inside [inference_context] (evaluation mode, no
    gradients, mixed precision on cuda), which [model_call] stands for; the
    synchronisation under [penn.BENCHMARK] only waits. *)
Definition infer (frames : Frames) (checkpoint : Path) : M nat :=
  fun w =>
    let '(a, done) := infer_load frames checkpoint (infer_fn w) in
    let logits := model_call E (attr_model a) frames in
    (Ok (length (tensors w)),
     mkWorld (Some a) (events w ++ done) (tensors w ++ [logits]) (disk w)).

(** *** postprocess *)

(** [logits[:, sel] = -inf]: in every frame, each entry of every selected
    pitch-bin row becomes negative infinity. *)
Definition fill_bins (sel : nat -> bool) (logits : Logits) : Logits :=
  map (imap (fun (b : nat) (row : list score) =>
               if sel b then map (fun _ => NegInf) row else row))
      logits.

(** [logits] names the caller's tensor; a name that holds no tensor does
    not occur in the pipeline and ends in an error here. *)
Definition postprocess (logits : nat) (fmin fmax : Q)
  : M (list nat * list Q * list Q) :=
  fun w =>
    match tensors w !! logits with
    | None => (Raise (RuntimeError "not a tensor"), w)
    | Some x =>
        let minidx := frequency_to_bins E fmin floor in
        let maxidx := frequency_to_bins E fmax ceil in
        let x := fill_bins (fun b => (b <? minidx)%nat) x in
        let x := fill_bins (fun b => (maxidx <=? b)%nat) x in
        let w' := mkWorld (infer_fn w) (events w)
                          (<[logits := x]> (tensors w)) (disk w) in
        ((decoded <-?
            (if String.eqb (DECODER E) "argmax" then Ok (decode_argmax E x)
             else if String.eqb (DECODER E) "average" then Ok (decode_average E x)
             else if String.prefix "viterbi" (DECODER E) then Ok (decode_viterbi E x)
             else if String.eqb (DECODER E) "weighted" then Ok (decode_weighted E x)
             else Raise (ValueError
                    ("Decoder method " +:+ DECODER E +:+ " is not defined")));
          periodicity <-?
            (if String.eqb (PERIODICITY E) "entropy" then Ok (periodicity_entropy E x)
             else if String.eqb (PERIODICITY E) "max" then Ok (periodicity_max E x)
             else if String.eqb (PERIODICITY E) "sum" then Ok (periodicity_sum E x)
             else Raise (ValueError
                    ("Periodicity method " +:+ PERIODICITY E +:+ " is not defined")));
          Ok (decoded.1, decoded.2, periodicity))%res,
         w')
    end.

(** *** Orchestration *)

Definition from_audio (audio : list Z) (sample_rate : Z) (hopsize fmin fmax : Q)
    (checkpoint : Path) (batch_size : option Z) (gpu : option Z)
  : M (list Q * list Q) :=
  let iterator := preprocess audio sample_rate hopsize batch_size in
  results <-
    for_each (yielded iterator) (fun item =>
      let frames :=
        to (mkFrames item.1 cpu)
           (match gpu with None => cpu | Some g => cuda g end) in
      logits <- infer frames checkpoint ;;
      result <- postprocess logits fmin fmax ;;
      ret (result.1.2, result.2)) ;;
  match raised iterator with
  | Some e => raise e
  | None =>
      pitch <- lift (torch.cat (torch_cat_error E) (map fst results)) ;;
      periodicity <- lift (torch.cat (torch_cat_error E) (map snd results)) ;;
      ret (pitch, periodicity)
  end.

Definition from_file (file : Path) (hopsize fmin fmax : Q)
    (checkpoint : Path) (batch_size : option Z) (gpu : option Z)
  : M (list Q * list Q) :=
  audio <- (fun w =>
              (Ok (load_audio E file),
               mkWorld (infer_fn w) (events w ++ [LoadAudio file])
                       (tensors w) (disk w))) ;;
  from_audio audio (SAMPLE_RATE E) hopsize fmin fmax checkpoint batch_size gpu.

(** [torch.save(tensor, name)]: the file is created or replaced, unless
    the file cannot be opened for writing: then the exception propagates
    and nothing is written. *)
Definition save (tensor : list Q) (name : string) : M unit :=
  fun w =>
    match torch_save_error E name (disk w) with
    | Some e => (Raise e, w)
    | None =>
        (Ok tt,
         mkWorld (infer_fn w) (events w ++ [Save name]) (tensors w)
                 (<[name := tensor]> (disk w)))
    end.

Definition from_file_to_file (file : Path) (output_prefix : option Path)
    (hopsize fmin fmax : Q) (checkpoint : Path) (batch_size : option Z)
    (gpu : option Z) : M unit :=
  r <- from_file file hopsize fmin fmax checkpoint batch_size gpu ;;
  let pitch := r.1 in
  let periodicity := r.2 in
  let output_prefix :=
    match output_prefix with
    | None => pathlib.truediv (pathlib.parent file) (pathlib.stem file)
    | Some p => p
    end in
  save pitch (pathlib.str output_prefix +:+ "-pitch.pt") ;;;
  save periodicity (pathlib.str output_prefix +:+ "-periodicity.pt").

Definition from_files_to_files (files : list Path)
    (output_prefixes : option (list Path)) (hopsize fmin fmax : Q)
    (checkpoint : Path) (batch_size : option Z) (gpu : option Z) : M unit :=
  let output_prefixes :=
    match output_prefixes with
    | None => replicate (length files) None
    | Some ps => map Some ps
    end in
  for_each (py.zip files output_prefixes) (fun item =>
    from_file_to_file item.1 item.2 hopsize fmin fmax checkpoint
                      batch_size gpu) ;;;
  ret tt.

End Pipeline.

Arguments M E A : clear implicits.

Notation "x <- m ;; k" := (bind _ m (fun x => k))
  (at level 100, m at next level, k at level 200, right associativity).
Notation "m ;;; k" := (bind _ m (fun _ => k))
  (at level 100, k at level 200, right associativity).

(** ** Decoders, modelled from their description

    [penn.decode] is not part of [penn/core.py]; where a property depends
    on what a decoder computes, the decoder is modelled from its
    description.  Logits carry one time step per frame, so the score of a
    bin is the single entry of its row. *)

Definition score_ltb (a b : score) : bool :=
  match a, b with
  | NegInf, Fin _ => true
  | Fin x, Fin y => x <? y
  | _, _ => false
  end.

Definition score_add (a b : score) : score :=
  match a, b with
  | Fin x, Fin y => Fin (x + y)
  | _, _ => NegInf
  end.

(** Scores of the bins of one frame. *)
Definition emissions (frame : list (list score)) : list score :=
  map (fun row => hd NegInf row) frame.

(** First candidate of maximal score. *)
Fixpoint first_max {A} (best : score * A) (cands : list (score * A)) : score * A :=
  match cands with
  | [] => best
  | c :: cs => if score_ltb best.1 c.1 then first_max c cs else first_max best cs
  end.

(** Index of the first maximum of a row of scores (0 for an empty row). *)
Definition argmax_bin (scores : list score) : nat :=
  match imap (fun (b : nat) (s : score) => (s, b)) scores with
  | [] => 0%nat
  | c :: cs => (first_max c cs).2
  end.

(** Modelled from the spec: the `argmax` decoder of penn.decode, which is
    not in penn/core.py: pick the highest-scoring bin per frame; pitch is
    the bin-to-frequency mapping of that bin. *)
Definition spec_argmax (bins_to_frequency : nat -> Q) (logits : Logits)
  : list nat * list Q :=
  let bins := map (fun frame => argmax_bin (emissions frame)) logits in
  (bins, map bins_to_frequency bins).

(** One step of the trellis: for every bin of the next frame, the best
    path ending there, where a jump of [d] bins costs [penalty * d]. *)
Definition viterbi_step (penalty : Z) (paths : list (score * list nat))
    (e : list score) : list (score * list nat) :=
  imap (fun (b' : nat) (eb : score) =>
          match imap (fun (b : nat) (p : score * list nat) =>
                        (score_add
                           (score_add p.1
                              (Fin (- (penalty * Z.abs (Z.of_nat b - Z.of_nat b')))))
                           eb,
                         b' :: p.2)) paths with
          | [] => (eb, [b'])
          | c :: cs => first_max c cs
          end) e.

Definition viterbi_bins (penalty : Z) (logits : Logits) : list nat :=
  match map emissions logits with
  | [] => []
  | e0 :: es =>
      match fold_left (viterbi_step penalty) es
                      (imap (fun (b : nat) (eb : score) => (eb, [b])) e0) with
      | [] => []
      | c :: cs => rev (first_max c cs).2
      end
  end.

(** Modelled from the spec: the `viterbi` decoder of penn.decode, which is
    not in penn/core.py: the globally optimal bin sequence across time,
    found by dynamic programming over a transition-cost trellis that
    penalizes large frame-to-frame bin jumps. *)
Definition spec_viterbi (penalty : Z) (bins_to_frequency : nat -> Q)
    (logits : Logits) : list nat * list Q :=
  let bins := viterbi_bins penalty logits in
  (bins, map bins_to_frequency bins).

(** A function of logits that treats every frame on its own. *)
Definition framewise {A} (f : Logits -> list A) : Prop :=
  forall x y : Logits, f (x ++ y) = f x ++ f y.

(** ** A small instance of the package

    Concrete constants and stand-ins for the external parts, used to run
    the pipeline on examples.  The network scores bin [b] of a frame by the
    sample at offset [b] of its window; there are three pitch bins;
    resampling between rates that divide each other decimates or repeats
    samples. *)
Module example.

Record model : Type := mkModel {
  weights : option Path;
  placed : Device
}.

(** Modelled from the spec: the frequency-to-bin mapping of penn.convert,
    which is not in penn/core.py: a deterministic, monotonic mapping that
    is linear in log-frequency.  Here a bin is an octave above 100 Hz, and
    an index is clamped to the three bins. *)
Definition bins_to_frequency (b : nat) : Q := inject_Z (100 * 2 ^ Z.of_nat b).

Definition to_bins (f : Q) (q : quantize_fn) : nat :=
  Z.to_nat (Z.min 2 (Z.max 0 (match q with
                              | floor => Z.log2 (Qfloor (f / inject_Z 100))
                              | ceil => Z.log2_up (Qceiling (f / inject_Z 100))
                              end))).

Definition forward (m : model) (frames : Frames) : Logits :=
  map (fun window => map (fun b => [Fin (nth b window 0)]) (seq 0 3))
      (windows frames).

Fixpoint decimate (k : nat) (j : nat) (x : list Z) : list Z :=
  match x with
  | [] => []
  | s :: x' =>
      match j with
      | O => s :: decimate k (k - 1) x'
      | S j' => decimate k j' x'
      end
  end.

Definition resampler (orig target : Z) (x : list Z) : list Z :=
  if (target <=? orig) then decimate (Z.to_nat (orig / target)) 0 x
  else flat_map (fun s => replicate (Z.to_nat (target / orig)) s) x.

(** Per-frame confidence stand-in: 1 when the frame has a finite score. *)
Definition confidence (logits : Logits) : list Q :=
  map (fun frame =>
         if existsb (fun s => match s with Fin _ => true | NegInf => false end)
                    (emissions frame)
         then inject_Z 1 else inject_Z 0) logits.

Definition env (sample_rate window_size : Z) (decoder periodicity : string)
    (storage : Path -> list Z) : penn_env :=
  {| Model := model;
     SAMPLE_RATE := sample_rate;
     WINDOW_SIZE := window_size;
     DECODER := decoder;
     PERIODICITY := periodicity;
     seconds_to_samples := fun s => Qfloor (s * inject_Z sample_rate);
     frequency_to_bins := to_bins;
     load_audio := storage;
     new_model := mkModel None cpu;
     checkpoint_load := fun p m => mkModel (Some p) (placed m);
     model_to := fun m d => mkModel (weights m) d;
     model_call := forward;
     Resample := resampler;
     decode_argmax := spec_argmax bins_to_frequency;
     decode_average := spec_argmax bins_to_frequency;
     decode_viterbi := spec_viterbi 2 bins_to_frequency;
     decode_weighted := spec_argmax bins_to_frequency;
     periodicity_entropy := confidence;
     periodicity_max := confidence;
     periodicity_sum := confidence;
     torch_cat_error :=
       RuntimeError "torch.cat(): expected a non-empty list of Tensors";
     torch_save_error := fun _ _ => None |}.

End example.

(** * Notions used in the statements *)

(** The entry of a logits tensor at (frame, bin, time step). *)
Definition entry (x : Logits) (f b t : nat) : option score :=
  x !! f ≫= fun frame => frame !! b ≫= fun row => row !! t.

(** The strategy names the dispatch of [postprocess] knows. *)
Definition recognized_decoder (d : string) : bool :=
  String.eqb d "argmax" || String.eqb d "average"
  || String.prefix "viterbi" d || String.eqb d "weighted".

Definition recognized_periodicity (p : string) : bool :=
  String.eqb p "entropy" || String.eqb p "max" || String.eqb p "sum".

(** The masked tensor [postprocess] decodes from. *)
Definition masked (E : penn_env) (fmin fmax : Q) (x : Logits) : Logits :=
  fill_bins (fun b => (frequency_to_bins E fmax ceil <=? b)%nat)
    (fill_bins (fun b => (b <? frequency_to_bins E fmin floor)%nat) x).

(** The analysis window of frame [j]: [window] samples of the padded
    audio starting at sample [j * hopsize]. *)
Definition frame_window (audio : list Z) (hopsize window : Z) (j : nat) : list Z :=
  take (Z.to_nat window) (drop (Z.to_nat (Z.of_nat j * hopsize)) audio).

(** Sum of the batch sizes a run of the generator yields. *)
Definition total_size {A} (items : list (A * Z)) : Z :=
  foldr (fun item acc => item.2 + acc) 0 items.

(** First exception of a list of results, or all the values. *)
Fixpoint collect {A} (rs : list (res A)) : res (list A) :=
  match rs with
  | [] => Ok []
  | Ok a :: rs' => res_bind (collect rs') (fun l => Ok (a :: l))
  | Raise e :: _ => Raise e
  end.

(** The configured strategies as functions from masked logits to pitch and
    to periodicity, or the value error of the dispatch. *)
Definition strategies (E : penn_env)
  : res ((Logits -> list Q) * (Logits -> list Q)) :=
  (pitch <-?
     (if String.eqb (DECODER E) "argmax" then Ok (fun x => (decode_argmax E x).2)
      else if String.eqb (DECODER E) "average" then Ok (fun x => (decode_average E x).2)
      else if String.prefix "viterbi" (DECODER E) then Ok (fun x => (decode_viterbi E x).2)
      else if String.eqb (DECODER E) "weighted" then Ok (fun x => (decode_weighted E x).2)
      else Raise (ValueError ("Decoder method " +:+ DECODER E +:+ " is not defined")));
   periodicity <-?
     (if String.eqb (PERIODICITY E) "entropy" then Ok (periodicity_entropy E)
      else if String.eqb (PERIODICITY E) "max" then Ok (periodicity_max E)
      else if String.eqb (PERIODICITY E) "sum" then Ok (periodicity_sum E)
      else Raise (ValueError
             ("Periodicity method " +:+ PERIODICITY E +:+ " is not defined")));
   Ok (pitch, periodicity))%res.

(** A function of a batch of windows that treats every window on its own. *)
Definition windowwise {A} (G : list (list Z) -> list A) : Prop :=
  forall a b, G (a ++ b) = G a ++ G b.

(** The forward pass scores every window of a batch on its own. *)
Definition forward_windowwise (E : penn_env) : Prop :=
  forall (m : Model E) (d : Device) (a b : list (list Z)),
    model_call E m (mkFrames (a ++ b) d) =
    model_call E m (mkFrames a d) ++ model_call E m (mkFrames b d).

(** The configured decoder and periodicity strategies decode every frame
    on its own. *)
Definition strategies_framewise (E : penn_env) : Prop :=
  forall pitch periodicity,
    strategies E = Ok (pitch, periodicity) ->
    framewise pitch /\ framewise periodicity.

(** The padded audio reaches the end of the last analysis window. *)
Definition padding_fits (E : penn_env) (samples hop : Z) : Prop :=
  let p := Z.quot (WINDOW_SIZE E - hop) 2 in
  let total := samples / hop in
  0 <= samples + 2 * p /\
  (total = 0 \/ (total - 1) * hop + WINDOW_SIZE E <= samples + 2 * p).

(** Same checkpoint path and same device type. *)
Definition same_key (prev : Frames * Path) (frames : Frames) (checkpoint : Path)
  : Prop :=
  prev.2 = checkpoint /\
  device_type (device prev.1) = device_type (device frames).

#[global] Instance same_key_dec prev frames checkpoint :
  Decision (same_key prev frames checkpoint).
Proof. unfold same_key. apply _. Defined.

Definition target (gpu : option Z) : Device :=
  match gpu with None => cpu | Some g => cuda g end.

(** The package constants of the released model (8 kHz audio, windows of
    1024 samples), with the stand-ins of [example] for the rest. *)
Definition released (decoder periodicity : string) : penn_env :=
  example.env 8000 1024 decoder periodicity (fun _ => []).

(** Eight samples stored under every name. *)
Definition song (decoder : string) : penn_env :=
  example.env 8 4 decoder "max" (fun _ => [0; 3; 1; 0; 0; 2; 5; 1]).

(** A world holding one logits tensor of one frame over three bins. *)
Definition one_tensor (E : penn_env) : world (Model E) :=
  mkWorld None [] [[[[Fin 5]; [Fin 1]; [Fin 7]]]] ∅.


(** The concatenation invariant as the specification words it: whatever
    the configured strategies, a batch size that splits the frames into two
    batches gives the output of a single batch. *)
Definition batch_split_invariant (E : penn_env) : Prop :=
  forall (audio : list Z) (sample_rate : Z) (hopsize fmin fmax : Q)
         (checkpoint : Path) (gpu : option Z) (w : world (Model E)) (B1 B2 : Z),
    map snd (yielded (preprocess E audio sample_rate hopsize (Some B1))) = [B1; B2] ->
    map snd (yielded (preprocess E audio sample_rate hopsize (Some (B1 + B2)))) =
      [B1 + B2] ->
    (from_audio E audio sample_rate hopsize fmin fmax checkpoint (Some B1) gpu w).1 =
    (from_audio E audio sample_rate hopsize fmin fmax checkpoint (Some (B1 + B2)) gpu w).1.

Section Notions.

Context (E : penn_env).

Local Abbreviation World := (world (Model E)).

(** A sequence of calls [infer(frames, checkpoint)], run in order. *)
Definition run_calls (calls : list (Frames * Path)) (w : world (Model E))
  : world (Model E) :=
  fold_left (fun w c => (infer E c.1 c.2 w).2) calls w.

(** The handle a reload produces. *)
Definition loaded_attrs (frames : Frames) (checkpoint : Path)
  : infer_attrs (Model E) :=
  mkAttrs (model_to E (checkpoint_load E checkpoint (new_model E)) (device frames))
          checkpoint (device_type (device frames)).

(** The world after [penn.load.audio(file)]. *)
Definition loaded (file : Path) (w : World) : World :=
  mkWorld (infer_fn w) (events w ++ [LoadAudio file]) (tensors w) (disk w).

(** The frames and the size of the batch number [k], for batches of
    [size] frames out of [total], cut from the padded audio. *)
Definition batch_item (padded : list Z) (hop total size : Z) (k : nat)
  : list (list Z) * Z :=
  let i := Z.of_nat k * size in
  let b := Z.min (total - i) size in
  (map (frame_window padded hop (WINDOW_SIZE E)) (seq (Z.to_nat i) (Z.to_nat b)), b).

(** Pitch and periodicity of one batch of windows, given the model in use. *)
Definition batch_result (m : Model E) (d : Device) (fmin fmax : Q)
    (ws : list (list Z)) : res (list Q * list Q) :=
  res_bind (strategies E) (fun s =>
    let x := masked E fmin fmax (model_call E m (mkFrames ws d)) in
    Ok (s.1 x, s.2 x)).

(** The loop body of [from_audio] on one batch. *)
Definition from_audio_body (fmin fmax : Q) (checkpoint : Path) (gpu : option Z)
    (item : list (list Z) * Z) : M E (list Q * list Q) :=
  let frames :=
    to (mkFrames item.1 cpu) (match gpu with None => cpu | Some g => cuda g end) in
  logits <- infer E frames checkpoint ;;
  result <- postprocess E logits fmin fmax ;;
  ret E (result.1.2, result.2).

(** The model handle a call of [infer] on [d] works with. *)
Definition model_in_use (d : Device) (checkpoint : Path) (w : World) : infer_attrs (Model E) :=
  (infer_load E (mkFrames [] d) checkpoint (infer_fn w)).1.

(** The audio at the model sample rate, as [preprocess] frames it. *)
Definition at_model_rate (audio : list Z) (sample_rate : Z) : list Z :=
  if decide (sample_rate <> SAMPLE_RATE E)
  then resample E audio sample_rate (SAMPLE_RATE E) else audio.

End Notions.


Definition saves (evs : list event) : list string :=
  omap (fun ev => match ev with Save name => Some name | _ => None end) evs.

(** The output prefix [from_file_to_file] works with, and the names of the
    two files it saves under a prefix, in the order of the saves. *)
Definition prefix_in_use (file : Path) (output_prefix : option Path) : Path :=
  match output_prefix with
  | None => pathlib.truediv (pathlib.parent file) (pathlib.stem file)
  | Some p => p
  end.


(** A name that is one component of a path: not empty, not a single dot,
    and in one piece, that is, without a slash. *)
Definition single_component (s : string) : Prop :=
  s <> EmptyString /\ s <> "." /\ pathlib.split "/"%char s = [s].








(** Modelled from the spec: masked values cannot be selected by any
    decoder.  On logits where every frame has a finite score, the bin a
    decoder returns for a frame is one whose score is finite. *)
Definition selects_unmasked (decode : Logits -> list nat * list Q) : Prop :=
  forall x : Logits,
    (forall f frame, x !! f = Some frame -> exists b s, entry x f b 0 = Some (Fin s)) ->
    forall f b, (decode x).1 !! f = Some b -> exists s, entry x f b 0 = Some (Fin s).

(** The delegation as the specification words it: [from_audio] on the
    loaded buffer, at the native sample rate of the file. *)
Definition from_file_at_native_rate (E : penn_env) (native_rate : Path -> Z) : Prop :=
  forall (file : Path) (hopsize fmin fmax : Q) (checkpoint : Path)
         (batch_size gpu : option Z) (w : world (Model E)),
    (from_file E file hopsize fmin fmax checkpoint batch_size gpu w).1 =
    (from_audio E (load_audio E file) (native_rate file) hopsize fmin fmax
                checkpoint batch_size gpu (loaded E file w)).1.

(** The sample of [audio] at position [i], and silence outside of it. *)
Definition sample_at (audio : list Z) (i : Z) : Z :=
  if (0 <=? i) && (i <? Z.of_nat (length audio))
  then nth (Z.to_nat i) audio 0 else 0.

(** The attributes cached on [infer] are those of [checkpoint] on a device
    of the type of [d]. *)
Definition cached_for {M : Type} (checkpoint : Path) (d : Device) (w : world M) : Prop :=
  exists a, infer_fn w = Some a /\
            attr_checkpoint a = checkpoint /\
            attr_device_type a = device_type d.

(** The forward pass returns one frame of logits per window. *)
Definition one_frame_per_window (E : penn_env) : Prop :=
  forall (m : Model E) (d : Device) (ws : list (list Z)),
    length (model_call E m (mkFrames ws d)) = length ws.

(** The configured strategies return one value per frame of logits. *)
Definition one_value_per_frame (E : penn_env) : Prop :=
  forall pitch periodicity,
    strategies E = Ok (pitch, periodicity) ->
    forall x : Logits, length (pitch x) = length x /\ length (periodicity x) = length x.

(** A file name component without a dot. *)
Definition no_dot (s : string) : Prop := pathlib.rfind_dot s 0 = None.

(** The cached model is the model loaded from the cached checkpoint and
    moved to a device of the cached device type. *)
Definition cache_coherent (E : penn_env) (w : world (Model E)) : Prop :=
  match infer_fn w with
  | None => True
  | Some a =>
      exists d : Device,
        device_type d = attr_device_type a /\
        attr_model a =
          model_to E (checkpoint_load E (attr_checkpoint a) (new_model E)) d
  end.

(** * Utilities of penn/core.py

    ** [chdir]

    The part of the operating system [chdir] touches: the current working
    directory, an absolute path, and the directories that exist.  A
    relative path is taken from the current directory. *)
Record os_state : Type := mkOs {
  cwd : Path;
  directories : list Path
}.

Inductive os_exn : Type :=
| FileNotFoundError (directory : Path)
| Raised (e : exn).

Inductive outcome (A : Type) : Type :=
| Returned (a : A)
| Failed (e : os_exn).
Arguments Returned {A} a.
Arguments Failed {A} e.

Module os.

Definition getcwd (s : os_state) : Path := cwd s.

Definition resolve (current directory : Path) : Path :=
  if absolute directory then directory
  else mkPath true (parts current ++ parts directory).

(** [os.chdir(directory)]: fails, changing nothing, when there is no such
    directory. *)
Definition chdir (directory : Path) (s : os_state) : outcome unit * os_state :=
  let d := resolve (cwd s) directory in
  if bool_decide (d ∈ directories s)
  then (Returned tt, mkOs d (directories s))
  else (Failed (FileNotFoundError d), s).

End os.

(** [with chdir(directory): body].  The generator behind the context
    manager runs up to its [yield] on entry; the body's exception, if any,
    is thrown into it at the [yield]; its [finally] clause runs on every
    way out, and an exception raised there replaces the one in flight. *)
Definition chdir {A} (directory : Path) (body : os_state -> outcome A * os_state)
    (s : os_state) : outcome A * os_state :=
  let curr_dir := os.getcwd s in
  match os.chdir directory s with
  | (Failed e, s1) =>
      match os.chdir curr_dir s1 with
      | (Failed e', s2) => (Failed e', s2)
      | (Returned _, s2) => (Failed e, s2)
      end
  | (Returned _, s1) =>
      let '(r, s2) := body s1 in
      match os.chdir curr_dir s2 with
      | (Failed e', s3) => (Failed e', s3)
      | (Returned _, s3) => (r, s3)
      end
  end.

(** ** [inference_context]

    What the context manager touches: the mode of the model, and the
    gradient and autocast switches of the numerical library. *)
Record torch_state : Type := mkTorch {
  training : bool;
  grad_enabled : bool;
  autocast_enabled : bool
}.

(** [with inference_context(model): body], for a model whose parameters
    live on [parameters].  [next] on no parameters raises StopIteration,
    which leaves the generator as a runtime error.  [torch.no_grad] and
    [torch.autocast] put the previous value of their switch back on every
    way out; [model.train()] is after the [with] block of the generator and
    is only reached when the body returns. *)
Definition inference_context {A} (parameters : list Device)
    (body : torch_state -> res A * torch_state) (s : torch_state)
  : res A * torch_state :=
  match parameters with
  | [] => (Raise (RuntimeError "generator raised StopIteration"), s)
  | parameter :: _ =>
      let device_type := device_type parameter in
      let s := mkTorch false (grad_enabled s) (autocast_enabled s) in
      let grad_before := grad_enabled s in
      let s := mkTorch (training s) false (autocast_enabled s) in
      let '(r, s) :=
        if String.eqb device_type "cuda" then
          let autocast_before := autocast_enabled s in
          let '(r, s) := body (mkTorch (training s) (grad_enabled s) true) in
          (r, mkTorch (training s) (grad_enabled s) autocast_before)
        else body s in
      let s := mkTorch (training s) grad_before (autocast_enabled s) in
      match r with
      | Raise e => (Raise e, s)
      | Ok a => (Ok a, mkTorch true (grad_enabled s) (autocast_enabled s))
      end
  end.

(** * Evaluation (penne/evaluate/core.py)

    The evaluation script runs against the package under its name
    [penne]; what it uses of the package enters as a parameter of the
    section that needs it. *)
Module evaluate.

(** ** [pitch_quality]: the loop over the batches of one file *)

(** The columns [start:end] of a row of targets ([bins], [pitch] or
    [voiced]) that go with batch [i] of [size] frames. *)
Definition batch_targets {A} (EVALUATION_BATCH_SIZE : Z) (row : list A)
    (i : nat) (size : Z) : list A :=
  let start := Z.of_nat i * EVALUATION_BATCH_SIZE in
  let end_ := start + size in
  py.slice row start end_.

(** The arguments of the metric updates of one file: the logits of each
    batch next to its slice of the targets, in the order of the batches. *)
Definition metric_updates {F L A} (EVALUATION_BATCH_SIZE : Z) (infer : F -> L)
    (batches : list (F * Z)) (row : list A) : list (L * list A) :=
  imap (fun i '(frames, size) =>
          (infer frames, batch_targets EVALUATION_BATCH_SIZE row i size))
       batches.

(** ** [periodicity_quality]: the search for the best threshold *)

(** [max(results, key=results.get)] with the value found under the key:
    the first entry with the largest value. *)
Definition max_by_value (results : list (string * Q)) : res (string * Q) :=
  match results with
  | [] => Raise (ValueError "max() arg is an empty sequence")
  | first :: rest =>
      Ok (fold_left (fun best item =>
                       if Qlt_le_dec best.2 item.2 then item else best)
                    rest first)
  end.

(** [key[n:]] *)
Fixpoint string_from (n : nat) (key : string) : string :=
  match n, key with
  | S n', String _ key' => string_from n' key'
  | _, _ => key
  end.

Record search : Type := mkSearch {
  best_threshold : Q;
  best_value : Q;
  stepsize : Q;
  thresholds : option (list Q)
}.

Section PeriodicityQuality.

(** [measure thresholds]: what [metrics()] holds after the pass over the
    test sets, for an F1 object made with [thresholds] ([None] for the
    object made without argument); an association list in the order of
    the dictionary.  [float] parses a number. *)
Variable measure : option (list Q) -> res (list (string * Q)).
Variable float : string -> res Q.

(** One turn of the [while] loop. *)
Definition search_step (st : search) : res search :=
  (all <-? measure (thresholds st) ;
   let results := filter (fun item => String.prefix "f1" item.1 = true) all in
   found <-? max_by_value results ;
   let '(key, value) := found in
   threshold <-? float (string_from 3 key) ;
   let '(best_value, best_threshold) :=
     if Qlt_le_dec (best_value st) value then (value, threshold)
     else (best_value st, best_threshold st) in
   Ok (mkSearch best_threshold best_value (stepsize st / inject_Z 2)
         (Some [best_threshold - stepsize st; best_threshold + stepsize st])))%res%Q.

Fixpoint search_loop (turns : nat) (st : search) : res search :=
  match turns with
  | O => Ok st
  | S turns' => (st' <-? search_step st ; search_loop turns' st')%res
  end.

(** The result [{'threshold': ..., 'f1': ...}] as a pair. *)
Definition periodicity_quality (steps : Z) : res (Q * Q) :=
  (st <-? search_loop (Z.to_nat steps) (mkSearch (1 # 2) 0 (5 # 100) None) ;
   Ok (best_threshold st, best_value st))%res.

(** A pair of a threshold and a positive F1 value that comes from a
    measurement: the value is the largest under the keys that start with
    f1, and the threshold is read off its key. *)
Definition from_a_measurement (threshold value : Q) : Prop :=
  (0 < value)%Q /\
  exists (probed : option (list Q)) (all : list (string * Q)) (key : string),
    measure probed = Ok all /\ (key, value) ∈ all /\
    String.prefix "f1" key = true /\
    float (string_from 3 key) = Ok threshold /\
    forall k x, (k, x) ∈ all -> String.prefix "f1" k = true -> (x <= value)%Q.

(** The best pair of a search state is the starting pair or comes from a
    measurement. *)
Definition sound (st : search) : Prop :=
  (best_threshold st = 1 # 2 /\ best_value st = 0%Q) \/
  from_a_measurement (best_threshold st) (best_value st).

End PeriodicityQuality.

(** ** [benchmark]: files, output prefixes and the report *)

(** The keys of a dictionary built from [keys] one after the other: each
    key once, in the order of first appearance. *)
Fixpoint dict_keys (keys : list string) : list string :=
  match keys with
  | [] => []
  | key :: keys' => key :: filter (fun k => k <> key) (dict_keys keys')
  end.

(** [d[key] = value] on a dictionary kept as an association list. *)
Fixpoint dict_set {V} (d : list (string * V)) (key : string) (value : V)
  : list (string * V) :=
  match d with
  | [] => [(key, value)]
  | (k, v) :: d' =>
      if decide (k = key) then (k, value) :: d'
      else (k, v) :: dict_set d' key value
  end.

Record timing : Type := mkTiming {
  real_time_factor : Q;
  samples : Z;
  samples_per_second : Q;
  seconds : Q
}.

(** Division of floats: it raises on a zero divisor and is rounded
    otherwise.  A float is taken as the rational it stands for, and
    [float_div a b] is the float nearest to [a / b]. *)
Definition truediv (float_div : Q -> Q -> Q) (a b : Q) : res Q :=
  if Qeq_bool b 0 then Raise (ZeroDivisionError "float division by zero")
  else Ok (float_div a b).

Fixpoint res_map {A B} (f : A -> res B) (xs : list A) : res (list B) :=
  match xs with
  | [] => Ok []
  | x :: xs' => (y <-? f x ; ys <-? res_map f xs' ; Ok (y :: ys))%res
  end.

(** The dictionary comprehension of the [return] statement. *)
Definition report (float_div : Q -> Q -> Q) (benchmark : list (string * Q))
    (samples : Z) (seconds : Q) : res (list (string * timing)) :=
  res_map (fun '(key, value) =>
             (rtf <-? truediv float_div value seconds ;
              sps <-? truediv float_div (inject_Z samples) value ;
              Ok (key, mkTiming rtf samples sps value))%res)
          benchmark.

Section Benchmark.

(** [partition dataset]: the stems of the test partition of a dataset, or
    the error of loading it.  [CACHE_DIR] holds the datasets,
    [samples_to_seconds] is the conversion of the package, and [float_div]
    the division of floats. *)
Variable partition : string -> res (list string).
Variable CACHE_DIR : Path.
Variable samples_to_seconds : Z -> Q.
Variable float_div : Q -> Q -> Q.

Definition dataset_stems (datasets : list string)
  : res (list (string * list string)) :=
  (res_map (fun dataset => stems <-? partition dataset ; Ok (dataset, stems))
           (dict_keys datasets))%res.

Definition files (dataset_stems : list (string * list string)) : list Path :=
  flat_map (fun '(dataset, stems) =>
              map (fun stem =>
                     pathlib.truediv (pathlib.truediv CACHE_DIR dataset)
                                     (stem +:+ ".wav"))
                  stems)
           dataset_stems.

(** The directories made for the outputs, one per dataset. *)
Definition output_directories (directory : Path) (datasets : list string)
  : list Path :=
  map (fun dataset => pathlib.truediv directory dataset) datasets.

Definition output_prefixes (directory : Path) (files : list Path) : list Path :=
  map (fun file =>
         pathlib.truediv
           (pathlib.truediv directory (pathlib.name (pathlib.parent file)))
           (pathlib.stem file))
      files.

(** The result of [benchmark], from what the timer holds, the time the
    run took and the lengths of the audio files. *)
Definition results (timer : list (string * Q)) (elapsed : Q) (lengths : list Z)
  : res (list (string * timing)) :=
  let benchmark := dict_set timer "total" elapsed in
  let samples := foldr Z.add 0 lengths in
  let seconds := samples_to_seconds samples in
  report float_div benchmark samples seconds.

End Benchmark.

End evaluate.

(** Audio on disk where one file is shorter than a hop: a single sample
    under [short.wav], eight samples under every other name. *)
Definition one_short_file : penn_env :=
  example.env 8 4 "argmax" "max"
    (fun file => if decide (file = mkPath false ["short.wav"]) then [7]
                 else [0; 3; 1; 0; 0; 2; 5; 1]).

(** A file system with [/home] and [/home/data], the program in [/home]. *)
Definition at_home : os_state :=
  mkOs (mkPath true ["home"]) [mkPath true ["home"]; mkPath true ["home"; "data"]].

(** A measurement with one F1 entry, for the threshold 0.5, and a parser
    that knows this number. *)
Definition one_f1_entry (probed : option (list Q)) : res (list (string * Q)) :=
  Ok [("accuracy", 9 # 10); ("f1-0.5", 7 # 10)].

Definition float_half (s : string) : res Q :=
  if String.eqb s "0.5" then Ok (1 # 2)
  else Raise (ValueError "could not convert string to float").


(** * Properties *)

(** ** The cached model handle of [infer] *)

Section InferCache.

Context (E : penn_env).

Lemma infer_world frames checkpoint w :
  (infer E frames checkpoint w).2 =
  mkWorld (Some (infer_load E frames checkpoint (infer_fn w)).1)
          (events w ++ (infer_load E frames checkpoint (infer_fn w)).2)
          (tensors w ++
             [model_call E (attr_model (infer_load E frames checkpoint (infer_fn w)).1)
                         frames])
          (disk w).
Proof.
  unfold infer. destruct (infer_load E frames checkpoint (infer_fn w)); reflexivity.
Qed.

Lemma infer_load_key frames checkpoint cached :
  attr_checkpoint (infer_load E frames checkpoint cached).1 = checkpoint /\
  attr_device_type (infer_load E frames checkpoint cached).1 =
    device_type (device frames).
Proof.
  unfold infer_load. destruct cached as [a|]; simpl; [|done].
  destruct (bool_decide (attr_checkpoint a <> checkpoint)) eqn:Hc; simpl; [done|].
  destruct (bool_decide (attr_device_type a <> device_type (device frames))) eqn:Hd;
    simpl; [done|].
  apply bool_decide_eq_false in Hc, Hd.
  split; [destruct (decide (attr_checkpoint a = checkpoint)); tauto|].
  destruct (decide (attr_device_type a = device_type (device frames))); tauto.
Qed.

(** After any call, the cached handle carries the key of that call. *)
Lemma run_calls_last calls prev w :
  exists a, infer_fn (run_calls E (calls ++ [prev]) w) = Some a /\
            attr_checkpoint a = prev.2 /\
            attr_device_type a = device_type (device prev.1).
Proof.
  unfold run_calls. rewrite fold_left_app. simpl.
  rewrite infer_world. simpl. eexists; split; [reflexivity|].
  apply infer_load_key.
Qed.

Lemma infer_load_hit frames checkpoint a :
  attr_checkpoint a = checkpoint ->
  attr_device_type a = device_type (device frames) ->
  infer_load E frames checkpoint (Some a) = (a, []).
Proof.
  intros Hc Hd. unfold infer_load.
  rewrite (bool_decide_eq_false_2 (attr_checkpoint a <> checkpoint)) by tauto.
  rewrite (bool_decide_eq_false_2 _) by tauto. reflexivity.
Qed.

Lemma infer_load_miss frames checkpoint a :
  ~ (attr_checkpoint a = checkpoint /\
     attr_device_type a = device_type (device frames)) ->
  infer_load E frames checkpoint (Some a) =
  (loaded_attrs E frames checkpoint,
   [LoadCheckpoint checkpoint; MoveModel (device frames)]).
Proof.
  intros Hne. unfold infer_load.
  destruct (bool_decide (attr_checkpoint a <> checkpoint)) eqn:Hc; simpl; [done|].
  destruct (bool_decide (attr_device_type a <> device_type (device frames))) eqn:Hd;
    simpl; [done|].
  apply bool_decide_eq_false in Hc, Hd. exfalso. apply Hne.
  split; [destruct (decide (attr_checkpoint a = checkpoint)); tauto|].
  destruct (decide (attr_device_type a = device_type (device frames))); tauto.
Qed.

(** C7. Across every sequence of calls to [infer] in a fresh process, a
    call reuses the cached model handle, with no load and no move, exactly
    when the previous call had the same checkpoint path and the same device
    type; on the first call, or when either differs, the weights are
    loaded from the checkpoint into a fresh model, the model is moved to
    the device of the frames, and the result becomes the cached handle. *)
Theorem infer_reuses_cache_iff_same_key
    (calls : list (Frames * Path)) (frames : Frames) (checkpoint : Path) :
  let w := run_calls E calls (fresh_world (Model E)) in
  let w' := (infer E frames checkpoint w).2 in
  match last calls with
  | Some prev =>
      if decide (same_key prev frames checkpoint)
      then infer_fn w' = infer_fn w /\ events w' = events w
      else infer_fn w' = Some (loaded_attrs E frames checkpoint) /\
           events w' =
             events w ++ [LoadCheckpoint checkpoint; MoveModel (device frames)]
  | None =>
      infer_fn w' = Some (loaded_attrs E frames checkpoint) /\
      events w' = events w ++ [LoadCheckpoint checkpoint; MoveModel (device frames)]
  end.
Proof.
  intros w w'. subst w'. rewrite infer_world. simpl.
  destruct calls as [|c calls] using rev_ind.
  - simpl. done.
  - rewrite last_snoc.
    destruct (run_calls_last calls c (fresh_world (Model E))) as (a & Ha & Hc & Hd).
    fold w in Ha. rewrite Ha.
    destruct (decide (same_key c frames checkpoint)) as [[K1 K2]|Hne].
    + rewrite infer_load_hit by congruence. simpl.
      rewrite app_nil_r. done.
    + rewrite infer_load_miss; [done|].
      intros [K1 K2]. apply Hne. split; congruence.
Qed.

End InferCache.

(** ** Range masking and strategy dispatch of [postprocess] *)

Lemma map_fmap {A B} (f : A -> B) (l : list A) : map f l = f <$> l.
Proof. induction l as [|a l IH]; simpl; [done|]. by rewrite IH. Qed.

Section Postprocess.

Context (E : penn_env).

Lemma entry_fill_bins sel x f b t :
  entry (fill_bins sel x) f b t =
  (fun s => if sel b then NegInf else s) <$> entry x f b t.
Proof.
  unfold entry, fill_bins. rewrite map_fmap, list_lookup_fmap.
  destruct (x !! f) as [frame|]; simpl; [|done].
  rewrite list_lookup_imap.
  destruct (frame !! b) as [row|]; simpl; [|done].
  destruct (sel b); [|by destruct (row !! t)].
  rewrite map_fmap, list_lookup_fmap. by destruct (row !! t).
Qed.

Lemma entry_masked fmin fmax x f b t :
  entry (masked E fmin fmax x) f b t =
  (fun s => if (b <? frequency_to_bins E fmin floor)%nat
               || (frequency_to_bins E fmax ceil <=? b)%nat
            then NegInf else s) <$> entry x f b t.
Proof.
  unfold masked. rewrite !entry_fill_bins.
  destruct (entry x f b t) as [s|]; simpl; [|done].
  destruct (b <? _)%nat, (_ <=? b)%nat; reflexivity.
Qed.

(** The world [postprocess] leaves behind does not depend on how decoding
    ends: the tensor it was given holds the masked logits. *)
Lemma postprocess_world logits fmin fmax w x :
  tensors w !! logits = Some x ->
  (postprocess E logits fmin fmax w).2 =
  mkWorld (infer_fn w) (events w)
          (<[logits := masked E fmin fmax x]> (tensors w)) (disk w).
Proof. intros Hx. unfold postprocess. rewrite Hx. reflexivity. Qed.

(** C9. [postprocess] masks the tensor it is given, not a copy: after the
    call, however it ends, the caller's logits tensor has every entry of
    the pitch-bin rows below [minidx] and at or above [maxidx] overwritten
    with negative infinity, its other entries are as before, and no other
    tensor has changed. *)
Theorem postprocess_masks_in_place
    (w : world (Model E)) (logits : nat) (x : Logits) (fmin fmax : Q) :
  tensors w !! logits = Some x ->
  let minidx := frequency_to_bins E fmin floor in
  let maxidx := frequency_to_bins E fmax ceil in
  let w' := (postprocess E logits fmin fmax w).2 in
  exists x',
    tensors w' !! logits = Some x' /\
    (forall f b t,
        entry x' f b t =
        (fun s => if (b <? minidx)%nat || (maxidx <=? b)%nat then NegInf else s)
          <$> entry x f b t) /\
    (forall other, other <> logits -> tensors w' !! other = tensors w !! other).
Proof.
  intros Hx minidx maxidx w'. subst w'.
  rewrite (postprocess_world _ _ _ _ _ Hx). simpl.
  exists (masked E fmin fmax x). split; [|split].
  - apply list_lookup_insert_eq. by eapply lookup_lt_Some.
  - intros f b t. apply entry_masked.
  - intros other Hne. by apply list_lookup_insert_ne.
Qed.

(** C5. When the configured decoder name is not a recognized one, or the
    configured periodicity name is not a recognized one, [postprocess]
    returns no result: it raises a value error whose message names the
    unrecognized identifier (the decoder's when that is unrecognized, the
    periodicity's otherwise). *)
Theorem postprocess_unknown_strategy
    (w : world (Model E)) (logits : nat) (x : Logits) (fmin fmax : Q) :
  tensors w !! logits = Some x ->
  recognized_decoder (DECODER E) = false \/
  recognized_periodicity (PERIODICITY E) = false ->
  exists kind name,
    (postprocess E logits fmin fmax w).1 =
      Raise (ValueError (kind +:+ name +:+ " is not defined")) /\
    ((kind = "Decoder method " /\ name = DECODER E /\
      recognized_decoder name = false) \/
     (kind = "Periodicity method " /\ name = PERIODICITY E /\
      recognized_decoder (DECODER E) = true /\
      recognized_periodicity name = false)).
Proof.
  intros Hx Hbad. unfold postprocess. rewrite Hx. simpl.
  destruct (recognized_decoder (DECODER E)) eqn:Hd.
  - destruct Hbad as [?|Hp]; [done|].
    exists "Periodicity method ", (PERIODICITY E).
    split; [|right; done].
    unfold recognized_periodicity in Hp.
    apply orb_false_iff in Hp as [Hp Hp3]. apply orb_false_iff in Hp as [Hp1 Hp2].
    rewrite Hp1, Hp2, Hp3.
    unfold recognized_decoder in Hd.
    destruct (String.eqb (DECODER E) "argmax"); [reflexivity|].
    destruct (String.eqb (DECODER E) "average"); [reflexivity|].
    destruct (String.prefix "viterbi" (DECODER E)); [reflexivity|].
    destruct (String.eqb (DECODER E) "weighted"); [reflexivity|done].
  - exists "Decoder method ", (DECODER E).
    split; [|left; done].
    unfold recognized_decoder in Hd.
    apply orb_false_iff in Hd as [Hd Hd4]. apply orb_false_iff in Hd as [Hd Hd3].
    apply orb_false_iff in Hd as [Hd1 Hd2].
    rewrite Hd1, Hd2, Hd3, Hd4. reflexivity.
Qed.

End Postprocess.

(** ** Orchestration: delegation, saved files, lists of files *)

Lemma append_inj_r (p a b : string) : p +:+ a = p +:+ b -> a = b.
Proof. induction p as [|c p IH]; simpl; [done|]. intros [= H]. auto. Qed.


Lemma zip_replicate_r {A B} (xs : list A) (b : B) :
  py.zip xs (replicate (length xs) b) = map (fun x => (x, b)) xs.
Proof. induction xs as [|x xs IH]; simpl; [done|]. by rewrite IH. Qed.

Section Orchestration.

Context (E : penn_env).

Local Abbreviation World := (world (Model E)).

Lemma for_each_disk {A B} (body : A -> M E B) (xs : list A) :
  (forall x w, disk (body x w).2 = disk w) ->
  forall w, disk (for_each E xs body w).2 = disk w.
Proof.
  intros Hbody. induction xs as [|x xs IH]; intros w; simpl; [done|].
  unfold bind. specialize (Hbody x w).
  destruct (body x w) as [[y|e] w1]; simpl in *; [|done].
  specialize (IH w1).
  destruct (for_each E xs body w1) as [[ys|e] w2]; simpl in *; congruence.
Qed.

Lemma infer_disk frames checkpoint (w : World) :
  disk (infer E frames checkpoint w).2 = disk w.
Proof. by rewrite infer_world. Qed.

Lemma postprocess_disk logits fmin fmax (w : World) :
  disk (postprocess E logits fmin fmax w).2 = disk w.
Proof.
  unfold postprocess. destruct (tensors w !! logits); reflexivity.
Qed.

Lemma from_audio_disk audio sample_rate hopsize fmin fmax checkpoint batch_size gpu
    (w : World) :
  disk (from_audio E audio sample_rate hopsize fmin fmax checkpoint batch_size gpu w).2
  = disk w.
Proof.
  unfold from_audio, bind.
  match goal with
  | |- context [for_each E ?xs ?body w] =>
      pose proof (for_each_disk body xs) as Hloop;
      destruct (for_each E xs body w) as [[results|e] w1] eqn:Hrun
  end.
  - assert (disk w1 = disk w) as Hw1.
    { change w1 with (Ok results, w1).2. rewrite <- Hrun. apply Hloop.
      intros item w0. unfold bind.
      pose proof (infer_disk
        (to (mkFrames item.1 cpu) match gpu with None => cpu | Some g => cuda g end)
        checkpoint w0) as Hi.
      destruct (infer E _ checkpoint w0) as [[l|e] w0']; simpl in *; [|done].
      pose proof (postprocess_disk l fmin fmax w0') as Hp.
      destruct (postprocess E l fmin fmax w0') as [[r|e] w0'']; simpl in *; congruence. }
    destruct (raised _); simpl; [done|].
    unfold lift. destruct (torch.cat (torch_cat_error E) (map fst results)); simpl; [|done].
    destruct (torch.cat (torch_cat_error E) (map snd results)); simpl; done.
  - simpl. change w1 with (@Raise (list (list Q * list Q)) e, w1).2.
    rewrite <- Hrun. apply Hloop.
    intros item w0. unfold bind.
    pose proof (infer_disk
      (to (mkFrames item.1 cpu) match gpu with None => cpu | Some g => cuda g end)
      checkpoint w0) as Hi.
    destruct (infer E _ checkpoint w0) as [[l|e'] w0']; simpl in *; [|done].
    pose proof (postprocess_disk l fmin fmax w0') as Hp.
    destruct (postprocess E l fmin fmax w0') as [[r|e'] w0'']; simpl in *; congruence.
Qed.

Lemma from_file_disk file hopsize fmin fmax checkpoint batch_size gpu (w : World) :
  disk (from_file E file hopsize fmin fmax checkpoint batch_size gpu w).2 = disk w.
Proof.
  unfold from_file, bind. simpl.
  match goal with
  | |- context [from_audio E ?a ?r hopsize fmin fmax checkpoint batch_size gpu ?w0] =>
      pose proof (from_audio_disk a r hopsize fmin fmax checkpoint batch_size gpu w0) as H;
      destruct (from_audio E a r hopsize fmin fmax checkpoint batch_size gpu w0)
        as [[r0|e] w1]
  end; simpl in *; done.
Qed.

(** C3 (amended). [from_file] returns what [from_audio] returns on the
    buffer loaded by [penn.load.audio], called with the model sample rate
    [penn.SAMPLE_RATE] as its [sample_rate] argument and every other
    argument passed through unchanged; [preprocess] then takes the loaded
    buffer as it is, without resampling. *)
Theorem from_file_delegates_at_model_rate
    (file : Path) (hopsize fmin fmax : Q) (checkpoint : Path)
    (batch_size gpu : option Z) (w : World) :
  from_file E file hopsize fmin fmax checkpoint batch_size gpu w =
    from_audio E (load_audio E file) (SAMPLE_RATE E) hopsize fmin fmax
               checkpoint batch_size gpu (loaded E file w) /\
  preprocess_setup E (load_audio E file) (SAMPLE_RATE E) hopsize batch_size =
    (let hop := seconds_to_samples E hopsize in
     total_frames <-? py.int_truediv (Z.of_nat (length (load_audio E file))) hop;
     let padding := Z.quot (WINDOW_SIZE E - hop) 2 in
     audio <-? torch.pad (load_audio E file) padding padding;
     let size := match batch_size with None => total_frames | Some b => b end in
     indices <-? py.range 0 total_frames size;
     Ok (audio, hop, total_frames, size, indices))%res.
Proof.
  split; [reflexivity|].
  unfold preprocess_setup.
  destruct (decide (SAMPLE_RATE E <> SAMPLE_RATE E)); [done|reflexivity].
Qed.




(** What [from_file_to_file] does once inference has returned. *)
Lemma from_file_to_file_saves file output_prefix hopsize fmin fmax checkpoint
    batch_size gpu (w w1 : World) (pitch periodicity : list Q) :
  from_file E file hopsize fmin fmax checkpoint batch_size gpu w =
    (Ok (pitch, periodicity), w1) ->
  let prefix := pathlib.str (prefix_in_use file output_prefix) in
  let pitch_file := prefix +:+ "-pitch.pt" in
  let periodicity_file := prefix +:+ "-periodicity.pt" in
  let run := from_file_to_file E file output_prefix hopsize fmin fmax checkpoint
                               batch_size gpu w in
  match torch_save_error E pitch_file (disk w) with
  | Some e => run = (Raise e, w1)
  | None =>
      match torch_save_error E periodicity_file (<[pitch_file := pitch]> (disk w)) with
      | Some e =>
          run = (Raise e,
                 mkWorld (infer_fn w1) (events w1 ++ [Save pitch_file]) (tensors w1)
                         (<[pitch_file := pitch]> (disk w)))
      | None =>
          run = (Ok tt,
                 mkWorld (infer_fn w1)
                         (events w1 ++ [Save pitch_file; Save periodicity_file])
                         (tensors w1)
                         (<[periodicity_file := periodicity]>
                            (<[pitch_file := pitch]> (disk w))))
      end
  end.
Proof.
  intros Hinfer prefix pitch_file periodicity_file run.
  assert (Hdisk : disk w1 = disk w).
  { change w1 with (Ok (pitch, periodicity), w1).2. rewrite <- Hinfer.
    apply from_file_disk. }
  subst run. unfold from_file_to_file, bind. rewrite Hinfer. cbn [fst snd].
  fold (prefix_in_use file output_prefix). fold prefix pitch_file periodicity_file.
  unfold save. rewrite !Hdisk.
  destruct (torch_save_error E pitch_file (disk w)) as [e|]; [done|].
  cbn [disk events infer_fn tensors].
  destruct (torch_save_error E periodicity_file _) as [e|]; [done|].
  by rewrite <- app_assoc.
Qed.







End Orchestration.
(** ** Framing and batching of [preprocess] *)

(** Consecutive chunks of at most [B] indices cover [0 .. T) once each. *)
Lemma full_chunks (B m : nat) :
  concat (map (fun k => seq (k * B) B) (seq 0 m)) = seq 0 (m * B).
Proof.
  induction m as [|m IH]; [done|].
  rewrite seq_S, map_app, concat_app, IH. simpl.
  rewrite app_nil_r. replace (B + m * B)%nat with (m * B + B)%nat by lia.
  by rewrite seq_app.
Qed.

Lemma chunks_cover (T B n : nat) :
  (0 < B)%nat ->
  ((n = 0 /\ T = 0) \/ (0 < n /\ (n - 1) * B < T <= n * B))%nat ->
  concat (map (fun k => seq (k * B) (Nat.min (T - k * B) B)) (seq 0 n)) = seq 0 T.
Proof.
  intros HB [[-> ->]|[Hn HT]]; [done|].
  destruct n as [|m]; [lia|]. replace (S m - 1)%nat with m in HT by lia.
  rewrite seq_S, map_app, concat_app. simpl. rewrite app_nil_r.
  rewrite (map_ext_in _ (fun k => seq (k * B) B)).
  - rewrite full_chunks.
    replace (Nat.min (T - m * B) B) with (T - m * B)%nat by lia.
    replace T with (m * B + (T - m * B))%nat at 2 by lia.
    by rewrite seq_app.
  - intros k Hk%in_seq. f_equal. nia.
Qed.

Lemma slice_in_range {A} (x : list A) (s e : Z) :
  0 <= s <= e -> e <= Z.of_nat (length x) ->
  py.slice x s e = take (Z.to_nat (e - s)) (drop (Z.to_nat s) x).
Proof.
  intros Hs He. unfold py.slice, py.adjust.
  destruct (s <? 0) eqn:H1; [lia|]. destruct (e <? 0) eqn:H2; [lia|].
  by rewrite !Z.min_l by lia.
Qed.

Lemma window_of_slice (audio : list Z) (s L k W : nat) :
  (k + W <= L)%nat ->
  take W (drop k (take L (drop s audio))) = take W (drop (s + k) audio).
Proof.
  intros Hk.
  replace L with (k + (L - k))%nat by lia.
  rewrite <- take_drop_commute, take_take, drop_drop.
  f_equal. lia.
Qed.

(** Unfolding the slice of a batch gives the windows of its frames, when
    the padded audio reaches the end of the last of them. *)
Lemma unfold_slice (audio : list Z) (H W i b : Z) :
  0 < H -> 0 < W -> 0 <= i -> 1 <= b ->
  (i + b - 1) * H + W <= Z.of_nat (length audio) ->
  torch.unfold (py.slice audio (i * H) (i * H + (b - 1) * H + W)) W H =
  Ok (map (frame_window audio H W) (seq (Z.to_nat i) (Z.to_nat b))).
Proof.
  intros HH HW Hi Hb Hfit.
  rewrite slice_in_range by nia.
  unfold torch.unfold.
  destruct (W <=? 0) eqn:E1; [lia|]. destruct (H <=? 0) eqn:E2; [lia|]. simpl.
  assert (Hlen : Z.of_nat (length (take (Z.to_nat (i * H + (b - 1) * H + W - i * H))
                                      (drop (Z.to_nat (i * H)) audio)))
                 = (b - 1) * H + W).
  { rewrite length_take, length_drop. nia. }
  rewrite Hlen. unfold torch.blocks.
  replace ((b - 1) * H + W - W) with ((b - 1) * H) by lia.
  rewrite Z.div_mul by lia. replace (b - 1 + 1) with b by lia.
  destruct (b <? 1) eqn:E3; [lia|].
  f_equal.
  assert (Hs : seq (Z.to_nat i) (Z.to_nat b) =
               map (fun k => (Z.to_nat i + k)%nat) (seq 0 (Z.to_nat b))).
  { rewrite map_fmap, fmap_add_seq. f_equal. lia. }
  rewrite Hs, map_map.
  apply map_ext_in. intros k Hk%in_seq. unfold frame_window.
  rewrite window_of_slice by nia.
  f_equal. f_equal. nia.
Qed.

Lemma pad_length (audio : list Z) (p : Z) :
  0 <= Z.of_nat (length audio) + 2 * p ->
  exists padded,
    torch.pad audio p p = Ok padded /\
    Z.of_nat (length padded) = Z.of_nat (length audio) + 2 * p.
Proof.
  intros Hp. unfold torch.pad.
  destruct (Z.of_nat (length audio) + p + p <? 0) eqn:E1; [lia|].
  eexists; split; [reflexivity|].
  destruct (0 <=? p) eqn:E2.
  - rewrite !length_app, !length_replicate. lia.
  - rewrite length_take, length_drop. lia.
Qed.

Lemma generate_ok {A} (body : Z -> res A) (f : Z -> A) (indices : list Z) :
  (forall i, In i indices -> body i = Ok (f i)) ->
  generate body indices = Gen (map f indices) None.
Proof.
  induction indices as [|i rest IH]; intros Hbody; simpl; [done|].
  rewrite (Hbody i) by (by left).
  rewrite IH by (intros j Hj; apply Hbody; by right). reflexivity.
Qed.

(** Number of batches for [total] frames in batches of [size]. *)
Lemma range_len_batches (total size : Z) :
  0 <= total -> 0 < size ->
  let n := py.range_len 0 total size in
  (n = 0 /\ total = 0) \/ (0 < n /\ (n - 1) * size < total <= n * size).
Proof.
  intros Ht Hs n. subst n. unfold py.range_len.
  destruct (0 <? size) eqn:E1; [|lia].
  destruct (0 <? total) eqn:E2; [|left; lia].
  right. replace (total - 0 - 1) with (total - 1) by lia.
  pose proof (Z.div_mod (total - 1) size ltac:(lia)) as Hdm.
  pose proof (Z.mod_pos_bound (total - 1) size ltac:(lia)) as Hmod.
  pose proof (Z.div_pos (total - 1) size ltac:(lia) ltac:(lia)) as Hq.
  nia.
Qed.

Section Framing.

Context (E : penn_env).

(** When the padded audio reaches the end of the last window, the
    generator runs to completion and yields the batches in order. *)
Lemma preprocess_batches (audio : list Z) (hopsize : Q) (batch_size : option Z) :
  let H := seconds_to_samples E hopsize in
  let S := Z.of_nat (length audio) in
  let total := Z.quot S H in
  let p := Z.quot (WINDOW_SIZE E - H) 2 in
  let size := match batch_size with None => total | Some b => b end in
  0 < H -> 0 < WINDOW_SIZE E -> 0 < size ->
  0 <= S + 2 * p ->
  (total = 0 \/ (total - 1) * H + WINDOW_SIZE E <= S + 2 * p) ->
  exists padded,
    torch.pad audio p p = Ok padded /\
    preprocess E audio (SAMPLE_RATE E) hopsize batch_size =
    Gen (map (batch_item E padded H total size)
             (seq 0 (Z.to_nat (py.range_len 0 total size))))
        None.
Proof.
  intros H S total p size HH HW Hsize Hpad Hfit.
  destruct (pad_length audio p Hpad) as (padded & Hpadded & Hlen).
  exists padded. split; [done|].
  assert (Htotal : 0 <= total).
  { subst total. apply Z.quot_pos; lia. }
  unfold preprocess, preprocess_setup.
  destruct (decide (SAMPLE_RATE E <> SAMPLE_RATE E)); [done|].
  unfold py.int_truediv. fold H. destruct (H =? 0) eqn:E0; [lia|].
  simpl. fold S total p. rewrite Hpadded. simpl. fold size.
  unfold py.range. destruct (size =? 0) eqn:E1; [lia|]. simpl.
  rewrite (generate_ok _ (fun i =>
    (map (frame_window padded H (WINDOW_SIZE E))
         (seq (Z.to_nat i) (Z.to_nat (Z.min (total - i) size))),
     Z.min (total - i) size))).
  - f_equal. rewrite map_map. apply map_ext. intros k.
    unfold batch_item. simpl. reflexivity.
  - intros i Hi. apply in_map_iff in Hi as (k & <- & Hk%in_seq).
    pose proof (range_len_batches total size Htotal Hsize) as Hn. simpl in Hn.
    assert (Hk' : 0 <= Z.of_nat k <= py.range_len 0 total size - 1) by lia.
    set (nb := py.range_len 0 total size) in *.
    set (i := 0 + Z.of_nat k * size).
    assert (Hi0 : 0 <= i) by (subst i; nia).
    assert (Hi1 : i < total) by (subst i; nia).
    unfold preprocess_batch. simpl.
    rewrite unfold_slice; [reflexivity|lia|lia|lia|lia|].
    destruct Hfit as [Hz|Hfit]; [lia|]. nia.
Qed.

End Framing.

Lemma total_size_lengths {A} (items : list (list A * Z)) :
  Forall (fun item => item.2 = Z.of_nat (length item.1)) items ->
  total_size items = Z.of_nat (length (concat (map fst items))).
Proof.
  induction 1 as [|item items Hitem _ IH]; simpl; [done|].
  rewrite length_app, IH, Hitem. lia.
Qed.

Section FrameCount.

Context (E : penn_env).

Lemma batch_items_concat (padded : list Z) (hop total size : Z) :
  0 <= total -> 0 < size ->
  concat (map fst (map (batch_item E padded hop total size)
                       (seq 0 (Z.to_nat (py.range_len 0 total size))))) =
  map (frame_window padded hop (WINDOW_SIZE E)) (seq 0 (Z.to_nat total)).
Proof.
  intros Ht Hs.
  pose proof (range_len_batches total size Ht Hs) as Hn. simpl in Hn.
  set (n := py.range_len 0 total size) in *.
  rewrite <- (chunks_cover (Z.to_nat total) (Z.to_nat size) (Z.to_nat n)) by nia.
  rewrite map_map. unfold batch_item. simpl.
  rewrite !map_fmap, <- !map_fmap.
  induction (seq 0 (Z.to_nat n)) as [|k ks IH]; simpl; [done|].
  rewrite map_app, IH. f_equal. f_equal. f_equal; nia.
Qed.

Lemma batch_items_sizes (padded : list Z) (hop total size : Z) :
  0 <= total -> 0 < size ->
  Forall (fun item => item.2 = Z.of_nat (length item.1) /\ 1 <= item.2 <= size)
         (map (batch_item E padded hop total size)
              (seq 0 (Z.to_nat (py.range_len 0 total size)))).
Proof.
  intros Ht Hs.
  pose proof (range_len_batches total size Ht Hs) as Hn. simpl in Hn.
  set (n := py.range_len 0 total size) in *.
  apply Forall_forall. intros item Hitem.
  apply list_elem_of_In, in_map_iff in Hitem as (k & <- & Hk%in_seq).
  unfold batch_item. simpl. rewrite length_map, length_seq. nia.
Qed.

(** Under the assumptions of [preprocess_batches], no frame is dropped or
    duplicated by batching: the generator ends normally, every batch holds
    as many frames as its size says and at least one, the batches put end
    to end are the windows of frames [0 .. total) in order, and the sizes
    sum to [total = floor(S / H)]. *)
Lemma preprocess_frames_when_padding_fits
    (audio : list Z) (hopsize : Q) (batch_size : option Z) :
  let H := seconds_to_samples E hopsize in
  let S := Z.of_nat (length audio) in
  let total := S / H in
  let p := Z.quot (WINDOW_SIZE E - H) 2 in
  let size := match batch_size with None => total | Some b => b end in
  let g := preprocess E audio (SAMPLE_RATE E) hopsize batch_size in
  0 < H -> 0 < WINDOW_SIZE E -> 0 < size ->
  0 <= S + 2 * p ->
  (total = 0 \/ (total - 1) * H + WINDOW_SIZE E <= S + 2 * p) ->
  raised g = None /\
  Forall (fun item => item.2 = Z.of_nat (length item.1) /\ 1 <= item.2 <= size)
         (yielded g) /\
  (exists padded,
      torch.pad audio p p = Ok padded /\
      concat (map fst (yielded g)) =
      map (frame_window padded H (WINDOW_SIZE E)) (seq 0 (Z.to_nat total))) /\
  total_size (yielded g) = total.
Proof.
  intros H S total p size g HH HW Hsize Hpad Hfit.
  assert (Hq : Z.quot S H = total).
  { subst total. apply Z.quot_div_nonneg; lia. }
  assert (Htotal : 0 <= total) by (subst total; apply Z.div_pos; lia).
  destruct (preprocess_batches E audio hopsize batch_size) as (padded & Hp & Hrun);
    fold H S; rewrite ?Hq; try done.
  fold H S in Hp, Hrun. rewrite Hq in Hrun. fold p in Hp. fold g size in Hrun.
  rewrite Hrun. simpl.
  pose proof (batch_items_sizes padded H total size Htotal Hsize) as Hsizes.
  split; [done|]. split; [done|]. split.
  - exists padded. split; [done|]. by apply batch_items_concat.
  - rewrite total_size_lengths.
    + rewrite batch_items_concat by done. rewrite length_map, length_seq. lia.
    + eapply Forall_impl; [exact Hsizes|]. intros item [? ?]. done.
Qed.

End FrameCount.

(** ** [preprocess] on audio shorter than one hop *)

Section ShortAudio.

Context (E : penn_env).

(** With an explicit non-zero batch size, audio shorter than one hop
    yields the empty sequence. *)
Lemma preprocess_short_audio_explicit_batch
    (audio : list Z) (hopsize : Q) (b : Z) :
  let H := seconds_to_samples E hopsize in
  let S := Z.of_nat (length audio) in
  S < H -> 0 <= S + 2 * Z.quot (WINDOW_SIZE E - H) 2 -> b <> 0 ->
  preprocess E audio (SAMPLE_RATE E) hopsize (Some b) = Gen [] None.
Proof.
  intros H S Hshort Hpad Hb.
  assert (HS : 0 <= S) by (subst S; lia).
  unfold preprocess, preprocess_setup.
  destruct (decide (SAMPLE_RATE E <> SAMPLE_RATE E)); [done|].
  unfold py.int_truediv. fold H S. destruct (H =? 0) eqn:E0; [lia|]. simpl.
  rewrite (Z.quot_small S H) by lia.
  destruct (pad_length audio _ Hpad) as (padded & -> & _). simpl.
  unfold py.range. destruct (b =? 0) eqn:E1; [lia|]. simpl.
  unfold py.range_len. destruct (0 <? b); reflexivity.
Qed.

(** C2. For audio shorter than one hop, [total_frames] is zero.  With the
    default [batch_size = None] the batch size becomes [total_frames], the
    loop header is [range(0, 0, 0)], and the generator ends with a value
    error instead of being empty. *)
Theorem preprocess_short_audio_default_batch_raises
    (audio : list Z) (hopsize : Q) :
  let H := seconds_to_samples E hopsize in
  let S := Z.of_nat (length audio) in
  S < H -> 0 <= S + 2 * Z.quot (WINDOW_SIZE E - H) 2 ->
  Z.quot S H = 0 /\
  preprocess E audio (SAMPLE_RATE E) hopsize None =
    Gen [] (Some (ValueError "range() arg 3 must not be zero")).
Proof.
  intros H S Hshort Hpad.
  assert (HS : 0 <= S) by (subst S; lia).
  assert (Hq : Z.quot S H = 0) by (apply Z.quot_small; lia).
  split; [done|].
  unfold preprocess, preprocess_setup.
  destruct (decide (SAMPLE_RATE E <> SAMPLE_RATE E)); [done|].
  unfold py.int_truediv. fold H S. destruct (H =? 0) eqn:E0; [lia|]. simpl.
  rewrite Hq.
  destruct (pad_length audio _ Hpad) as (padded & -> & _). reflexivity.
Qed.

End ShortAudio.

Lemma preprocess_short_audio_default_batch_raises_witness :
  let E := released "argmax" "entropy" in
  let audio := replicate 79 0 in
  Z.of_nat (length audio) < seconds_to_samples E (1 # 100) /\
  preprocess E audio 8000 (1 # 100) None =
    Gen [] (Some (ValueError "range() arg 3 must not be zero")).
Proof.
  intros E audio. split; [vm_compute; reflexivity|].
  apply (preprocess_short_audio_default_batch_raises E audio (1 # 100));
    vm_compute; congruence.
Defined.

Section OddPadding.

Context (E : penn_env).

(** C1. Where [WINDOW_SIZE - H] is odd, [int((WINDOW_SIZE - H) / 2)] pads
    one sample less than the last window needs whenever [H] divides the
    sample count.  For audio of exactly [H] samples, [floor(S / H)] is one
    frame, but the padded audio has [WINDOW_SIZE - 1] samples, the window
    of the frame does not fit, and the generator ends with an error
    without yielding it, in batches of one frame as in the default single
    batch. *)
Theorem preprocess_odd_padding_drops_last_frame
    (audio : list Z) (hopsize : Q) (batch_size : option Z) :
  let H := seconds_to_samples E hopsize in
  let S := Z.of_nat (length audio) in
  0 < H < WINDOW_SIZE E ->
  Z.odd (WINDOW_SIZE E - H) = true ->
  S = H ->
  batch_size = None \/ batch_size = Some 1 ->
  S / H = 1 /\
  preprocess E audio (SAMPLE_RATE E) hopsize batch_size =
    Gen [] (Some (RuntimeError
      "calculated shape of the array of sliding blocks must be at least one")).
Proof.
  intros H S HH Hodd HS Hbatch.
  assert (Hone : S / H = 1) by (rewrite HS; apply Z.div_same; lia).
  split; [done|].
  apply Z.odd_spec in Hodd as [k Hk].
  assert (Hp : Z.quot (WINDOW_SIZE E - H) 2 = k).
  { rewrite Hk. rewrite Z.quot_div_nonneg by lia.
    replace (2 * k + 1) with (k * 2 + 1) by lia.
    rewrite Z.div_add_l by lia. rewrite Z.div_small by lia. lia. }
  unfold preprocess, preprocess_setup.
  destruct (decide (SAMPLE_RATE E <> SAMPLE_RATE E)); [done|].
  unfold py.int_truediv. fold H S. destruct (H =? 0) eqn:E0; [lia|]. simpl.
  rewrite Hp.
  assert (Hq : Z.quot S H = 1) by (rewrite HS; apply Z.quot_same; lia).
  rewrite Hq.
  destruct (pad_length audio k ltac:(lia)) as (padded & -> & Hlen). simpl.
  assert (Hsize : match batch_size with None => 1 | Some b => b end = 1)
    by (destruct Hbatch as [->| ->]; reflexivity).
  rewrite Hsize. change (py.range 0 1 1) with (Ok [0]). simpl.
  unfold preprocess_batch.
  change (Z.min (1 - 0) 1) with 1. change (0 * H + (1 - 1) * H) with 0.
  change (0 * H) with 0. change (0 + WINDOW_SIZE E) with (WINDOW_SIZE E).
  assert (Hslice : Z.of_nat (length (py.slice padded 0 (WINDOW_SIZE E)))
                   = WINDOW_SIZE E - 1).
  { unfold py.slice, py.adjust.
    destruct (0 <? 0) eqn:E1; [lia|]. destruct (WINDOW_SIZE E <? 0) eqn:E2; [lia|].
    rewrite length_take, length_drop. fold S in Hlen. lia. }
  unfold torch.unfold.
  destruct (WINDOW_SIZE E <=? 0) eqn:E3; [lia|].
  destruct (H <=? 0) eqn:E4; [lia|]. simpl.
  rewrite Hslice. unfold torch.blocks.
  replace (WINDOW_SIZE E - 1 - WINDOW_SIZE E) with (-1) by lia.
  assert (Hdiv : -1 / H = -1).
  { symmetry. apply (Z.div_unique_pos (-1) H (-1) (H - 1)); lia. }
  rewrite Hdiv. reflexivity.
Qed.

End OddPadding.

Lemma preprocess_odd_padding_drops_last_frame_witness :
  let E := released "argmax" "entropy" in
  let audio := replicate 81 0 in
  let hop := (81 # 8000)%Q in
  seconds_to_samples E hop = 81 /\
  Z.of_nat (length audio) / 81 = 1 /\
  preprocess E audio 8000 hop (Some 1) =
    Gen [] (Some (RuntimeError
      "calculated shape of the array of sliding blocks must be at least one")).
Proof.
  intros E audio hop. split; [reflexivity|].
  apply (preprocess_odd_padding_drops_last_frame E audio hop (Some 1));
    [vm_compute; split; reflexivity|reflexivity|reflexivity|by right].
Defined.

(** With 162 samples and a hop of 81 the default single batch is yielded
    with size 2 and holds one frame. *)
Lemma preprocess_odd_padding_short_batch :
  let E := released "argmax" "entropy" in
  map (fun item => (length item.1, item.2))
      (yielded (preprocess E (replicate 162 0) 8000 (81 # 8000) None)) =
  [(1%nat, 2)].
Proof. vm_compute. reflexivity. Qed.

(** ** [from_file] and the sample rate it passes on *)

(** A file stored at 16 kHz whose loaded buffer has 160 samples: [from_file]
    estimates two frames from the buffer as it is, [from_audio] at
    16 kHz resamples the buffer first and estimates one. *)
Lemma from_file_ignores_native_rate :
  ~ from_file_at_native_rate
      (example.env 8000 1024 "argmax" "entropy" (fun _ => replicate 160 0))
      (fun _ => 16000).
Proof.
  intros Hclaim.
  specialize (Hclaim (mkPath false ["speech.wav"]) (1 # 100)%Q (50 # 1)%Q
                     (500 # 1)%Q (mkPath false ["penn.pt"]) None None
                     (fresh_world _)).
  vm_compute in Hclaim. discriminate Hclaim.
Qed.

(** ** Range masking and the decoded bin *)

Lemma score_ltb_trans (a b c : score) :
  score_ltb a b = true -> score_ltb b c = true -> score_ltb a c = true.
Proof. destruct a, b, c; simpl; try done. lia. Qed.

(** [first_max] returns one of the candidates, and none scores higher. *)
Lemma first_max_spec {A} (cands : list (score * A)) (best : score * A) :
  In (first_max best cands) (best :: cands) /\
  forall c, In c (best :: cands) -> score_ltb (first_max best cands).1 c.1 = false.
Proof.
  revert best. induction cands as [|c cs IH]; intros best; simpl.
  - split; [by left|]. intros c [<-|[]]. by destruct (best.1) as [|z]; simpl; [|lia].
  - destruct (score_ltb best.1 c.1) eqn:Hlt.
    + destruct (IH c) as [Hin Hmax]. split.
      * right. exact Hin.
      * intros d [<-|Hd]; [|by apply Hmax].
        destruct (score_ltb (first_max c cs).1 best.1) eqn:Hcontra; [|done].
        pose proof (score_ltb_trans _ _ _ Hcontra Hlt) as Hbad.
        rewrite (Hmax c) in Hbad by (by left). done.
    + destruct (IH best) as [Hin Hmax]. split.
      * destruct Hin as [Hin|Hin]; [by left|]. right. by right.
      * intros d [<-|[<-|Hd]].
        -- apply Hmax. by left.
        -- destruct (score_ltb (first_max best cs).1 c.1) eqn:Hcontra; [|done].
           assert (score_ltb best.1 c.1 = true) as Hbad; [|congruence].
           destruct (score_ltb (first_max best cs).1 best.1) eqn:H1.
           ++ rewrite (Hmax best) in H1 by (by left). done.
           ++ clear - Hcontra H1.
              destruct (first_max best cs).1, best.1, c.1; simpl in *; try done. lia.
        -- apply Hmax. by right.
Qed.

(** If some bin has a finite score, so has the bin [argmax_bin] picks. *)
Lemma argmax_bin_finite (scores : list score) (b0 : nat) (s0 : Z) :
  scores !! b0 = Some (Fin s0) ->
  exists s, scores !! argmax_bin scores = Some (Fin s).
Proof.
  intros Hb0. unfold argmax_bin.
  assert (Hall : forall c, In c (imap (fun b s => (s, b)) scores) ->
                           scores !! c.2 = Some c.1).
  { intros c Hc%list_elem_of_In%list_elem_of_lookup. destruct Hc as [i Hi].
    rewrite list_lookup_imap in Hi.
    destruct (scores !! i) eqn:Hsi; simpl in Hi; [|done].
    injection Hi as <-. done. }
  assert (Hin0 : In (Fin s0, b0) (imap (fun b s => (s, b)) scores)).
  { apply list_elem_of_In, list_elem_of_lookup. exists b0.
    rewrite list_lookup_imap, Hb0. done. }
  destruct (imap (fun b s => (s, b)) scores) as [|c cs]; [destruct Hin0|].
  destruct (first_max_spec cs c) as [Hin Hmax].
  specialize (Hall _ Hin). specialize (Hmax _ Hin0). simpl in Hmax.
  rewrite Hall. destruct ((first_max c cs).1) as [|s]; [done|]. by exists s.
Qed.

Lemma emissions_masked_lookup (sel : nat -> bool) (frame : list (list score)) (b : nat) :
  emissions (imap (fun (b : nat) (row : list score) =>
                     if sel b then map (fun _ => NegInf) row else row) frame) !! b =
  (fun s => if sel b then NegInf else s) <$> emissions frame !! b.
Proof.
  unfold emissions. rewrite !map_fmap, !list_lookup_fmap, list_lookup_imap.
  destruct (frame !! b) as [row|]; simpl; [|done].
  destruct (sel b); [|done]. by destruct row.
Qed.


Section MaskedDecoding.

Context (E : penn_env).

Lemma masked_frame_emissions fmin fmax (x : Logits) (f b : nat) frame :
  x !! f = Some frame ->
  exists mframe,
    masked E fmin fmax x !! f = Some mframe /\
    emissions mframe !! b =
    (fun s => if (b <? frequency_to_bins E fmin floor)%nat
                 || (frequency_to_bins E fmax ceil <=? b)%nat
              then NegInf else s) <$> emissions frame !! b.
Proof.
  intros Hf. unfold masked, fill_bins.
  rewrite !map_fmap, !list_lookup_fmap, Hf. simpl.
  eexists; split; [reflexivity|].
  rewrite !emissions_masked_lookup.
  destruct (emissions frame !! b) as [s|]; simpl; [|done].
  destruct (b <? _)%nat, (_ <=? b)%nat; reflexivity.
Qed.


End MaskedDecoding.

(** The argmax decoder as described selects no masked value. *)
Lemma spec_argmax_selects_unmasked (bins_to_frequency : nat -> Q) :
  selects_unmasked (spec_argmax bins_to_frequency).
Proof.
  intros x Hfinite f b Hb. unfold spec_argmax in Hb. cbn [fst] in Hb.
  rewrite map_fmap, list_lookup_fmap in Hb.
  destruct (x !! f) as [frame|] eqn:Hf; cbn in Hb; [|done]. injection Hb as <-.
  destruct (Hfinite f frame Hf) as (b0 & s0 & He0).
  unfold entry in He0 |- *. rewrite Hf in He0 |- *. cbn in He0 |- *.
  destruct (frame !! b0) as [row0|] eqn:Hrow0; cbn in He0; [|done].
  assert (Hfin0 : emissions frame !! b0 = Some (Fin s0)).
  { unfold emissions. rewrite map_fmap, list_lookup_fmap, Hrow0. cbn.
    destruct row0; cbn in *; congruence. }
  destruct (argmax_bin_finite _ _ _ Hfin0) as [s Hs]. exists s.
  set (b := argmax_bin (emissions frame)) in *.
  unfold emissions in Hs. rewrite map_fmap, list_lookup_fmap in Hs.
  destruct (frame !! b) as [row|]; cbn in Hs |- *; [|done].
  destruct row; cbn in *; congruence.
Qed.






(** ** Batching and the output of [from_audio] *)

Section BatchRuns.

Context (E : penn_env).

Local Abbreviation World := (world (Model E)).

Lemma postprocess_strategies logits fmin fmax (w : World) x :
  tensors w !! logits = Some x ->
  res_bind (postprocess E logits fmin fmax w).1 (fun r => Ok (r.1.2, r.2)) =
  res_bind (strategies E) (fun s =>
    Ok (s.1 (masked E fmin fmax x), s.2 (masked E fmin fmax x))).
Proof.
  intros Hx. unfold postprocess, strategies. rewrite Hx. simpl.
  fold (masked E fmin fmax x).
  destruct (String.eqb (DECODER E) "argmax");
    [|destruct (String.eqb (DECODER E) "average");
      [|destruct (String.prefix "viterbi" (DECODER E));
        [|destruct (String.eqb (DECODER E) "weighted")]]]; simpl;
  try (destruct (String.eqb (PERIODICITY E) "entropy");
       [|destruct (String.eqb (PERIODICITY E) "max");
         [|destruct (String.eqb (PERIODICITY E) "sum")]]; simpl);
  reflexivity.
Qed.

Lemma from_audio_body_run fmin fmax checkpoint gpu item (w : World) :
  let a := model_in_use E (target gpu) checkpoint w in
  let run := from_audio_body E fmin fmax checkpoint gpu item w in
  run.1 = batch_result E (attr_model a) (target gpu) fmin fmax item.1 /\
  model_in_use E (target gpu) checkpoint run.2 = a.
Proof.
  intros a run. subst run. unfold from_audio_body, bind.
  fold (target gpu).
  pose proof (infer_world E (to (mkFrames item.1 cpu) (target gpu)) checkpoint w) as Hw.
  unfold infer in *.
  change (infer_load E (to (mkFrames item.1 cpu) (target gpu)) checkpoint (infer_fn w))
    with (infer_load E (mkFrames [] (target gpu)) checkpoint (infer_fn w)) in *.
  destruct (infer_load E (mkFrames [] (target gpu)) checkpoint (infer_fn w))
    as [a' done] eqn:Hload.
  assert (a' = a) as -> by (subst a; unfold model_in_use; by rewrite Hload).
  set (x := model_call E (attr_model a) (to (mkFrames item.1 cpu) (target gpu))).
  set (w1 := mkWorld (Some a) (events w ++ done) (tensors w ++ [x]) (disk w)).
  assert (Hx : tensors w1 !! length (tensors w) = Some x).
  { subst w1. simpl. rewrite lookup_app_r by lia. by rewrite Nat.sub_diag. }
  pose proof (postprocess_strategies (length (tensors w)) fmin fmax w1 x Hx) as Hpost.
  pose proof (postprocess_world E (length (tensors w)) fmin fmax w1 x Hx) as Hpw.
  destruct (postprocess E (length (tensors w)) fmin fmax w1) as [[r|e] w2];
    simpl in *; subst w2; split; try done.
  - unfold model_in_use. subst w1. cbn [infer_fn].
    destruct (infer_load_key E (mkFrames [] (target gpu)) checkpoint (infer_fn w))
      as [K1 K2].
    rewrite Hload in K1, K2. simpl in K1, K2.
    by rewrite infer_load_hit.
  - unfold model_in_use. subst w1. cbn [infer_fn].
    destruct (infer_load_key E (mkFrames [] (target gpu)) checkpoint (infer_fn w))
      as [K1 K2].
    rewrite Hload in K1, K2. simpl in K1, K2.
    by rewrite infer_load_hit.
Qed.

End BatchRuns.

Lemma windowwise_nil {A} (G : list (list Z) -> list A) : windowwise G -> G [] = [].
Proof.
  intros HG. pose proof (HG [] []) as H. simpl in H.
  apply (f_equal length) in H. rewrite length_app in H.
  destruct (G []); simpl in *; [done|lia].
Qed.

Lemma windowwise_concat {A} (G : list (list Z) -> list A) (l : list (list (list Z))) :
  windowwise G -> G (concat l) = concat (map G l).
Proof.
  intros HG. induction l as [|a l IH]; simpl; [by apply windowwise_nil|].
  by rewrite HG, IH.
Qed.

Lemma masked_app (E : penn_env) fmin fmax (x y : Logits) :
  masked E fmin fmax (x ++ y) = masked E fmin fmax x ++ masked E fmin fmax y.
Proof. unfold masked, fill_bins. by rewrite !map_app. Qed.

Lemma padding_fits_even (E : penn_env) (samples hop : Z) :
  0 <= samples -> 0 < hop <= WINDOW_SIZE E ->
  Z.even (WINDOW_SIZE E - hop) = true ->
  padding_fits E samples hop.
Proof.
  intros Hs Hh Heven. unfold padding_fits.
  apply Z.even_spec in Heven as [k Hk]. rewrite Hk.
  replace (2 * k) with (k * 2) by lia. rewrite Z.quot_mul by lia.
  pose proof (Z.mul_div_le samples hop ltac:(lia)).
  split; [lia|]. right. nia.
Qed.

Section BatchInvariance.

Context (E : penn_env).

Local Abbreviation World := (world (Model E)).

Lemma preprocess_at_model_rate audio sample_rate hopsize batch_size :
  preprocess E audio sample_rate hopsize batch_size =
  preprocess E (at_model_rate E audio sample_rate) (SAMPLE_RATE E) hopsize batch_size.
Proof.
  unfold preprocess, preprocess_setup, at_model_rate.
  destruct (decide (SAMPLE_RATE E <> SAMPLE_RATE E)); [done|]. reflexivity.
Qed.

Lemma for_each_body_run fmin fmax checkpoint gpu items (w : World) :
  (for_each E items (from_audio_body E fmin fmax checkpoint gpu) w).1 =
  collect (map (fun item =>
                  batch_result E (attr_model (model_in_use E (target gpu) checkpoint w))
                               (target gpu) fmin fmax item.1) items).
Proof.
  revert w. induction items as [|item items IH]; intros w; simpl; [done|].
  unfold bind.
  destruct (from_audio_body_run E fmin fmax checkpoint gpu item w) as [Hr Hm].
  simpl in Hr, Hm.
  destruct (from_audio_body E fmin fmax checkpoint gpu item w) as [[y|e] w1];
    simpl in Hr, Hm; rewrite <- Hr; [|done].
  specialize (IH w1). rewrite Hm in IH.
  destruct (for_each E items (from_audio_body E fmin fmax checkpoint gpu) w1)
    as [[ys|e] w2]; simpl in IH; rewrite <- IH; reflexivity.
Qed.

Lemma from_audio_loop audio sample_rate hopsize fmin fmax checkpoint batch_size gpu :
  from_audio E audio sample_rate hopsize fmin fmax checkpoint batch_size gpu =
  (let g := preprocess E audio sample_rate hopsize batch_size in
   results <- for_each E (yielded g) (from_audio_body E fmin fmax checkpoint gpu) ;;
   match raised g with
   | Some e => raise E e
   | None =>
       pitch <- lift E (torch.cat (torch_cat_error E) (map fst results)) ;;
       periodicity <- lift E (torch.cat (torch_cat_error E) (map snd results)) ;;
       ret E (pitch, periodicity)
   end).
Proof. reflexivity. Qed.

(** The result of [from_audio], from the batches [preprocess] yields. *)
Lemma from_audio_result audio sample_rate hopsize fmin fmax checkpoint batch_size gpu
    (w : World) :
  let g := preprocess E audio sample_rate hopsize batch_size in
  let m := attr_model (model_in_use E (target gpu) checkpoint w) in
  (from_audio E audio sample_rate hopsize fmin fmax checkpoint batch_size gpu w).1 =
  res_bind (collect (map (fun item => batch_result E m (target gpu) fmin fmax item.1)
                         (yielded g)))
    (fun results =>
       match raised g with
       | Some e => Raise e
       | None =>
           res_bind (torch.cat (torch_cat_error E) (map fst results)) (fun pitch =>
           res_bind (torch.cat (torch_cat_error E) (map snd results)) (fun periodicity =>
           Ok (pitch, periodicity)))
       end).
Proof.
  intros g m. rewrite from_audio_loop. cbv zeta. fold g.
  unfold bind.
  pose proof (for_each_body_run fmin fmax checkpoint gpu (yielded g) w) as Hloop.
  fold m in Hloop.
  destruct (for_each E (yielded g) (from_audio_body E fmin fmax checkpoint gpu) w)
    as [[results|e] w1]; simpl in Hloop; rewrite <- Hloop; simpl; [|done].
  destruct (raised g); [done|].
  unfold lift. destruct (torch.cat (torch_cat_error E) (map fst results)); simpl; [|done].
  destruct (torch.cat (torch_cat_error E) (map snd results)); done.
Qed.

(** With window-wise strategies, decoding batch by batch and joining the
    rows gives what decoding all the windows at once gives. *)
Lemma batches_result (m : Model E) (d : Device) (fmin fmax : Q)
    (items : list (list (list Z) * Z)) :
  forward_windowwise E -> strategies_framewise E ->
  items <> [] ->
  res_bind (collect (map (fun item => batch_result E m d fmin fmax item.1) items))
    (fun results =>
       res_bind (torch.cat (torch_cat_error E) (map fst results)) (fun pitch =>
       res_bind (torch.cat (torch_cat_error E) (map snd results)) (fun periodicity =>
       Ok (pitch, periodicity)))) =
  batch_result E m d fmin fmax (concat (map fst items)).
Proof.
  intros Hfwd Hstrat Hne. unfold batch_result.
  destruct (strategies E) as [[fp fr]|e] eqn:Hs; simpl.
  - destruct (Hstrat fp fr Hs) as [Hfp Hfr].
    set (F := fun ws : list (list Z) =>
                (fp (masked E fmin fmax (model_call E m (mkFrames ws d))),
                 fr (masked E fmin fmax (model_call E m (mkFrames ws d))))).
    assert (Hcollect : collect (map (fun item : list (list Z) * Z => Ok (F item.1)) items)
                       = Ok (map (fun item => F item.1) items)).
    { clear. induction items as [|item items IH]; simpl; [done|]. by rewrite IH. }
    change (fun item : list (list Z) * Z => Ok _)
      with (fun item : list (list Z) * Z => Ok (F item.1)).
    rewrite Hcollect. simpl.
    assert (HG1 : windowwise (fun ws => (F ws).1)).
    { intros a b. simpl. by rewrite Hfwd, masked_app, Hfp. }
    assert (HG2 : windowwise (fun ws => (F ws).2)).
    { intros a b. simpl. by rewrite Hfwd, masked_app, Hfr. }
    rewrite !map_map.
    destruct items as [|item items]; [done|].
    unfold torch.cat.
    change (map (fun x => (F x.1).1) (item :: items))
      with ((F item.1).1 :: map (fun x => (F x.1).1) items).
    change (map (fun x => (F x.1).2) (item :: items))
      with ((F item.1).2 :: map (fun x => (F x.1).2) items).
    simpl res_bind.
    pose proof (windowwise_concat (fun ws => (F ws).1) (map fst (item :: items)) HG1)
      as H1.
    pose proof (windowwise_concat (fun ws => (F ws).2) (map fst (item :: items)) HG2)
      as H2.
    rewrite map_map in H1, H2. simpl in H1, H2. simpl. by rewrite H1, H2.
  - destruct items as [|item items]; [done|]. reflexivity.
Qed.

(** Under the stated assumptions the result of [from_audio] is the same
    for every positive batch size. *)
Lemma from_audio_any_batch_size
    (audio : list Z) (sample_rate : Z) (hopsize fmin fmax : Q) (checkpoint : Path)
    (gpu : option Z) (w : World) (size size' : Z) :
  let H := seconds_to_samples E hopsize in
  let S := Z.of_nat (length (at_model_rate E audio sample_rate)) in
  0 < H -> 0 < WINDOW_SIZE E -> padding_fits E S H ->
  forward_windowwise E -> strategies_framewise E ->
  0 < size -> 0 < size' ->
  (from_audio E audio sample_rate hopsize fmin fmax checkpoint (Some size) gpu w).1 =
  (from_audio E audio sample_rate hopsize fmin fmax checkpoint (Some size') gpu w).1.
Proof.
  intros H S HH HW Hfits Hfwd Hstrat Hs Hs'.
  unfold padding_fits in Hfits. cbv zeta in Hfits. destruct Hfits as [Hpad Hfit].
  assert (Hq : Z.quot S H = S / H) by (apply Z.quot_div_nonneg; lia).
  assert (Htotal : 0 <= S / H) by (apply Z.div_pos; lia).
  pose proof (preprocess_batches E (at_model_rate E audio sample_rate) hopsize (Some size))
    as P1.
  pose proof (preprocess_batches E (at_model_rate E audio sample_rate) hopsize (Some size'))
    as P2.
  cbv zeta in P1, P2. fold H S in P1, P2. rewrite Hq in P1, P2.
  destruct (P1 HH HW Hs Hpad Hfit) as (padded & Hp & Hg).
  destruct (P2 HH HW Hs' Hpad Hfit) as (padded' & Hp' & Hg').
  assert (padded' = padded) as -> by congruence.
  clear P1 P2.
  rewrite !from_audio_result. cbv zeta.
  rewrite (preprocess_at_model_rate audio sample_rate hopsize (Some size)),
          (preprocess_at_model_rate audio sample_rate hopsize (Some size')).
  rewrite Hg, Hg'. simpl yielded. simpl raised.
  pose proof (range_len_batches (S / H) size Htotal Hs) as Hn. cbv zeta in Hn.
  pose proof (range_len_batches (S / H) size' Htotal Hs') as Hn'. cbv zeta in Hn'.
  destruct (decide (S / H = 0)) as [Hz|Hnz].
  - replace (py.range_len 0 (S / H) size) with 0 by nia.
    replace (py.range_len 0 (S / H) size') with 0 by nia. reflexivity.
  - rewrite !batches_result; try done.
    + by rewrite !batch_items_concat.
    + destruct (Z.to_nat (py.range_len 0 (S / H) size')) eqn:Hk; [lia|done].
    + destruct (Z.to_nat (py.range_len 0 (S / H) size)) eqn:Hk; [lia|done].
Qed.

(** C6 (amended). When the configured decoder and periodicity strategies
    decode every frame on its own (as argmax, average and weighted do, and
    viterbi does not), the forward pass scores every window on its own, and
    the padded audio reaches the end of the last window, [from_audio] with
    a batch size that splits the frames into two batches of sizes [B1] and
    [B2] returns the same result as [from_audio] with the frames in one
    batch of size [B1 + B2]. *)
Theorem from_audio_two_batches_as_one
    (audio : list Z) (sample_rate : Z) (hopsize fmin fmax : Q) (checkpoint : Path)
    (gpu : option Z) (w : World) (B1 B2 : Z) :
  let H := seconds_to_samples E hopsize in
  let S := Z.of_nat (length (at_model_rate E audio sample_rate)) in
  0 < H -> 0 < WINDOW_SIZE E -> padding_fits E S H ->
  forward_windowwise E -> strategies_framewise E ->
  S / H = B1 + B2 -> 0 < B2 <= B1 ->
  map snd (yielded (preprocess E audio sample_rate hopsize (Some B1))) = [B1; B2] /\
  map snd (yielded (preprocess E audio sample_rate hopsize (Some (B1 + B2)))) =
    [B1 + B2] /\
  (from_audio E audio sample_rate hopsize fmin fmax checkpoint (Some B1) gpu w).1 =
  (from_audio E audio sample_rate hopsize fmin fmax checkpoint (Some (B1 + B2)) gpu w).1.
Proof.
  intros H S HH HW Hfits Hfwd Hstrat Htotal HB.
  split; [|split]; [| |apply from_audio_any_batch_size; try done; lia].
  - unfold padding_fits in Hfits. cbv zeta in Hfits. destruct Hfits as [Hpad Hfit].
    assert (Hq : Z.quot S H = B1 + B2).
    { rewrite <- Htotal. apply Z.quot_div_nonneg; lia. }
    rewrite Htotal in Hfit.
    pose proof (preprocess_batches E (at_model_rate E audio sample_rate) hopsize (Some B1))
      as P. cbv zeta in P. fold H S in P. rewrite Hq in P.
    destruct (P HH HW ltac:(lia) Hpad Hfit) as (padded & Hp & Hg).
    rewrite preprocess_at_model_rate, Hg. simpl yielded.
    assert (Hn : py.range_len 0 (B1 + B2) B1 = 2).
    { unfold py.range_len. destruct (0 <? B1) eqn:E1; [|lia].
      destruct (0 <? B1 + B2) eqn:E2; [|lia].
      replace (B1 + B2 - 0 - 1) with (1 * B1 + (B2 - 1)) by lia.
      rewrite Z.div_add_l by lia. rewrite Z.div_small by lia. lia. }
    rewrite Hn. simpl. f_equal; [lia|]. f_equal. lia.
  - unfold padding_fits in Hfits. cbv zeta in Hfits. destruct Hfits as [Hpad Hfit].
    assert (Hq : Z.quot S H = B1 + B2).
    { rewrite <- Htotal. apply Z.quot_div_nonneg; lia. }
    rewrite Htotal in Hfit.
    pose proof (preprocess_batches E (at_model_rate E audio sample_rate) hopsize
                  (Some (B1 + B2)))
      as P. cbv zeta in P. fold H S in P. rewrite Hq in P.
    destruct (P HH HW ltac:(lia) Hpad Hfit) as (padded & Hp & Hg).
    rewrite preprocess_at_model_rate, Hg. simpl yielded.
    assert (Hn : py.range_len 0 (B1 + B2) (B1 + B2) = 1).
    { unfold py.range_len. destruct (0 <? B1 + B2) eqn:E1; [|lia].
      replace (B1 + B2 - 0 - 1) with (B1 + B2 - 1) by lia.
      rewrite Z.div_small by lia. lia. }
    rewrite Hn. simpl. f_equal. lia.
Qed.

End BatchInvariance.

(** Two frames whose best bins are 0 and 1 when each is decoded alone; over
    both frames the path staying in bin 1 avoids the jump and wins.  Decoded
    in two batches the pitch is 100, 200 Hz; in one batch it is 200, 200 Hz. *)
Lemma viterbi_depends_on_batching :
  ~ batch_split_invariant (example.env 8 4 "viterbi" "max" (fun _ => [])).
Proof.
  intros Hclaim.
  specialize (Hclaim [-1; 0; 10; 0] 8 (1 # 4)%Q (100 # 1)%Q (300 # 1)%Q
                     (mkPath false ["penn.pt"]) None (fresh_world _) 1 1
                     eq_refl eq_refl).
  vm_compute in Hclaim. discriminate Hclaim.
Qed.

(** ** The properties on concrete inputs *)

Lemma example_forward_windowwise sample_rate window_size decoder periodicity storage :
  forward_windowwise
    (example.env sample_rate window_size decoder periodicity storage).
Proof. intros m d a b. simpl. unfold example.forward. simpl. apply map_app. Qed.

Lemma spec_argmax_framewise (bins_to_frequency : nat -> Q) :
  framewise (fun x => (spec_argmax bins_to_frequency x).2).
Proof. intros x y. unfold spec_argmax. simpl. by rewrite !map_app. Qed.

Lemma example_confidence_framewise : framewise example.confidence.
Proof. intros x y. unfold example.confidence. apply map_app. Qed.

Lemma example_argmax_framewise sample_rate window_size storage :
  strategies_framewise (example.env sample_rate window_size "argmax" "max" storage).
Proof.
  intros pitch periodicity Hs. vm_compute in Hs. injection Hs as <- <-.
  split; [apply (spec_argmax_framewise example.bins_to_frequency)|].
  apply example_confidence_framewise.
Qed.

Lemma from_audio_two_batches_as_one_witness :
  let E := example.env 8 4 "argmax" "max" (fun _ => []) in
  (from_audio E [-1; 0; 10; 0] 8 (1 # 4) (100 # 1) (300 # 1)
              (mkPath false ["penn.pt"]) (Some 1) None (fresh_world _)).1 =
  (from_audio E [-1; 0; 10; 0] 8 (1 # 4) (100 # 1) (300 # 1)
              (mkPath false ["penn.pt"]) (Some (1 + 1)) None (fresh_world _)).1.
Proof.
  intros E.
  apply (from_audio_two_batches_as_one E [-1; 0; 10; 0] 8 (1 # 4) (100 # 1) (300 # 1)
           (mkPath false ["penn.pt"]) None (fresh_world _) 1 1).
  - reflexivity.
  - reflexivity.
  - vm_compute. split; [discriminate|]. right. discriminate.
  - apply example_forward_windowwise.
  - apply example_argmax_framewise.
  - reflexivity.
  - lia.
Defined.

Lemma postprocess_masks_in_place_witness :
  let E := released "argmax" "entropy" in
  exists x',
    tensors (postprocess E 0 (200 # 1) (300 # 1) (one_tensor E)).2 !! 0%nat = Some x' /\
    (forall f b t,
        entry x' f b t =
        (fun s => if (b <? 1)%nat || (2 <=? b)%nat then NegInf else s)
          <$> entry [[[Fin 5]; [Fin 1]; [Fin 7]]] f b t) /\
    (forall other, other <> 0%nat ->
       tensors (postprocess E 0 (200 # 1) (300 # 1) (one_tensor E)).2 !! other =
       tensors (one_tensor E) !! other).
Proof.
  intros E.
  exact (postprocess_masks_in_place E (one_tensor E) 0 [[[Fin 5]; [Fin 1]; [Fin 7]]]
           (200 # 1) (300 # 1) eq_refl).
Defined.

Lemma postprocess_unknown_strategy_witness :
  let E := released "crepe" "entropy" in
  exists kind name,
    (postprocess E 0 (50 # 1) (500 # 1) (one_tensor E)).1 =
      Raise (ValueError (kind +:+ name +:+ " is not defined")) /\
    ((kind = "Decoder method " /\ name = "crepe" /\
      recognized_decoder name = false) \/
     (kind = "Periodicity method " /\ name = "entropy" /\
      recognized_decoder "crepe" = true /\
      recognized_periodicity name = false)).
Proof.
  intros E.
  exact (postprocess_unknown_strategy E (one_tensor E) 0 [[[Fin 5]; [Fin 1]; [Fin 7]]]
           (50 # 1) (500 # 1) eq_refl (or_introl eq_refl)).
Defined.





(** * Further properties of the pipeline *)

(** ** Layout and content of the batches of [preprocess] *)

Section BatchLayout.

Context (E : penn_env).

(** X1. When the padded audio reaches the end of the last window,
    [preprocess] with a positive batch size yields [ceil(total / size)]
    batches and ends normally; batch [k] starts at frame [k * size], holds
    [min(total - k * size, size)] frames, as many as the size it is yielded
    with, and every batch but the last holds exactly [size] frames. *)
Theorem preprocess_batch_layout
    (audio : list Z) (sample_rate : Z) (hopsize : Q) (size : Z) :
  let H := seconds_to_samples E hopsize in
  let S := Z.of_nat (length (at_model_rate E audio sample_rate)) in
  let total := S / H in
  let p := Z.quot (WINDOW_SIZE E - H) 2 in
  let g := preprocess E audio sample_rate hopsize (Some size) in
  0 < H -> 0 < WINDOW_SIZE E -> 0 < size -> padding_fits E S H ->
  raised g = None /\
  Z.of_nat (length (yielded g)) = (total + size - 1) / size /\
  forall (k : nat) (item : list (list Z) * Z),
    yielded g !! k = Some item ->
    item.2 = Z.min (total - Z.of_nat k * size) size /\
    Z.of_nat (length item.1) = item.2 /\
    (Z.of_nat k + 1 < Z.of_nat (length (yielded g)) -> item.2 = size) /\
    exists padded,
      torch.pad (at_model_rate E audio sample_rate) p p = Ok padded /\
      item.1 = map (frame_window padded H (WINDOW_SIZE E))
                   (seq (Z.to_nat (Z.of_nat k * size)) (Z.to_nat item.2)).
Proof.
  intros H S total p g HH HW Hsize Hfits.
  unfold padding_fits in Hfits. cbv zeta in Hfits. destruct Hfits as [Hpad Hfit].
  assert (HS : 0 <= S) by (subst S; lia).
  assert (Hq : Z.quot S H = total) by (apply Z.quot_div_nonneg; lia).
  assert (Htotal : 0 <= total) by (apply Z.div_pos; lia).
  pose proof (preprocess_batches E (at_model_rate E audio sample_rate) hopsize (Some size))
    as P. cbv zeta in P. fold H S in P. rewrite Hq in P. fold p in P.
  destruct (P HH HW Hsize Hpad Hfit) as (padded & Hp & Hg). clear P.
  subst g. rewrite preprocess_at_model_rate, Hg. simpl yielded. simpl raised.
  pose proof (range_len_batches total size Htotal Hsize) as Hn. cbv zeta in Hn.
  set (n := py.range_len 0 total size) in *.
  assert (Hcount : n = (total + size - 1) / size).
  { destruct Hn as [[-> ->]|[Hn0 Hn1]].
    - symmetry. apply Z.div_small. lia.
    - apply (Z.div_unique_pos _ _ _ (total + size - 1 - n * size)); nia. }
  rewrite length_map, length_seq.
  split; [done|]. split; [lia|].
  intros k item Hk. rewrite map_fmap, list_lookup_fmap in Hk.
  destruct (seq 0 (Z.to_nat n) !! k) as [k'|] eqn:Hseq; simpl in Hk; [|done].
  apply lookup_seq in Hseq as [-> Hlt]. injection Hk as <-. simpl.
  split; [done|]. split; [|split].
  - rewrite length_map, length_seq. nia.
  - intros Hnotlast. nia.
  - exists padded. done.
Qed.

Lemma pad_nonneg (audio : list Z) (p : Z) :
  0 <= p ->
  torch.pad audio p p =
  Ok (replicate (Z.to_nat p) 0 ++ audio ++ replicate (Z.to_nat p) 0).
Proof.
  intros Hp. unfold torch.pad.
  destruct (Z.ltb_spec (Z.of_nat (length audio) + p + p) 0) as [Hlt|_]; [lia|].
  destruct (Z.leb_spec 0 p) as [_|Hlt]; [|lia]. by rewrite <- app_assoc.
Qed.

Lemma padded_lookup (audio : list Z) (p i : nat) :
  (i < p + length audio + p)%nat ->
  (replicate p 0 ++ audio ++ replicate p 0) !! i =
  Some (sample_at audio (Z.of_nat i - Z.of_nat p)).
Proof.
  intros Hi. unfold sample_at.
  destruct (decide (i < p)%nat) as [Hlt|Hge].
  - rewrite lookup_app_l by (rewrite length_replicate; lia).
    rewrite lookup_replicate_2 by lia.
    destruct (0 <=? Z.of_nat i - Z.of_nat p) eqn:E1; [lia|]. done.
  - rewrite lookup_app_r by (rewrite length_replicate; lia).
    rewrite length_replicate.
    destruct (0 <=? Z.of_nat i - Z.of_nat p) eqn:E1; [|lia]. simpl.
    replace (Z.to_nat (Z.of_nat i - Z.of_nat p)) with (i - p)%nat by lia.
    destruct (decide (i - p < length audio)%nat) as [Hin|Hout].
    + rewrite lookup_app_l by lia.
      destruct (Z.of_nat i - Z.of_nat p <? Z.of_nat (length audio)) eqn:E2; [|lia].
      destruct (audio !! (i - p)%nat) as [s|] eqn:Hs.
      * f_equal. symmetry. apply nth_lookup_Some with (d := 0) in Hs. done.
      * apply lookup_ge_None in Hs. lia.
    + rewrite lookup_app_r by lia.
      rewrite lookup_replicate_2 by lia.
      destruct (Z.of_nat i - Z.of_nat p <? Z.of_nat (length audio)) eqn:E2; [lia|].
      done.
Qed.

(** X2. Frames are centered by the padding: when the hop is positive and
    at most the window, the batch size is positive (the default is the
    number of frames) and the padded audio reaches the end of the last
    window, the batches put end to end hold [total] windows of exactly
    [WINDOW_SIZE] samples, and sample [o] of the window of frame [j] is
    the audio sample at [j * H + o - padding], or zero where that falls
    outside the audio. *)
Theorem preprocess_windows_are_centered
    (audio : list Z) (sample_rate : Z) (hopsize : Q) (batch_size : option Z) :
  let H := seconds_to_samples E hopsize in
  let x := at_model_rate E audio sample_rate in
  let S := Z.of_nat (length x) in
  let total := S / H in
  let p := Z.quot (WINDOW_SIZE E - H) 2 in
  let size := match batch_size with None => total | Some b => b end in
  let frames := concat (map fst (yielded (preprocess E audio sample_rate hopsize
                                                     batch_size))) in
  0 < H <= WINDOW_SIZE E -> 0 < size -> padding_fits E S H ->
  Z.of_nat (length frames) = total /\
  forall (j : nat) (window : list Z),
    frames !! j = Some window ->
    Z.of_nat (length window) = WINDOW_SIZE E /\
    forall o : nat,
      Z.of_nat o < WINDOW_SIZE E ->
      window !! o = Some (sample_at x (Z.of_nat j * H + Z.of_nat o - p)).
Proof.
  intros H x S total p size frames HH Hsize Hfits.
  unfold padding_fits in Hfits. cbv zeta in Hfits. destruct Hfits as [Hpad Hfit].
  assert (HS : 0 <= S) by (subst S; lia).
  assert (Hp0 : 0 <= p) by (subst p; apply Z.quot_pos; lia).
  assert (Htotal : 0 <= total) by (apply Z.div_pos; lia).
  pose proof (preprocess_frames_when_padding_fits E x hopsize batch_size) as P.
  cbv zeta in P. fold H S total p size in P.
  destruct (P ltac:(lia) ltac:(lia) Hsize Hpad Hfit)
    as (_ & _ & (padded & Hpadded & Hconcat) & _). clear P.
  subst frames. rewrite preprocess_at_model_rate. fold x. rewrite Hconcat.
  rewrite pad_nonneg in Hpadded by done. injection Hpadded as <-.
  rewrite length_map, length_seq. split; [lia|].
  intros j window Hj. rewrite map_fmap, list_lookup_fmap in Hj.
  destruct (seq 0 (Z.to_nat total) !! j) as [j'|] eqn:Hseq; simpl in Hj; [|done].
  apply lookup_seq in Hseq as [-> Hlt]. injection Hj as <-. simpl in *.
  assert (Hend : Z.of_nat j * H + WINDOW_SIZE E <= S + 2 * p).
  { destruct Hfit as [Hz|Hfit]; [lia|]. nia. }
  unfold frame_window. split.
  - rewrite length_take, length_drop, !length_app, !length_replicate.
    fold x. subst S. nia.
  - intros o Ho. rewrite lookup_take_lt by lia. rewrite lookup_drop.
    rewrite padded_lookup.
    + f_equal. f_equal. nia.
    + fold x. subst S. nia.
Qed.

End BatchLayout.

(** ** Degenerate hop and batch sizes *)

Section DegenerateSizes.

Context (E : penn_env).


Lemma preprocess_zero_batch (audio : list Z) (hopsize : Q) :
  let H := seconds_to_samples E hopsize in
  let S := Z.of_nat (length audio) in
  H <> 0 -> 0 <= S + 2 * Z.quot (WINDOW_SIZE E - H) 2 ->
  preprocess E audio (SAMPLE_RATE E) hopsize (Some 0) =
    Gen [] (Some (ValueError "range() arg 3 must not be zero")).
Proof.
  intros H S HH Hpad.
  unfold preprocess, preprocess_setup.
  destruct (decide (SAMPLE_RATE E <> SAMPLE_RATE E)); [done|].
  unfold py.int_truediv. fold H S.
  destruct (Z.eqb_spec H 0) as [?|_]; [done|]. simpl.
  destruct (pad_length audio _ Hpad) as (padded & -> & _).
  reflexivity.
Qed.

Lemma preprocess_no_frames_default (audio : list Z) (hopsize : Q) :
  let H := seconds_to_samples E hopsize in
  let S := Z.of_nat (length audio) in
  S < H -> 0 <= S + 2 * Z.quot (WINDOW_SIZE E - H) 2 ->
  preprocess E audio (SAMPLE_RATE E) hopsize None =
    Gen [] (Some (ValueError "range() arg 3 must not be zero")).
Proof.
  intros H S Hshort Hpad.
  assert (HS : 0 <= S) by (subst S; lia).
  unfold preprocess, preprocess_setup.
  destruct (decide (SAMPLE_RATE E <> SAMPLE_RATE E)); [done|].
  unfold py.int_truediv. fold H S.
  destruct (Z.eqb_spec H 0) as [?|_]; [lia|]. simpl.
  rewrite (Z.quot_small S H) by lia.
  destruct (pad_length audio _ Hpad) as (padded & -> & _). reflexivity.
Qed.

(** X3. A hop that converts to zero samples makes [preprocess] end with a
    division error, and an explicit batch size of zero makes it end with
    the value error of [range], in both cases before anything is yielded
    and however many frames the audio has. *)
Theorem preprocess_zero_hop_or_batch_raises
    (audio : list Z) (sample_rate : Z) (hopsize : Q) (batch_size : option Z) :
  let H := seconds_to_samples E hopsize in
  let S := Z.of_nat (length (at_model_rate E audio sample_rate)) in
  (H = 0 ->
   exists msg,
     preprocess E audio sample_rate hopsize batch_size =
       Gen [] (Some (ZeroDivisionError msg))) /\
  (H <> 0 -> 0 <= S + 2 * Z.quot (WINDOW_SIZE E - H) 2 ->
   preprocess E audio sample_rate hopsize (Some 0) =
     Gen [] (Some (ValueError "range() arg 3 must not be zero"))).
Proof.
  intros H S. split.
  - intros HH. eexists. rewrite preprocess_at_model_rate.
    unfold preprocess, preprocess_setup.
    destruct (decide (SAMPLE_RATE E <> SAMPLE_RATE E)); [done|].
    unfold py.int_truediv. fold H. rewrite HH. reflexivity.
  - intros HH Hpad. rewrite preprocess_at_model_rate.
    by apply preprocess_zero_batch.
Qed.

(** X4. A negative batch size is not rejected: [range(0, total, size)] is
    empty, so [preprocess] yields nothing and ends normally, whatever the
    number of frames of the audio. *)
Theorem preprocess_negative_batch_yields_nothing
    (audio : list Z) (sample_rate : Z) (hopsize : Q) (size : Z) :
  let H := seconds_to_samples E hopsize in
  let S := Z.of_nat (length (at_model_rate E audio sample_rate)) in
  0 < H -> 0 <= S + 2 * Z.quot (WINDOW_SIZE E - H) 2 -> size < 0 ->
  preprocess E audio sample_rate hopsize (Some size) = Gen [] None.
Proof.
  intros H S HH Hpad Hsize. rewrite preprocess_at_model_rate.
  unfold preprocess, preprocess_setup.
  destruct (decide (SAMPLE_RATE E <> SAMPLE_RATE E)); [done|].
  unfold py.int_truediv. fold H S.
  destruct (Z.eqb_spec H 0) as [?|_]; [lia|]. simpl.
  destruct (pad_length (at_model_rate E audio sample_rate) _ Hpad)
    as (padded & -> & _). simpl.
  unfold py.range. destruct (Z.eqb_spec size 0) as [?|_]; [lia|]. simpl.
  assert (Htotal : 0 <= Z.quot S H) by (apply Z.quot_pos; subst S; lia).
  unfold py.range_len.
  destruct (Z.ltb_spec 0 size) as [?|_]; [lia|].
  destruct (Z.ltb_spec (Z.quot S H) 0) as [?|_]; [lia|]. reflexivity.
Qed.

Lemma from_audio_without_batches
    audio sample_rate hopsize fmin fmax checkpoint batch_size gpu
    (w : world (Model E)) (ending : option exn) :
  preprocess E audio sample_rate hopsize batch_size = Gen [] ending ->
  from_audio E audio sample_rate hopsize fmin fmax checkpoint batch_size gpu w =
  (Raise (match ending with
          | Some e => e
          | None => torch_cat_error E
          end), w).
Proof.
  intros Hg. unfold from_audio. rewrite Hg. unfold bind. simpl.
  destruct ending; reflexivity.
Qed.

(** X5. [from_audio] has no result for audio that, at the model sample
    rate, is shorter than one hop, when the padding does not crop more
    than the audio holds: with the default batch size or a batch size of
    zero it raises the value error of [range], with any other batch size
    the exception [torch.cat] raises for an empty list of tensors.  In
    both cases nothing has been done: no model is loaded and the world is
    as before. *)
Theorem from_audio_short_audio_raises
    (audio : list Z) (sample_rate : Z) (hopsize fmin fmax : Q) (checkpoint : Path)
    (batch_size gpu : option Z) (w : world (Model E)) :
  let H := seconds_to_samples E hopsize in
  let S := Z.of_nat (length (at_model_rate E audio sample_rate)) in
  S < H -> 0 <= S + 2 * Z.quot (WINDOW_SIZE E - H) 2 ->
  from_audio E audio sample_rate hopsize fmin fmax checkpoint batch_size gpu w =
  (Raise (match batch_size with
          | None | Some 0 => ValueError "range() arg 3 must not be zero"
          | Some _ => torch_cat_error E
          end), w).
Proof.
  intros H S Hshort Hpad.
  destruct batch_size as [b|].
  - destruct (decide (b = 0)) as [->|Hb].
    + apply (from_audio_without_batches _ _ _ _ _ _ _ _ _ (Some _)).
      rewrite preprocess_at_model_rate.
      apply preprocess_zero_batch; [|done]. fold H. subst S. lia.
    + rewrite (from_audio_without_batches _ _ _ _ _ _ _ _ _ None).
      * destruct b; done.
      * rewrite preprocess_at_model_rate.
        by apply preprocess_short_audio_explicit_batch.
  - apply (from_audio_without_batches _ _ _ _ _ _ _ _ _ (Some _)).
    rewrite preprocess_at_model_rate.
    by apply preprocess_no_frames_default.
Qed.

End DegenerateSizes.

(** ** What [from_audio] does to the process *)

Section FromAudioEffects.

Context (E : penn_env).

Local Abbreviation World := (world (Model E)).

Lemma from_audio_body_world fmin fmax checkpoint gpu item (w : World) :
  let frames := mkFrames item.1 (target gpu) in
  let load := infer_load E frames checkpoint (infer_fn w) in
  let x := model_call E (attr_model load.1) frames in
  (from_audio_body E fmin fmax checkpoint gpu item w).2 =
  mkWorld (Some load.1) (events w ++ load.2)
          (<[length (tensors w) := masked E fmin fmax x]> (tensors w ++ [x]))
          (disk w).
Proof.
  intros frames load x. unfold from_audio_body, bind. fold (target gpu).
  change (to (mkFrames item.1 cpu) (target gpu)) with frames.
  pose proof (infer_world E frames checkpoint w) as Hw.
  unfold infer in *. fold load in Hw |- *.
  destruct load as [a done] eqn:Hload. simpl in *. fold x.
  set (w1 := mkWorld (Some a) (events w ++ done) (tensors w ++ [x]) (disk w)).
  assert (Hx : tensors w1 !! length (tensors w) = Some x).
  { subst w1. simpl. rewrite lookup_app_r by lia. by rewrite Nat.sub_diag. }
  pose proof (postprocess_world E (length (tensors w)) fmin fmax w1 x Hx) as Hpw.
  destruct (postprocess E (length (tensors w)) fmin fmax w1) as [[r|e] w2];
    simpl in *; subst w2; reflexivity.
Qed.

Lemma infer_load_frames frames frames' checkpoint cached :
  device frames = device frames' ->
  infer_load E frames checkpoint cached = infer_load E frames' checkpoint cached.
Proof. intros Hd. unfold infer_load. by rewrite Hd. Qed.

(** After a batch, a further batch on the same device finds the cache. *)
Lemma infer_load_again frames frames' checkpoint cached :
  device frames = device frames' ->
  infer_load E frames' checkpoint
             (Some (infer_load E frames checkpoint cached).1) =
  ((infer_load E frames checkpoint cached).1, []).
Proof.
  intros Hd. destruct (infer_load_key E frames checkpoint cached) as [K1 K2].
  apply infer_load_hit; [done|]. by rewrite <- Hd.
Qed.

Lemma for_each_body_effects fmin fmax checkpoint gpu items (w : World) :
  let load := infer_load E (mkFrames [] (target gpu)) checkpoint (infer_fn w) in
  let w' := (for_each E items (from_audio_body E fmin fmax checkpoint gpu) w).2 in
  disk w' = disk w /\
  match items with
  | [] => w' = w
  | _ :: _ => infer_fn w' = Some load.1 /\ events w' = events w ++ load.2
  end.
Proof.
  revert w. induction items as [|item items IH]; intros w load w'; [done|].
  subst w'. simpl. unfold bind.
  pose proof (from_audio_body_world fmin fmax checkpoint gpu item w) as Hw.
  cbv zeta in Hw.
  rewrite (infer_load_frames (mkFrames item.1 (target gpu)) (mkFrames [] (target gpu)))
    in Hw by done.
  fold load in Hw.
  destruct (from_audio_body E fmin fmax checkpoint gpu item w) as [[y|e] w1];
    cbn [snd] in Hw; subst w1; [|done].
  match goal with
  | |- context [for_each E items _ ?w1] => specialize (IH w1)
  end.
  cbv zeta in IH. cbn [infer_fn events disk] in IH. subst load.
  rewrite (infer_load_again (mkFrames [] (target gpu)) (mkFrames [] (target gpu)))
    in IH by done.
  cbn [fst snd] in IH. rewrite app_nil_r in IH.
  destruct (for_each E items (from_audio_body E fmin fmax checkpoint gpu) _)
    as [[ys|e] w2]; cbn [snd] in *; destruct IH as [Hd IH];
    (split; [done|]); destruct items as [|i2 items]; try done;
    by rewrite IH.
Qed.

Lemma from_audio_world audio sample_rate hopsize fmin fmax checkpoint batch_size gpu
    (w : World) :
  (from_audio E audio sample_rate hopsize fmin fmax checkpoint batch_size gpu w).2 =
  (for_each E (yielded (preprocess E audio sample_rate hopsize batch_size))
            (from_audio_body E fmin fmax checkpoint gpu) w).2.
Proof.
  rewrite from_audio_loop. cbv zeta. unfold bind.
  destruct (for_each E _ (from_audio_body E fmin fmax checkpoint gpu) w)
    as [[results|e] w1]; simpl; [|done].
  destruct (raised _); simpl; [done|].
  unfold lift. destruct (torch.cat (torch_cat_error E) (map fst results)); simpl; [|done].
  destruct (torch.cat (torch_cat_error E) (map snd results)); done.
Qed.

(** X6. [from_audio] loads the checkpoint at most once, however many
    batches it runs.  With no batch the process state is untouched.  With
    at least one batch: if the cache of [infer] already holds the
    checkpoint on the target device type, nothing is loaded or moved;
    otherwise there is exactly one load and one move; either way the
    cache holds the checkpoint on the target device type afterwards.  No
    file is written in any case. *)
Theorem from_audio_loads_at_most_once
    (audio : list Z) (sample_rate : Z) (hopsize fmin fmax : Q) (checkpoint : Path)
    (batch_size gpu : option Z) (w : World) :
  let g := preprocess E audio sample_rate hopsize batch_size in
  let w' := (from_audio E audio sample_rate hopsize fmin fmax checkpoint
                        batch_size gpu w).2 in
  disk w' = disk w /\
  (yielded g = [] -> w' = w) /\
  (yielded g <> [] ->
   cached_for checkpoint (target gpu) w' /\
   (cached_for checkpoint (target gpu) w -> events w' = events w) /\
   (~ cached_for checkpoint (target gpu) w ->
    events w' = events w ++ [LoadCheckpoint checkpoint; MoveModel (target gpu)])).
Proof.
  intros g w'. subst w'. rewrite from_audio_world. fold g.
  pose proof (for_each_body_effects fmin fmax checkpoint gpu (yielded g) w) as P.
  cbv zeta in P. destruct P as [Hdisk Hrun].
  set (w' := (for_each E (yielded g) (from_audio_body E fmin fmax checkpoint gpu) w).2)
    in *.
  pose proof (infer_load_key E (mkFrames [] (target gpu)) checkpoint (infer_fn w))
    as [K1 K2].
  split; [done|]. destruct (yielded g) as [|item items].
  - rewrite Hrun. split; [done|]. done.
  - destruct Hrun as [Hfn Hev]. split; [done|]. intros _. split; [|split].
    + eexists. split; [exact Hfn|]. done.
    + intros (a & Ha & Hc & Hd). rewrite Hev, Ha.
      rewrite infer_load_hit by done. simpl. by rewrite app_nil_r.
    + intros Hnot. rewrite Hev. unfold infer_load.
      destruct (infer_fn w) as [a|] eqn:Ha; [|done].
      destruct (bool_decide (attr_checkpoint a <> checkpoint)) eqn:Hc; [done|].
      destruct (bool_decide (attr_device_type a
                             <> device_type (device (mkFrames [] (target gpu)))))
        eqn:Hd; [done|].
      exfalso. apply Hnot. exists a. split; [done|].
      apply bool_decide_eq_false_1 in Hc, Hd.
      split; [by destruct (decide (attr_checkpoint a = checkpoint))|].
      by destruct (decide (attr_device_type a = device_type (target gpu))).
Qed.

End FromAudioEffects.

(** ** What [from_audio] returns *)

Section FromAudioResult.

Context (E : penn_env).

Local Abbreviation World := (world (Model E)).

Lemma strategies_recognized :
  recognized_decoder (DECODER E) = true ->
  recognized_periodicity (PERIODICITY E) = true ->
  exists pitch periodicity, strategies E = Ok (pitch, periodicity).
Proof.
  unfold recognized_decoder, recognized_periodicity, strategies.
  intros Hd Hp.
  destruct (String.eqb (DECODER E) "argmax");
    [|destruct (String.eqb (DECODER E) "average");
      [|destruct (String.prefix "viterbi" (DECODER E));
        [|destruct (String.eqb (DECODER E) "weighted"); [|done]]]];
  (destruct (String.eqb (PERIODICITY E) "entropy");
    [|destruct (String.eqb (PERIODICITY E) "max");
      [|destruct (String.eqb (PERIODICITY E) "sum"); [|done]]]);
  simpl; eauto.
Qed.

Lemma strategies_unrecognized :
  recognized_decoder (DECODER E) = false \/
  recognized_periodicity (PERIODICITY E) = false ->
  strategies E =
  Raise (ValueError
    (if recognized_decoder (DECODER E)
     then "Periodicity method " +:+ PERIODICITY E +:+ " is not defined"
     else "Decoder method " +:+ DECODER E +:+ " is not defined")).
Proof.
  unfold recognized_decoder, recognized_periodicity, strategies.
  intros Hbad.
  destruct (String.eqb (DECODER E) "argmax");
    [|destruct (String.eqb (DECODER E) "average");
      [|destruct (String.prefix "viterbi" (DECODER E));
        [|destruct (String.eqb (DECODER E) "weighted")]]];
  simpl in *; try reflexivity;
  (destruct (String.eqb (PERIODICITY E) "entropy");
    [|destruct (String.eqb (PERIODICITY E) "max");
      [|destruct (String.eqb (PERIODICITY E) "sum")]]);
  simpl in *; try reflexivity; destruct Hbad; done.
Qed.

Lemma masked_length fmin fmax (x : Logits) :
  length (masked E fmin fmax x) = length x.
Proof. unfold masked, fill_bins. by rewrite !length_map. Qed.

Lemma collect_ok {A B} (f : A -> B) (items : list A) :
  collect (map (fun item => Ok (f item)) items) = Ok (map f items).
Proof. induction items as [|item items IH]; simpl; [done|]. by rewrite IH. Qed.

Lemma length_concat_map {A B} (f : A -> list B) (g : A -> nat) (items : list A) :
  (forall item, length (f item) = g item) ->
  length (concat (map f items)) = foldr (fun item n => (g item + n)%nat) 0%nat items.
Proof.
  intros Hf. induction items as [|item items IH]; simpl; [done|].
  by rewrite length_app, Hf, IH.
Qed.

(** X7. When the forward pass returns one frame of logits per window, the
    configured strategies are recognized and return one value per frame,
    the window is positive and the padded audio reaches the end of the
    last window, [from_audio] on audio of at least one (positive) hop
    returns a pitch row and a periodicity row of [floor(S / H)] values
    each, for every positive batch size and for the default. *)
Theorem from_audio_returns_one_value_per_frame
    (audio : list Z) (sample_rate : Z) (hopsize fmin fmax : Q) (checkpoint : Path)
    (batch_size gpu : option Z) (w : World) :
  let H := seconds_to_samples E hopsize in
  let S := Z.of_nat (length (at_model_rate E audio sample_rate)) in
  let total := S / H in
  let size := match batch_size with None => total | Some b => b end in
  0 < H <= S -> 0 < WINDOW_SIZE E -> 0 < size -> padding_fits E S H ->
  one_frame_per_window E -> one_value_per_frame E ->
  recognized_decoder (DECODER E) = true ->
  recognized_periodicity (PERIODICITY E) = true ->
  exists pitch periodicity,
    (from_audio E audio sample_rate hopsize fmin fmax checkpoint batch_size gpu w).1 =
      Ok (pitch, periodicity) /\
    Z.of_nat (length pitch) = total /\
    Z.of_nat (length periodicity) = total.
Proof.
  intros H S total size HH HW Hsize Hfits Hfwd Hval Hd Hp.
  unfold padding_fits in Hfits. cbv zeta in Hfits. destruct Hfits as [Hpad Hfit].
  fold total in Hfit.
  assert (Hq : Z.quot S H = total) by (apply Z.quot_div_nonneg; lia).
  assert (Htotal : 1 <= total).
  { subst total. apply Z.div_le_lower_bound; lia. }
  pose proof (preprocess_batches E (at_model_rate E audio sample_rate) hopsize batch_size)
    as P. cbv zeta in P. fold H S in P. rewrite Hq in P. fold size in P.
  destruct (P ltac:(lia) HW Hsize Hpad Hfit) as (padded & Hpadded & Hg). clear P.
  destruct (strategies_recognized Hd Hp) as (fp & fr & Hs).
  rewrite from_audio_result. cbv zeta.
  rewrite (preprocess_at_model_rate E audio sample_rate hopsize batch_size), Hg.
  simpl yielded. simpl raised.
  set (items := map (batch_item E padded H total size)
                    (seq 0 (Z.to_nat (py.range_len 0 total size)))).
  set (m := attr_model (model_in_use E (target gpu) checkpoint w)).
  set (F := fun item : list (list Z) * Z =>
              (fp (masked E fmin fmax (model_call E m (mkFrames item.1 (target gpu)))),
               fr (masked E fmin fmax (model_call E m (mkFrames item.1 (target gpu)))))).
  assert (Hbatch : forall item : list (list Z) * Z,
             batch_result E m (target gpu) fmin fmax item.1 = Ok (F item)).
  { intros item. unfold batch_result. rewrite Hs. reflexivity. }
  rewrite (map_ext _ (fun item => Ok (F item)) Hbatch), collect_ok. simpl.
  assert (Hne : items <> []).
  { subst items. pose proof (range_len_batches total size ltac:(lia) Hsize) as Hn.
    cbv zeta in Hn.
    destruct (Z.to_nat (py.range_len 0 total size)) eqn:Hk; [lia|done]. }
  assert (Hframes : length (concat (map fst items)) = Z.to_nat total).
  { subst items. rewrite batch_items_concat by lia.
    by rewrite length_map, length_seq. }
  rewrite (length_concat_map fst (fun item => length item.1)) in Hframes by done.
  destruct (map F items) as [|r rs] eqn:HF.
  { destruct items; [done|discriminate]. }
  rewrite <- HF. clear r rs HF. rewrite !map_map.
  destruct items as [|i0 items0] eqn:Hitems; [done|]. rewrite <- Hitems in *.
  assert (Hcat : forall (rows : list (list Q)),
             rows <> [] -> torch.cat (torch_cat_error E) rows = Ok (concat rows)).
  { intros [|r rs]; done. }
  rewrite !Hcat by (rewrite Hitems; done). simpl.
  eexists _, _. split; [reflexivity|].
  rewrite (length_concat_map _ (fun item => length item.1)).
  2:{ intros item. simpl. destruct (Hval fp fr Hs (masked E fmin fmax
          (model_call E m (mkFrames item.1 (target gpu))))) as [-> _].
      by rewrite masked_length, Hfwd. }
  rewrite (length_concat_map _ (fun item => length item.1)).
  2:{ intros item. simpl. destruct (Hval fp fr Hs (masked E fmin fmax
          (model_call E m (mkFrames item.1 (target gpu))))) as [_ ->].
      by rewrite masked_length, Hfwd. }
  rewrite Hframes. lia.
Qed.

(** X8. An unrecognized strategy name is found out late.  On audio of at
    least one (positive) hop, with a positive window, a positive batch
    size (or the default) and a padded audio that reaches the end of the
    last window, [from_audio] raises the value error that names the
    identifier only after the checkpoint is in the cache of [infer] and
    the first batch has been inferred (one logits tensor more than
    before); no further batch is inferred. *)
Theorem from_audio_unknown_strategy_after_first_batch
    (audio : list Z) (sample_rate : Z) (hopsize fmin fmax : Q) (checkpoint : Path)
    (batch_size gpu : option Z) (w : World) :
  let H := seconds_to_samples E hopsize in
  let S := Z.of_nat (length (at_model_rate E audio sample_rate)) in
  let total := S / H in
  let size := match batch_size with None => total | Some b => b end in
  let run := from_audio E audio sample_rate hopsize fmin fmax checkpoint
                        batch_size gpu w in
  0 < H <= S -> 0 < WINDOW_SIZE E -> 0 < size -> padding_fits E S H ->
  recognized_decoder (DECODER E) = false \/
  recognized_periodicity (PERIODICITY E) = false ->
  run.1 = Raise (ValueError
            (if recognized_decoder (DECODER E)
             then "Periodicity method " +:+ PERIODICITY E +:+ " is not defined"
             else "Decoder method " +:+ DECODER E +:+ " is not defined")) /\
  length (tensors run.2) = (length (tensors w) + 1)%nat /\
  cached_for checkpoint (target gpu) run.2.
Proof.
  intros H S total size run HH HW Hsize Hfits Hbad.
  unfold padding_fits in Hfits. cbv zeta in Hfits. destruct Hfits as [Hpad Hfit].
  fold total in Hfit.
  assert (Hq : Z.quot S H = total) by (apply Z.quot_div_nonneg; lia).
  assert (Htotal : 1 <= total).
  { subst total. apply Z.div_le_lower_bound; lia. }
  pose proof (preprocess_batches E (at_model_rate E audio sample_rate) hopsize batch_size)
    as P. cbv zeta in P. fold H S in P. rewrite Hq in P. fold size in P.
  destruct (P ltac:(lia) HW Hsize Hpad Hfit) as (padded & Hpadded & Hg). clear P.
  pose proof (strategies_unrecognized Hbad) as Hs.
  assert (Hitems : exists item items,
             map (batch_item E padded H total size)
                 (seq 0 (Z.to_nat (py.range_len 0 total size))) = item :: items).
  { pose proof (range_len_batches total size ltac:(lia) Hsize) as Hn.
    cbv zeta in Hn.
    destruct (Z.to_nat (py.range_len 0 total size)) eqn:Hk; [lia|].
    simpl. eauto. }
  destruct Hitems as (item & items & Hitems).
  assert (Hbody :
    (from_audio_body E fmin fmax checkpoint gpu item w).1 =
    Raise (ValueError
            (if recognized_decoder (DECODER E)
             then "Periodicity method " +:+ PERIODICITY E +:+ " is not defined"
             else "Decoder method " +:+ DECODER E +:+ " is not defined"))).
  { destruct (from_audio_body_run E fmin fmax checkpoint gpu item w) as [-> _].
    unfold batch_result. rewrite Hs. reflexivity. }
  pose proof (from_audio_body_world E fmin fmax checkpoint gpu item w) as Hw.
  cbv zeta in Hw.
  subst run. split; [|split].
  - rewrite from_audio_result. cbv zeta.
    rewrite (preprocess_at_model_rate E audio sample_rate hopsize batch_size), Hg.
    simpl yielded. rewrite Hitems. simpl.
    unfold batch_result at 1. rewrite Hs. reflexivity.
  - rewrite from_audio_world.
    rewrite (preprocess_at_model_rate E audio sample_rate hopsize batch_size), Hg.
    simpl yielded. rewrite Hitems. simpl. unfold bind.
    destruct (from_audio_body E fmin fmax checkpoint gpu item w) as [[y|e] w1];
      simpl in Hbody, Hw; [done|]. simpl. rewrite Hw. simpl.
    rewrite length_insert, length_app. simpl. lia.
  - rewrite from_audio_world.
    rewrite (preprocess_at_model_rate E audio sample_rate hopsize batch_size), Hg.
    simpl yielded. rewrite Hitems. simpl. unfold bind.
    destruct (from_audio_body E fmin fmax checkpoint gpu item w) as [[y|e] w1];
      cbn [fst snd] in Hbody, Hw; [done|]. cbn [snd]. rewrite Hw.
    eexists. split; [reflexivity|].
    apply (infer_load_key E (mkFrames item.1 (target gpu)) checkpoint (infer_fn w)).
Qed.

End FromAudioResult.

(** ** Files written by [from_file_to_file] and [from_files_to_files] *)

Lemma zip_app {A B} (xs xs' : list A) (ys ys' : list B) :
  length xs = length ys ->
  py.zip (xs ++ xs') (ys ++ ys') = py.zip xs ys ++ py.zip xs' ys'.
Proof.
  revert ys. induction xs as [|x xs IH]; intros [|y ys] Hlen; simpl in *; try done.
  by rewrite IH by lia.
Qed.

Section SavedFiles.

Context (E : penn_env).

Local Abbreviation World := (world (Model E)).

Lemma for_each_app_raise {A B} (body : A -> M E B) (xs zs : list A) (x : A)
    (ys : list B) (e : exn) (w w1 w2 : World) :
  for_each E xs body w = (Ok ys, w1) ->
  body x w1 = (Raise e, w2) ->
  for_each E (xs ++ x :: zs) body w = (Raise e, w2).
Proof.
  revert ys w. induction xs as [|x0 xs IH]; intros ys w Hxs Hx; simpl in *.
  - injection Hxs as <- <-. unfold bind. by rewrite Hx.
  - unfold bind in *. destruct (body x0 w) as [[y0|e0] w0]; [|done].
    destruct (for_each E xs body w0) as [[ys0|e0] w0'] eqn:Hrest; [|done].
    injection Hxs as <- <-. by rewrite (IH ys0 w0 Hrest Hx).
Qed.

(** The disk after [from_file_to_file]: as before, or with the pitch file,
    or with both files. *)
Lemma from_file_to_file_disk file output_prefix hopsize fmin fmax checkpoint
    batch_size gpu (w : World) :
  let prefix := pathlib.str (prefix_in_use file output_prefix) in
  let pitch_file := prefix +:+ "-pitch.pt" in
  let periodicity_file := prefix +:+ "-periodicity.pt" in
  let run := from_file_to_file E file output_prefix hopsize fmin fmax checkpoint
                               batch_size gpu w in
  (exists e, run.1 = Raise e /\ disk run.2 = disk w) \/
  (exists e pitch,
     run.1 = Raise e /\
     torch_save_error E periodicity_file (<[pitch_file := pitch]> (disk w)) = Some e /\
     disk run.2 = <[pitch_file := pitch]> (disk w)) \/
  (exists pitch periodicity w1,
     from_file E file hopsize fmin fmax checkpoint batch_size gpu w =
       (Ok (pitch, periodicity), w1) /\
     run.1 = Ok tt /\
     disk run.2 = <[periodicity_file := periodicity]>
                    (<[pitch_file := pitch]> (disk w))).
Proof.
  intros prefix pitch_file periodicity_file run.
  destruct (from_file E file hopsize fmin fmax checkpoint batch_size gpu w)
    as [[[pitch periodicity]|e] w1] eqn:Hinfer.
  - pose proof (from_file_to_file_saves E file output_prefix hopsize fmin fmax
                  checkpoint batch_size gpu w w1 pitch periodicity Hinfer) as Hrun.
    cbv zeta in Hrun. fold prefix pitch_file periodicity_file run in Hrun.
    destruct (torch_save_error E pitch_file (disk w)) as [e|].
    { left. exists e. rewrite Hrun. split; [done|]. cbn.
      change w1 with (Ok (pitch, periodicity), w1).2. rewrite <- Hinfer.
      apply from_file_disk. }
    destruct (torch_save_error E periodicity_file _) as [e|] eqn:Hsecond;
      rewrite Hrun.
    + right. left. by exists e, pitch.
    + right. right. by exists pitch, periodicity, w1.
  - left. exists e. subst run. unfold from_file_to_file, bind. rewrite Hinfer. cbn.
    split; [done|]. change w1 with (@Raise (list Q * list Q) e, w1).2.
    rewrite <- Hinfer. apply from_file_disk.
Qed.


(** X10. A file that fails aborts the rest of the list: when the files
    before it are processed and [from_file_to_file] raises on it,
    [from_files_to_files] ends with that exception in the state reached
    there, whatever files follow. *)
Theorem from_files_to_files_stops_at_first_failure
    (before after : list Path) (file : Path) (hopsize fmin fmax : Q)
    (checkpoint : Path) (batch_size gpu : option Z) (e : exn) (w w1 w2 : World) :
  from_files_to_files E before None hopsize fmin fmax checkpoint batch_size gpu w =
    (Ok tt, w1) ->
  from_file_to_file E file None hopsize fmin fmax checkpoint batch_size gpu w1 =
    (Raise e, w2) ->
  from_files_to_files E (before ++ file :: after) None hopsize fmin fmax checkpoint
                      batch_size gpu w = (Raise e, w2).
Proof.
  unfold from_files_to_files. rewrite !zip_replicate_r.
  intros Hbefore Hfile. unfold bind in *.
  destruct (for_each E (map (fun x => (x, None)) before) _ w) as [[ys|e0] w0] eqn:Hrun;
    [|done].
  injection Hbefore as <-.
  rewrite map_app. simpl.
  by rewrite (for_each_app_raise _ _ _ (file, None) ys e w w0 w2 Hrun Hfile).
Qed.

(** X11. The default output names depend on the directory and the stem of
    the input only: two inputs that differ in their suffix alone share
    them, and after both are processed the disk holds the two files of the
    second and nothing of the first. *)
Theorem from_files_to_files_same_stem_overwrites
    (first second : Path) (hopsize fmin fmax : Q) (checkpoint : Path)
    (batch_size gpu : option Z) (w w' : World) :
  pathlib.parent first = pathlib.parent second ->
  pathlib.stem first = pathlib.stem second ->
  from_files_to_files E [first; second] None hopsize fmin fmax checkpoint
                      batch_size gpu w = (Ok tt, w') ->
  let prefix :=
    pathlib.str (pathlib.truediv (pathlib.parent first) (pathlib.stem first)) in
  exists w1 pitch periodicity,
    (from_file_to_file E first None hopsize fmin fmax checkpoint batch_size gpu w).2
      = w1 /\
    (from_file E second hopsize fmin fmax checkpoint batch_size gpu w1).1 =
      Ok (pitch, periodicity) /\
    disk w' = <[prefix +:+ "-periodicity.pt" := periodicity]>
                (<[prefix +:+ "-pitch.pt" := pitch]> (disk w)).
Proof.
  intros Hparent Hstem Hrun prefix.
  unfold from_files_to_files in Hrun. simpl in Hrun. unfold bind in Hrun.
  pose proof (from_file_to_file_disk first None hopsize fmin fmax checkpoint
                batch_size gpu w) as P1. cbv zeta in P1. unfold prefix_in_use in P1.
  fold prefix in P1.
  destruct (from_file_to_file E first None hopsize fmin fmax checkpoint batch_size gpu w)
    as [[[]|e1] w1] eqn:H1; [|done].
  pose proof (from_file_to_file_disk second None hopsize fmin fmax checkpoint
                batch_size gpu w1) as P2. cbv zeta in P2. unfold prefix_in_use in P2.
  rewrite <- Hparent, <- Hstem in P2. fold prefix in P2.
  destruct (from_file_to_file E second None hopsize fmin fmax checkpoint batch_size gpu w1)
    as [[[]|e2] w2] eqn:H2; [|done].
  injection Hrun as <-.
  destruct P1 as [(e & ? & _)|[(e & ? & ? & _)|(p1 & q1 & ? & _ & _ & D1)]];
    [done|done|].
  destruct P2 as [(e & ? & _)|[(e & ? & ? & _)|(pitch & periodicity & w1' & Hsecond
                                                 & _ & D2)]]; [done|done|].
  exists w1, pitch, periodicity. split; [done|]. split; [by rewrite Hsecond|].
  cbn [snd] in D1, D2. rewrite D2, D1. clearbody prefix.
  assert (Hne : prefix +:+ "-pitch.pt" <> prefix +:+ "-periodicity.pt").
  { intros Heq. apply append_inj_r in Heq. discriminate. }
  apply map_eq. intros name.
  rewrite !lookup_insert. repeat case_decide; congruence.
Qed.

End SavedFiles.

(** ** Default output names *)

Lemma rfind_dot_none_offset (s : string) (i j : nat) :
  pathlib.rfind_dot s i = None -> pathlib.rfind_dot s j = None.
Proof.
  revert i j. induction s as [|c s IH]; intros i j; simpl; [done|].
  destruct (pathlib.rfind_dot s (S i)) eqn:Hi; [done|].
  rewrite (IH (S i) (S j) Hi). destruct (Ascii.eqb c "."); done.
Qed.

Lemma rfind_dot_suffix (s e : string) (i : nat) :
  no_dot e ->
  pathlib.rfind_dot (s +:+ "." +:+ e) i = Some (i + String.length s)%nat.
Proof.
  intros He. revert i. induction s as [|c s IH]; intros i; simpl.
  - change ("" +:+ e) with e.
    rewrite (rfind_dot_none_offset e 0 (S i) He). f_equal. lia.
  - rewrite (IH (S i)). f_equal. lia.
Qed.

Lemma string_length_app (s t : string) :
  String.length (s +:+ t) = (String.length s + String.length t)%nat.
Proof. induction s as [|c s IH]; simpl; [done|]. by rewrite IH. Qed.

Lemma substring_prefix (s t : string) :
  String.substring 0 (String.length s) (s +:+ t) = s.
Proof.
  induction s as [|c s IH]; simpl.
  - by destruct t.
  - by rewrite IH.
Qed.

(** The stem of [<stem>.<ext>] is [<stem>], for a non-empty stem and a
    non-empty extension without a dot. *)
Lemma stem_of_name (absolute : bool) (dirs : list string) (s e : string) :
  s <> EmptyString -> e <> EmptyString -> no_dot e ->
  pathlib.stem (mkPath absolute (dirs ++ [s +:+ "." +:+ e])) = s.
Proof.
  intros Hs He Hdot. unfold pathlib.stem, pathlib.name. simpl.
  rewrite last_last, rfind_dot_suffix by done. simpl.
  rewrite string_length_app. simpl. change ("" +:+ e) with e.
  assert (0 < String.length s)%nat by (destruct s; [done|simpl; lia]).
  assert (0 < String.length e)%nat by (destruct e; [done|simpl; lia]).
  destruct (Nat.ltb_spec 0 (String.length s)) as [_|?]; [|lia].
  destruct (Nat.ltb_spec (String.length s)
              (String.length s + S (String.length e) - 1)) as [_|?]; [|lia].
  simpl. apply substring_prefix.
Qed.

(** Joining a single component appends it. *)
Lemma truediv_single (p : Path) (s : string) :
  single_component s ->
  pathlib.truediv p s = mkPath (absolute p) (parts p ++ [s]).
Proof.
  intros (Hs & Hdot & Hsplit). unfold pathlib.truediv, pathlib.components.
  rewrite Hsplit. rewrite filter_cons, filter_nil.
  destruct (decide (s <> EmptyString /\ s <> ".")) as [_|Hno]; [|by destruct Hno].
  destruct s as [|c s']; [done|]. cbn [String.prefix].
  destruct (Ascii.ascii_dec "/" c) as [<-|_]; [|done].
  cbn in Hsplit. discriminate Hsplit.
Qed.

Section DefaultNames.

Context (E : penn_env).

(** X12. Without an output prefix, the prefix of an input named
    [<dirs>/<stem>.<ext>] is [<dirs>/<stem>], for a stem that is a single
    component of a path (not empty, not a single dot, without a slash)
    and a non-empty extension without a dot: only the last suffix of the
    name is replaced.  A run that returns has saved
    [<dirs>/<stem>-pitch.pt] and then [<dirs>/<stem>-periodicity.pt], with
    the pitch and the periodicity of the input. *)
Theorem from_file_to_file_default_names
    (absolute : bool) (dirs : list string) (stem ext : string)
    (hopsize fmin fmax : Q) (checkpoint : Path) (batch_size gpu : option Z)
    (w w' : world (Model E)) :
  let file := mkPath absolute (dirs ++ [stem +:+ "." +:+ ext]) in
  let prefix := pathlib.str (mkPath absolute (dirs ++ [stem])) in
  single_component stem -> ext <> EmptyString -> no_dot ext ->
  from_file_to_file E file None hopsize fmin fmax checkpoint batch_size gpu w =
    (Ok tt, w') ->
  prefix_in_use file None = mkPath absolute (dirs ++ [stem]) /\
  exists w1 pitch periodicity,
    from_file E file hopsize fmin fmax checkpoint batch_size gpu w =
      (Ok (pitch, periodicity), w1) /\
    events w' = events w1 ++ [Save (prefix +:+ "-pitch.pt");
                              Save (prefix +:+ "-periodicity.pt")] /\
    disk w' = <[prefix +:+ "-periodicity.pt" := periodicity]>
                (<[prefix +:+ "-pitch.pt" := pitch]> (disk w)).
Proof.
  intros file prefix Hstem He Hdot Hrun.
  assert (Hprefix : prefix_in_use file None = mkPath absolute (dirs ++ [stem])).
  { unfold prefix_in_use. subst file.
    rewrite stem_of_name by (done || by destruct Hstem).
    rewrite truediv_single by done.
    unfold pathlib.parent. cbn. by rewrite removelast_last. }
  split; [exact Hprefix|].
  destruct (from_file E file hopsize fmin fmax checkpoint batch_size gpu w)
    as [[[pitch periodicity]|e] w1] eqn:Hinfer.
  - pose proof (from_file_to_file_saves E file None hopsize fmin fmax checkpoint
                  batch_size gpu w w1 pitch periodicity Hinfer) as Hsaves.
    cbv zeta in Hsaves. rewrite Hprefix in Hsaves. fold prefix in Hsaves.
    rewrite Hrun in Hsaves.
    destruct (torch_save_error E _ (disk w)); [done|].
    destruct (torch_save_error E _ _); [done|].
    injection Hsaves as ->. by exists w1, pitch, periodicity.
  - unfold from_file_to_file, bind in Hrun. by rewrite Hinfer in Hrun.
Qed.

End DefaultNames.

(** ** Weights used by [infer], and masking twice *)

Section InferWeights.

Context (E : penn_env).

Lemma infer_keeps_coherent frames checkpoint (w : world (Model E)) :
  cache_coherent E w -> cache_coherent E (infer E frames checkpoint w).2.
Proof.
  intros Hw. rewrite infer_world. unfold cache_coherent in *. simpl.
  unfold infer_load. destruct (infer_fn w) as [a|]; simpl.
  - destruct (_ || _); simpl; [|done]. by exists (device frames).
  - by exists (device frames).
Qed.

Lemma run_calls_coherent calls (w : world (Model E)) :
  cache_coherent E w -> cache_coherent E (run_calls E calls w).
Proof.
  revert w. induction calls as [|c calls IH]; intros w Hw; simpl; [done|].
  apply IH. by apply infer_keeps_coherent.
Qed.

(** X13. [infer] never answers with the weights of another checkpoint: in
    a process that started fresh, after any sequence of calls, the logits a
    call returns are those of the model loaded from the checkpoint of this
    call and placed on a device of the type of its frames (the device of
    the frames at the last reload), whether the call reloads or reuses the
    cache. *)
Theorem infer_uses_requested_checkpoint
    (calls : list (Frames * Path)) (frames : Frames) (checkpoint : Path) :
  let w := run_calls E calls (fresh_world (Model E)) in
  let run := infer E frames checkpoint w in
  exists d : Device,
    device_type d = device_type (device frames) /\
    run.1 = Ok (length (tensors w)) /\
    tensors run.2 =
      tensors w ++
        [model_call E
           (model_to E (checkpoint_load E checkpoint (new_model E)) d) frames].
Proof.
  intros w run.
  assert (Hco : cache_coherent E run.2).
  { apply infer_keeps_coherent, run_calls_coherent. done. }
  subst run. rewrite infer_world in Hco |- *.
  unfold cache_coherent in Hco. simpl in Hco. destruct Hco as (d & Hd & Hm).
  destruct (infer_load_key E frames checkpoint (infer_fn w)) as [K1 K2].
  rewrite K1 in Hm. rewrite K2 in Hd.
  exists d. split; [done|]. split.
  - unfold infer. by destruct (infer_load E frames checkpoint (infer_fn w)).
  - simpl. by rewrite Hm.
Qed.

End InferWeights.

Lemma imap_compose {A B C} (f : nat -> B -> C) (g : nat -> A -> B) (l : list A) :
  imap f (imap g l) = imap (fun i x => f i (g i x)) l.
Proof.
  revert f g. induction l as [|x l IH]; intros f g; simpl; [done|].
  f_equal. apply IH.
Qed.

Lemma fill_bins_twice (sel sel' : nat -> bool) (x : Logits) :
  fill_bins sel (fill_bins sel' x) = fill_bins (fun b => sel b || sel' b) x.
Proof.
  unfold fill_bins. rewrite map_map. apply map_ext. intros frame.
  rewrite imap_compose. apply imap_ext. intros b row _.
  destruct (sel b), (sel' b); simpl; try done. by rewrite map_map.
Qed.

Lemma fill_bins_ext (sel sel' : nat -> bool) (x : Logits) :
  (forall b, sel b = sel' b) -> fill_bins sel x = fill_bins sel' x.
Proof.
  intros Hsel. unfold fill_bins. apply map_ext. intros frame.
  apply imap_ext. intros b row _. by rewrite Hsel.
Qed.

Lemma masked_idempotent (E : penn_env) fmin fmax (x : Logits) :
  masked E fmin fmax (masked E fmin fmax x) = masked E fmin fmax x.
Proof.
  unfold masked. rewrite !fill_bins_twice. apply fill_bins_ext. intros b.
  destruct (_ <=? b)%nat, (b <? _)%nat; reflexivity.
Qed.

Section MaskingTwice.

Context (E : penn_env).

(** X14. Masking is idempotent: calling [postprocess] again on the tensor
    it has masked, with the same frequency range, returns the same result
    or raises the same exception and leaves every tensor as the first call
    left it. *)
Theorem postprocess_twice
    (w : world (Model E)) (logits : nat) (x : Logits) (fmin fmax : Q) :
  tensors w !! logits = Some x ->
  let first := postprocess E logits fmin fmax w in
  postprocess E logits fmin fmax first.2 = first.
Proof.
  intros Hx first.
  assert (Hfirst : first =
    ((postprocess E logits fmin fmax w).1,
     mkWorld (infer_fn w) (events w)
             (<[logits := masked E fmin fmax x]> (tensors w)) (disk w))).
  { subst first. rewrite <- (postprocess_world E logits fmin fmax w x Hx).
    by destruct (postprocess E logits fmin fmax w). }
  rewrite Hfirst. simpl.
  assert (Hx' : <[logits := masked E fmin fmax x]> (tensors w) !! logits =
                Some (masked E fmin fmax x)).
  { apply list_lookup_insert_eq. by eapply lookup_lt_Some. }
  unfold postprocess. simpl. rewrite Hx', Hx.
  fold (masked E fmin fmax (masked E fmin fmax x)). fold (masked E fmin fmax x).
  rewrite masked_idempotent, list_insert_insert_eq. reflexivity.
Qed.

(** X15. When [fmax] converts to a bin index that is not above the one of
    [fmin], the bin range is empty and [postprocess] leaves nothing but
    negative infinity in the tensor. *)
Theorem postprocess_empty_range_masks_everything
    (w : world (Model E)) (logits : nat) (x : Logits) (fmin fmax : Q) :
  tensors w !! logits = Some x ->
  (frequency_to_bins E fmax ceil <= frequency_to_bins E fmin floor)%nat ->
  exists x',
    tensors (postprocess E logits fmin fmax w).2 !! logits = Some x' /\
    forall f b t s, entry x' f b t = Some s -> s = NegInf.
Proof.
  intros Hx Hrange. rewrite (postprocess_world E _ _ _ _ _ Hx). simpl.
  exists (masked E fmin fmax x). split.
  - apply list_lookup_insert_eq. by eapply lookup_lt_Some.
  - intros f b t s. rewrite entry_masked.
    destruct (entry x f b t) as [s0|]; simpl; [|done].
    destruct (Nat.ltb_spec b (frequency_to_bins E fmin floor)) as [|Hge];
      simpl; [congruence|].
    destruct (Nat.leb_spec (frequency_to_bins E fmax ceil) b) as [|Hlt];
      simpl; [congruence|]. lia.
Qed.

End MaskingTwice.

(** * The context managers of penn/core.py *)

Lemma os_chdir_back (current : Path) (s : os_state) :
  absolute current = true -> current ∈ directories s ->
  os.chdir current s = (Returned tt, mkOs current (directories s)).
Proof.
  intros Habs Hin. unfold os.chdir, os.resolve. rewrite Habs.
  rewrite bool_decide_eq_true_2 by exact Hin. reflexivity.
Qed.


Section Chdir.

Context {A : Type}.
Variable directory : Path.
Variable body : os_state -> outcome A * os_state.
Variable s : os_state.
Hypothesis cwd_absolute : absolute (cwd s) = true.


(** X17.  When the directory does not exist, the body is not run: the
    block fails with the error of [os.chdir] and nothing has changed. *)
Theorem chdir_missing_directory_skips_body :
  os.resolve (cwd s) directory ∉ directories s ->
  cwd s ∈ directories s ->
  chdir directory body s
  = (Failed (FileNotFoundError (os.resolve (cwd s) directory)), s).
Proof using cwd_absolute.
  intros Hdir Hback. unfold chdir, os.getcwd.
  unfold os.chdir at 1. rewrite bool_decide_eq_false_2 by exact Hdir.
  rewrite (os_chdir_back _ _ cwd_absolute Hback). destruct s; reflexivity.
Qed.


End Chdir.

Section InferenceContext.

Context {A : Type}.
Variable parameters : list Device.
Variable body : torch_state -> res A * torch_state.
Variable s : torch_state.

(** X19.  For a model with a parameter, the body runs in evaluation mode
    with gradients off, and with autocast on when the first parameter is
    on a cuda device; the block returns or raises what the body does
    there.  When the body returns, the model is left in training mode,
    also when it was in evaluation mode before, and the gradient switch is
    back to what it was on every way out. *)
Theorem inference_context_runs_body_in_eval_mode (first : Device) :
  head parameters = Some first ->
  exists inside : torch_state,
    training inside = false /\ grad_enabled inside = false /\
    (device_type first = "cuda" -> autocast_enabled inside = true) /\
    (device_type first <> "cuda" -> autocast_enabled inside = autocast_enabled s) /\
    (inference_context parameters body s).1 = (body inside).1 /\
    grad_enabled (inference_context parameters body s).2 = grad_enabled s /\
    (forall a, (body inside).1 = Ok a ->
       training (inference_context parameters body s).2 = true).
Proof.
  destruct parameters as [|p ps]; [discriminate|]. intros [= ->].
  unfold inference_context. cbn [training grad_enabled autocast_enabled].
  destruct (String.eqb_spec (device_type first) "cuda") as [Hc|Hc].
  - exists (mkTorch false false true).
    destruct (body (mkTorch false false true)) as [[a|e] t]; cbn;
      repeat split; try done.
  - exists (mkTorch false false (autocast_enabled s)).
    destruct (body (mkTorch false false (autocast_enabled s))) as [[a|e] t]; cbn;
      repeat split; try done.
Qed.

(** X20.  When the body raises, the model is not put back into training
    mode: unless the body changed the mode itself, the model is left in
    evaluation mode, also when it was training before.  The gradient
    switch is restored all the same. *)
Theorem inference_context_exception_leaves_eval_mode (e : exn) :
  parameters <> [] ->
  (forall t, training (body t).2 = training t) ->
  (inference_context parameters body s).1 = Raise e ->
  training (inference_context parameters body s).2 = false /\
  grad_enabled (inference_context parameters body s).2 = grad_enabled s.
Proof.
  destruct parameters as [|p ps]; [done|]. intros _ Hmode.
  unfold inference_context. cbn [training grad_enabled autocast_enabled].
  destruct (String.eqb (device_type p) "cuda").
  - pose proof (Hmode (mkTorch false false true)) as Hm.
    destruct (body (mkTorch false false true)) as [[a|e'] t]; cbn in *; try done.
  - pose proof (Hmode (mkTorch false false (autocast_enabled s))) as Hm.
    destruct (body (mkTorch false false (autocast_enabled s))) as [[a|e'] t];
      cbn in *; try done.
Qed.

End InferenceContext.

(** * Evaluation: targets of the batches of a file *)

Lemma slice_take_drop {A} (row : list A) (s n : Z) :
  0 <= s -> 0 <= n -> s + n <= Z.of_nat (length row) ->
  py.slice row s (s + n) = take (Z.to_nat n) (drop (Z.to_nat s) row).
Proof.
  intros Hs Hn Hlen. unfold py.slice, py.adjust.
  destruct (Z.ltb_spec s 0) as [?|_]; [lia|].
  destruct (Z.ltb_spec (s + n) 0) as [?|_]; [lia|].
  rewrite !Z.min_l by lia. f_equal. lia.
Qed.

Lemma batch_targets_from {F A} (B : Z) (row : list A) (batches : list (F * Z)) :
  forall k : nat,
  (forall i item, batches !! i = Some item -> 0 <= item.2) ->
  (forall i item, batches !! i = Some item -> (S i < length batches)%nat ->
                  item.2 = B) ->
  k = 0%nat \/ 0 <= B ->
  Z.of_nat k * B + total_size batches <= Z.of_nat (length row) ->
  concat (imap (fun i item => evaluate.batch_targets B row (k + i) item.2) batches)
  = take (Z.to_nat (total_size batches)) (drop (Z.to_nat (Z.of_nat k * B)) row).
Proof.
  induction batches as [|item rest IH]; intros k Hpos Hfull Hk Hlen; [done|].
  cbn [imap concat total_size foldr] in *. fold (total_size rest) in *.
  assert (H0 : 0 <= item.2) by exact (Hpos 0%nat item eq_refl).
  assert (Hrest : 0 <= total_size rest).
  { clear -Hpos. assert (Hp : forall i it, rest !! i = Some it -> 0 <= it.2)
      by (intros i it Hi; exact (Hpos (S i) it Hi)).
    clear Hpos. induction rest as [|x r IHr]; cbn; [lia|].
    pose proof (Hp 0%nat x eq_refl).
    assert (0 <= total_size r)
      by (apply IHr; intros i it Hi; exact (Hp (S i) it Hi)).
    unfold total_size in *. lia. }
  assert (HkB : 0 <= Z.of_nat k * B) by (destruct Hk as [->|?]; nia).
  unfold evaluate.batch_targets at 1. rewrite Nat.add_0_r.
  rewrite slice_take_drop by lia.
  destruct rest as [|item' rest'].
  - cbn. rewrite app_nil_r. f_equal. lia.
  - assert (HB : item.2 = B) by (apply (Hfull 0%nat item eq_refl); simpl; lia).
    assert (HB0 : 0 <= B) by lia.
    rewrite (imap_ext _ (fun i it => evaluate.batch_targets B row (S k + i) it.2))
      by (intros i it _; simpl; f_equal; lia).
    rewrite (IH (S k)).
    + rewrite HB.
      replace (Z.to_nat (Z.of_nat (S k) * B))
        with (Z.to_nat (Z.of_nat k * B) + Z.to_nat B)%nat by nia.
      rewrite <- drop_drop, take_take_drop. f_equal. lia.
    + intros i it Hi. exact (Hpos (S i) it Hi).
    + intros i it Hi Hlt. apply (Hfull (S i) it Hi). simpl in *. lia.
    + by right.
    + rewrite HB in Hlen. lia.
Qed.

Lemma batch_prefix_size {F} (B : Z) (batches : list (F * Z)) :
  (forall i item, batches !! i = Some item -> 0 <= item.2) ->
  (forall i item, batches !! i = Some item -> (S i < length batches)%nat ->
                  item.2 = B) ->
  forall i item, batches !! i = Some item ->
    Z.of_nat i * B + item.2 <= total_size batches /\ (i = 0%nat \/ 0 <= B).
Proof.
  induction batches as [|first rest IH]; intros Hpos Hfull i item Hi; [done|].
  assert (Hrest : 0 <= total_size rest).
  { assert (Hp : forall i it, rest !! i = Some it -> 0 <= it.2)
      by (intros j it Hj; exact (Hpos (S j) it Hj)).
    clear -Hp. induction rest as [|x r IHr]; cbn; [lia|].
    pose proof (Hp 0%nat x eq_refl).
    assert (0 <= total_size r)
      by (apply IHr; intros i it Hi; exact (Hp (S i) it Hi)).
    unfold total_size in *. lia. }
  cbn [total_size foldr]. fold (total_size rest).
  destruct i as [|i].
  - injection Hi as ->. split; [lia|by left].
  - cbn in Hi.
    assert (HB : first.2 = B).
    { apply (Hfull 0%nat first eq_refl). simpl.
      apply lookup_lt_Some in Hi. lia. }
    pose proof (Hpos 0%nat first eq_refl) as H0.
    destruct (IH (fun j it Hj => Hpos (S j) it Hj)
                 (fun j it Hj Hlt => Hfull (S j) it Hj ltac:(simpl; lia)) i item Hi)
      as [Hsum _].
    split; [nia|right; lia].
Qed.

Section PitchQuality.

Context {F L A : Type}.
Variable EVALUATION_BATCH_SIZE : Z.
Variable infer : F -> L.

(** X21.  When every batch of a file but the last has
    EVALUATION_BATCH_SIZE frames, as with that batch size or with the
    single batch of the CPU path, the metric updates pair the logits of
    the batches, in order, with consecutive slices of a row of targets:
    each slice has as many columns as its batch has frames, and together
    the slices are the first columns of the row, one per frame. *)
Theorem metric_updates_cover_targets (batches : list (F * Z)) (row : list A) :
  (forall i item, batches !! i = Some item -> 0 <= item.2) ->
  (forall i item, batches !! i = Some item -> (S i < length batches)%nat ->
                  item.2 = EVALUATION_BATCH_SIZE) ->
  total_size batches <= Z.of_nat (length row) ->
  let updates := evaluate.metric_updates EVALUATION_BATCH_SIZE infer batches row in
  map fst updates = map (fun item => infer item.1) batches /\
  concat (map snd updates) = take (Z.to_nat (total_size batches)) row /\
  Forall2 (fun update item => Z.of_nat (length update.2) = item.2) updates batches.
Proof.
  intros Hpos Hfull Hlen updates. subst updates. unfold evaluate.metric_updates.
  split; [|split].
  - rewrite map_fmap, fmap_imap.
    rewrite (imap_ext _ (const (fun item : F * Z => infer item.1)))
      by (by intros i [f n] _).
    by rewrite imap_const.
  - rewrite map_fmap, fmap_imap.
    rewrite (imap_ext _ (fun i item =>
               evaluate.batch_targets EVALUATION_BATCH_SIZE row (0 + i) item.2))
      by (by intros i [f n] _).
    rewrite (batch_targets_from EVALUATION_BATCH_SIZE row batches 0%nat Hpos Hfull)
      by (by left || (simpl; lia)).
    done.
  - apply Forall2_same_length_lookup. split; [by rewrite length_imap|].
    intros i update item Hu Hi. rewrite list_lookup_imap, Hi in Hu.
    destruct item as [f n]. injection Hu as <-. cbn.
    destruct (batch_prefix_size EVALUATION_BATCH_SIZE batches Hpos Hfull i (f, n) Hi)
      as [Hsum Hi0]. cbn in Hsum.
    pose proof (Hpos i (f, n) Hi) as Hn. cbn in Hn.
    unfold evaluate.batch_targets.
    assert (0 <= Z.of_nat i * EVALUATION_BATCH_SIZE) by (destruct Hi0 as [->|?]; nia).
    rewrite slice_take_drop by lia.
    rewrite length_take, length_drop. lia.
Qed.

End PitchQuality.

(** * Evaluation: the threshold search *)

Lemma max_by_value_spec (results : list (string * Q)) (found : string * Q) :
  evaluate.max_by_value results = Ok found ->
  found ∈ results /\ forall item, item ∈ results -> (item.2 <= found.2)%Q.
Proof.
  destruct results as [|first rest]; [done|]. cbn. intros [= <-].
  revert first. induction rest as [|x rest IH]; intros first; cbn.
  - split; [left|]. intros item Hitem. apply list_elem_of_singleton in Hitem.
    subst. apply Qle_refl.
  - destruct (Qlt_le_dec first.2 x.2) as [Hlt|Hle].
    + destruct (IH x) as [Hin Hmax]. split.
      * apply elem_of_cons in Hin as [->|Hin]; [right; left|by do 2 right].
      * intros item Hitem. apply elem_of_cons in Hitem as [->|Hitem].
        -- apply Qle_trans with x.2; [by apply Qlt_le_weak|apply Hmax; left].
        -- by apply Hmax.
    + destruct (IH first) as [Hin Hmax]. split.
      * apply elem_of_cons in Hin as [->|Hin]; [left|by do 2 right].
      * intros item Hitem. apply elem_of_cons in Hitem as [->|Hitem];
          [apply Hmax; left|].
        apply elem_of_cons in Hitem as [->|Hitem].
        -- apply Qle_trans with first.2; [done|apply Hmax; left].
        -- apply Hmax. by right.
Qed.

Section ThresholdSearch.

Variable measure : option (list Q) -> res (list (string * Q)).
Variable float : string -> res Q.

Lemma sound_nonneg st : evaluate.sound measure float st -> (0 <= evaluate.best_value st)%Q.
Proof.
  intros [[_ ->]|[H _]]; [apply Qle_refl|by apply Qlt_le_weak].
Qed.

Lemma search_step_inv (st st' : evaluate.search) :
  evaluate.search_step measure float st = Ok st' ->
  (evaluate.best_value st <= evaluate.best_value st')%Q /\
  (evaluate.sound measure float st -> evaluate.sound measure float st') /\
  forall all, measure (evaluate.thresholds st) = Ok all ->
    forall k x, (k, x) ∈ all -> String.prefix "f1" k = true ->
                (x <= evaluate.best_value st')%Q.
Proof.
  unfold evaluate.search_step.
  destruct (measure (evaluate.thresholds st)) as [all|e] eqn:Hall; [|done]. cbn.
  destruct (evaluate.max_by_value _) as [[key value]|e] eqn:Hmax; [|done]. cbn.
  destruct (float _) as [threshold|e] eqn:Hfloat; [|done]. cbn.
  apply max_by_value_spec in Hmax as [Hin Hbest].
  apply list_elem_of_filter in Hin as [Hkey Hin]. cbn in Hkey.
  assert (Hle : forall k x, (k, x) ∈ all -> String.prefix "f1" k = true ->
                            (x <= value)%Q).
  { intros k x Hk Hp. apply (Hbest (k, x)). by apply list_elem_of_filter. }
  destruct (Qlt_le_dec (evaluate.best_value st) value) as [Hlt|Hge];
    intros [= <-]; cbn.
  - split; [by apply Qlt_le_weak|]. split.
    + intros Hs. right. split.
      * apply Qle_lt_trans with (evaluate.best_value st); [by apply sound_nonneg|done].
      * by exists (evaluate.thresholds st), all, key.
    + intros all' [= <-]. exact Hle.
  - split; [apply Qle_refl|]. split; [done|].
    intros all' [= <-] k x Hk Hp. apply Qle_trans with value; [by apply (Hle k)|done].
Qed.

Lemma search_loop_inv (turns : nat) (st st' : evaluate.search) :
  evaluate.search_loop measure float turns st = Ok st' ->
  (evaluate.best_value st <= evaluate.best_value st')%Q /\ (evaluate.sound measure float st -> evaluate.sound measure float st').
Proof.
  revert st. induction turns as [|n IH]; intros st; cbn.
  - intros [= <-]. split; [apply Qle_refl|done].
  - destruct (evaluate.search_step measure float st) as [st1|e] eqn:Hstep; [|done].
    cbn. intros Hloop. destruct (search_step_inv _ _ Hstep) as (H1 & H2 & _).
    destruct (IH _ Hloop) as [H3 H4]. split; [by apply Qle_trans with (evaluate.best_value st1)|auto].
Qed.

(** X22.  What the search returns is the starting pair (threshold 0.5,
    F1 zero), or a pair that was measured: a positive F1 value found in
    one of the measurements under a key that starts with f1, where it is
    the largest such value, together with the threshold read off that
    key. *)
Theorem periodicity_quality_returns_a_measured_pair (steps : Z) (threshold f1 : Q) :
  evaluate.periodicity_quality measure float steps = Ok (threshold, f1) ->
  (threshold = 1 # 2 /\ f1 = 0%Q) \/ evaluate.from_a_measurement measure float threshold f1.
Proof.
  unfold evaluate.periodicity_quality.
  destruct (evaluate.search_loop _ _ _ _) as [st|e] eqn:Hloop; [|done].
  cbn. intros [= <- <-].
  destruct (search_loop_inv _ _ _ Hloop) as [_ Hsound].
  apply Hsound. by left.
Qed.

(** X23.  With at least one step, the F1 value the search returns is not
    negative and not below any F1 entry of the first measurement, the one
    with the default thresholds: refining the thresholds never makes the
    result worse. *)
Theorem periodicity_quality_at_least_default (steps : Z) (threshold f1 : Q)
    (all : list (string * Q)) :
  0 < steps ->
  measure None = Ok all ->
  evaluate.periodicity_quality measure float steps = Ok (threshold, f1) ->
  (0 <= f1)%Q /\
  forall key value, (key, value) ∈ all -> String.prefix "f1" key = true ->
                    (value <= f1)%Q.
Proof.
  intros Hsteps Hall. unfold evaluate.periodicity_quality.
  destruct (Z.to_nat steps) as [|n] eqn:Hn; [lia|]. cbn [evaluate.search_loop].
  destruct (evaluate.search_step _ _ _) as [st1|e] eqn:Hstep; [|done]. cbn.
  destruct (evaluate.search_loop _ _ _ _) as [st|e] eqn:Hloop; [|done].
  cbn. intros [= <- <-].
  destruct (search_step_inv _ _ Hstep) as (H1 & _ & H2). cbn in H1.
  destruct (search_loop_inv _ _ _ Hloop) as [H3 _].
  split; [by apply Qle_trans with (evaluate.best_value st1)|].
  intros key value Hk Hp.
  apply Qle_trans with (evaluate.best_value st1); [|done].
  by apply (H2 all Hall key value).
Qed.

End ThresholdSearch.

(** * Evaluation: files and report of the benchmark *)

Lemma res_map_ok {A B} (f : A -> res B) (xs : list A) (ys : list B) :
  evaluate.res_map f xs = Ok ys -> Forall2 (fun x y => f x = Ok y) xs ys.
Proof.
  revert ys. induction xs as [|x xs IH]; intros ys; cbn.
  - intros [= <-]. constructor.
  - destruct (f x) as [y|e] eqn:Hx; [|done]. cbn.
    destruct (evaluate.res_map f xs) as [ys'|e]; [|done]. cbn.
    intros [= <-]. constructor; [done|by apply IH].
Qed.

Lemma dict_keys_subset (keys : list string) (k : string) :
  k ∈ evaluate.dict_keys keys -> k ∈ keys.
Proof.
  induction keys as [|key keys IH]; cbn; [done|].
  intros Hk. apply elem_of_cons in Hk as [->|Hk]; [left|].
  apply list_elem_of_filter in Hk as [_ Hk]. right. by apply IH.
Qed.

Lemma dataset_stems_keys partition (datasets : list string)
    (table : list (string * list string)) :
  evaluate.dataset_stems partition datasets = Ok table ->
  forall dataset stems, (dataset, stems) ∈ table -> dataset ∈ datasets.
Proof.
  intros Htable dataset stems Hin. apply res_map_ok in Htable.
  apply list_elem_of_lookup in Hin as [i Hi].
  destruct (Forall2_lookup_r _ _ _ _ _ Htable Hi) as (d & Hd & Hf).
  destruct (partition d) as [ss|e]; [|done]. cbn in Hf. injection Hf as <- <-.
  apply dict_keys_subset. by apply list_elem_of_lookup_2 in Hd.
Qed.

Lemma split_single_app (sep : ascii) (s t : string) :
  pathlib.split sep s = [s] -> pathlib.split sep t = [t] ->
  pathlib.split sep (s +:+ t) = [s +:+ t].
Proof.
  intros Hs Ht. induction s as [|c s IH]; [done|].
  change (String c s +:+ t) with (String c (s +:+ t)).
  cbn [pathlib.split] in Hs |- *.
  destruct (Ascii.eqb c sep); [discriminate Hs|].
  destruct (pathlib.split sep s) as [|piece pieces] eqn:Hsplit.
  - injection Hs as <-. discriminate Hsplit.
  - injection Hs as -> ->. by rewrite IH.
Qed.

Lemma single_component_wav (stem : string) :
  single_component stem -> single_component (stem +:+ ".wav").
Proof.
  intros (Hs & _ & Hsplit). split; [by destruct stem|]. split.
  - destruct stem as [|c [|c' stem]]; done.
  - by apply split_single_app.
Qed.

Lemma prefix_of_file (CACHE_DIR directory : Path) (dataset stem : string) :
  single_component dataset -> single_component stem ->
  let file := pathlib.truediv (pathlib.truediv CACHE_DIR dataset) (stem +:+ ".wav") in
  pathlib.truediv (pathlib.truediv directory (pathlib.name (pathlib.parent file)))
                  (pathlib.stem file)
  = mkPath (absolute directory) (parts directory ++ [dataset; stem]).
Proof.
  intros Hd Hs file.
  assert (Hfile : file = mkPath (absolute CACHE_DIR)
                           ((parts CACHE_DIR ++ [dataset]) ++ [stem +:+ "." +:+ "wav"])).
  { subst file. rewrite (truediv_single _ dataset) by done.
    by rewrite truediv_single by (by apply single_component_wav). }
  rewrite Hfile. rewrite stem_of_name by (done || by destruct Hs).
  unfold pathlib.parent, pathlib.name. cbn [parts absolute].
  rewrite removelast_last, last_last.
  rewrite (truediv_single _ dataset), truediv_single by done.
  cbn. by rewrite <- app_assoc.
Qed.

Section BenchmarkFiles.

Variable partition : string -> res (list string).
Variable CACHE_DIR : Path.

(** X24.  For datasets and test stems whose names are single components
    of a path (not empty, not a single dot, without a slash), the output
    prefix of the audio file of a stem is [directory/dataset/stem]: the
    prefixes follow the files one to one, in the order of the datasets
    (each once) and of their stems, and every prefix lies in one of the
    directories made for the datasets. *)
Theorem benchmark_prefixes_mirror_files (directory : Path) (datasets : list string)
    (table : list (string * list string)) :
  evaluate.dataset_stems partition datasets = Ok table ->
  Forall single_component datasets ->
  Forall (fun entry => Forall single_component entry.2) table ->
  let prefixes :=
    evaluate.output_prefixes directory (evaluate.files CACHE_DIR table) in
  prefixes = flat_map (fun entry =>
               map (fun stem => mkPath (absolute directory)
                                  (parts directory ++ [entry.1; stem]))
                   entry.2) table /\
  Forall (fun prefix => pathlib.parent prefix
                          ∈ evaluate.output_directories directory datasets)
         prefixes.
Proof.
  intros Htable Hdatasets Hstems prefixes.
  pose proof (dataset_stems_keys _ _ _ Htable) as Hkeys.
  assert (Hnames : Forall (fun entry => single_component entry.1) table).
  { apply Forall_forall. intros [d ss] Hin. cbn.
    rewrite Forall_forall in Hdatasets. apply Hdatasets. by apply (Hkeys d ss). }
  assert (Heq : prefixes = flat_map (fun entry =>
               map (fun stem => mkPath (absolute directory)
                                  (parts directory ++ [entry.1; stem]))
                   entry.2) table).
  { subst prefixes. unfold evaluate.output_prefixes, evaluate.files.
    clear Htable Hkeys. induction table as [|[d ss] table IH]; [done|].
    cbn [flat_map]. rewrite map_app.
    apply Forall_cons in Hstems as [Hss Hstems].
    apply Forall_cons in Hnames as [Hd Hnames]. cbn in Hss, Hd.
    rewrite (IH Hstems Hnames). f_equal. cbn [fst snd].
    rewrite map_map. apply map_ext_in. intros s Hs.
    apply prefix_of_file; [done|].
    rewrite Forall_forall in Hss. apply Hss. by apply list_elem_of_In. }
  split; [done|]. rewrite Heq. apply Forall_forall. intros prefix Hin.
  apply list_elem_of_In, in_flat_map in Hin as ([d ss] & Hentry & Hin).
  apply in_map_iff in Hin as (s & <- & Hs). cbn [fst snd].
  unfold pathlib.parent. cbn [parts absolute].
  replace (parts directory ++ [d; s]) with ((parts directory ++ [d]) ++ [s])
    by (by rewrite <- app_assoc).
  rewrite removelast_last. unfold evaluate.output_directories.
  apply list_elem_of_In, in_map_iff. exists d. split.
  - rewrite truediv_single; [done|].
    rewrite Forall_forall in Hnames.
    exact (Hnames (d, ss) ltac:(by apply list_elem_of_In)).
  - apply list_elem_of_In. apply (Hkeys d ss). by apply list_elem_of_In.
Qed.

End BenchmarkFiles.

Lemma truediv_ok (float_div : Q -> Q -> Q) (a b q : Q) :
  evaluate.truediv float_div a b = Ok q <-> ~ (b == 0)%Q /\ q = float_div a b.
Proof.
  unfold evaluate.truediv. destruct (Qeq_bool b 0) eqn:Hb.
  - apply Qeq_bool_iff in Hb. split; [done|]. by intros [Hne _].
  - apply Qeq_bool_neq in Hb. split; [by intros [= <-]|]. by intros [_ ->].
Qed.

Section BenchmarkReport.

Variable float_div : Q -> Q -> Q.

(** X25.  The report of [benchmark] exists exactly when no division in it
    has a zero divisor: with a timer that is not empty, when the seconds
    of audio and the seconds of every timer entry are non-zero; a timer
    entry of zero seconds raises the division error.  The report then has
    one entry per key of the timer, in the same order, each with the
    number of samples and the seconds of its key, the real-time factor
    being the float quotient of those seconds by the seconds of audio and
    the samples per second the float quotient of the samples by those
    seconds. *)
Theorem report_exists_iff_no_zero_divisor (benchmark : list (string * Q))
    (samples : Z) (seconds : Q) :
  ((exists out, evaluate.report float_div benchmark samples seconds = Ok out) <->
   benchmark = [] \/
   (~ (seconds == 0)%Q /\ Forall (fun timed => ~ (timed.2 == 0)%Q) benchmark)) /\
  forall out,
    evaluate.report float_div benchmark samples seconds = Ok out ->
    Forall2 (fun timed entry =>
               entry.1 = timed.1 /\
               evaluate.seconds entry.2 = timed.2 /\
               evaluate.samples entry.2 = samples /\
               evaluate.real_time_factor entry.2 = float_div timed.2 seconds /\
               evaluate.samples_per_second entry.2 =
                 float_div (inject_Z samples) timed.2)
            benchmark out.
Proof.
  split.
  - unfold evaluate.report. induction benchmark as [|[key value] rest IH]; cbn.
    + split; [by left|by eexists].
    + destruct (evaluate.truediv float_div value seconds) as [rtf|e] eqn:Hrtf; cbn.
      * apply truediv_ok in Hrtf as [Hs _].
        destruct (evaluate.truediv float_div (inject_Z samples) value)
          as [sps|e] eqn:Hsps; cbn.
        -- apply truediv_ok in Hsps as [Hv _].
           destruct (evaluate.res_map _ rest) as [ys|e]; cbn.
           ++ split; [|by eexists]. intros _. right. split; [done|].
              constructor; [done|].
              destruct (proj1 IH ltac:(by eexists)) as [->|[_ Hall]]; [constructor|done].
           ++ split; [by intros [? ?]|]. intros [?|[_ Hall]]; [done|].
              apply Forall_cons in Hall as [_ Hall].
              destruct (proj2 IH (or_intror (conj Hs Hall))) as [? ?]. done.
        -- split; [by intros [? ?]|]. intros [?|[_ Hall]]; [done|].
           apply Forall_cons in Hall as [Hv _]. cbn in Hv.
           assert (exists q, evaluate.truediv float_div (inject_Z samples) value = Ok q)
             as [q Hq] by (eexists; by apply truediv_ok).
           congruence.
      * split; [by intros [? ?]|]. intros [?|[Hs _]]; [done|].
        assert (exists q, evaluate.truediv float_div value seconds = Ok q)
          as [q Hq] by (eexists; by apply truediv_ok).
        congruence.
  - intros out Hout. apply res_map_ok in Hout.
    eapply Forall2_impl; [exact Hout|]. clear Hout.
    intros [key value] [key' t]. cbn.
    destruct (evaluate.truediv float_div value seconds) as [rtf|e] eqn:Hrtf; [|done].
    cbn.
    destruct (evaluate.truediv float_div (inject_Z samples) value) as [sps|e] eqn:Hsps;
      [|done].
    cbn. intros [= <- <-]. cbn.
    apply truediv_ok in Hrtf as [_ ->]. apply truediv_ok in Hsps as [_ ->]. done.
Qed.

End BenchmarkReport.

Section BenchmarkResults.

Variable samples_to_seconds : Z -> Q.
Variable float_div : Q -> Q -> Q.

(** X26.  When the test data amount to zero seconds of audio, as with no
    test file at all, [benchmark] does not return a report: the entry of
    the total time is always there, and its real-time factor divides by
    zero. *)
Theorem benchmark_without_audio_raises (timer : list (string * Q)) (elapsed : Q)
    (lengths : list Z) :
  (samples_to_seconds (foldr Z.add 0%Z lengths) == 0)%Q ->
  evaluate.results samples_to_seconds float_div timer elapsed lengths
  = Raise (ZeroDivisionError "float division by zero").
Proof.
  intros Hzero. unfold evaluate.results, evaluate.report.
  assert (Hcons : exists first rest,
            evaluate.dict_set timer "total" elapsed = first :: rest).
  { destruct timer as [|[k v] timer]; cbn; [by eexists _, _|].
    destruct (decide (k = "total")); by eexists _, _. }
  destruct Hcons as ([key value] & rest & ->). cbn.
  unfold evaluate.truediv at 1.
  by rewrite (proj2 (Qeq_bool_iff _ _) Hzero).
Qed.

End BenchmarkResults.

(** * The further properties on examples *)

Lemma example_one_frame_per_window sample_rate window_size decoder periodicity storage :
  one_frame_per_window (example.env sample_rate window_size decoder periodicity storage).
Proof. intros m d ws. cbn. unfold example.forward. by rewrite length_map. Qed.

Lemma example_one_value_per_frame : one_value_per_frame (song "argmax").
Proof.
  intros pitch periodicity H. cbn in H. injection H as <- <-. intros x.
  unfold spec_argmax, example.confidence. cbn. by rewrite !length_map.
Qed.

Lemma preprocess_batch_layout_witness :
  let E := song "argmax" in
  let g := preprocess E [0; 3; 1; 0; 0; 2; 5; 1] 8 (1 # 4) (Some 3) in
  raised g = None /\
  Z.of_nat (length (yielded g)) = 2 /\
  forall (k : nat) (item : list (list Z) * Z),
    yielded g !! k = Some item ->
    item.2 = Z.min (4 - Z.of_nat k * 3) 3 /\ Z.of_nat (length item.1) = item.2.
Proof.
  intros E g.
  pose proof (preprocess_batch_layout E [0; 3; 1; 0; 0; 2; 5; 1] 8 (1 # 4) 3) as P.
  cbv zeta in P.
  destruct (P ltac:(vm_compute; reflexivity) ltac:(vm_compute; reflexivity)
              ltac:(vm_compute; reflexivity)
              ltac:(vm_compute; split; [discriminate|right; discriminate]))
    as (P1 & P2 & P3).
  split; [exact P1|]. split; [exact P2|].
  intros k item Hk. destruct (P3 k item Hk) as (Q1 & Q2 & _).
  split; [exact Q1|exact Q2].
Defined.

Lemma preprocess_windows_are_centered_witness :
  let E := song "argmax" in
  let audio := [0; 3; 1; 0; 0; 2; 5; 1] in
  let frames := concat (map fst (yielded (preprocess E audio 8 (1 # 4) None))) in
  Z.of_nat (length frames) = 4 /\
  forall (j : nat) (window : list Z),
    frames !! j = Some window ->
    Z.of_nat (length window) = 4 /\
    forall o : nat,
      Z.of_nat o < 4 ->
      window !! o = Some (sample_at audio (Z.of_nat j * 2 + Z.of_nat o - 1)).
Proof.
  intros E audio frames.
  pose proof (preprocess_windows_are_centered E audio 8 (1 # 4) None) as P.
  cbv zeta in P.
  exact (P ltac:(vm_compute; split; [reflexivity|discriminate]) ltac:(vm_compute; reflexivity)
           ltac:(vm_compute; split; [discriminate|right; discriminate])).
Defined.

Lemma preprocess_zero_hop_or_batch_raises_witness :
  let E := song "argmax" in
  preprocess E [0; 3; 1; 0; 0; 2; 5; 1] 8 (1 # 4) (Some 0) =
    Gen [] (Some (ValueError "range() arg 3 must not be zero")).
Proof.
  intros E.
  pose proof (preprocess_zero_hop_or_batch_raises E [0; 3; 1; 0; 0; 2; 5; 1] 8
                (1 # 4) (Some 0)) as P.
  cbv zeta in P.
  exact (proj2 P ltac:(vm_compute; discriminate) ltac:(vm_compute; discriminate)).
Defined.

Lemma preprocess_negative_batch_yields_nothing_witness :
  let E := song "argmax" in
  preprocess E [0; 3; 1; 0; 0; 2; 5; 1] 8 (1 # 4) (Some (-3)) = Gen [] None.
Proof.
  intros E.
  apply (preprocess_negative_batch_yields_nothing E [0; 3; 1; 0; 0; 2; 5; 1] 8
           (1 # 4) (-3)).
  - vm_compute. reflexivity.
  - vm_compute. discriminate.
  - reflexivity.
Defined.

Lemma from_audio_short_audio_raises_witness :
  let E := song "argmax" in
  from_audio E [7; 7] 16 (1 # 4) (100 # 1) (300 # 1)
             (mkPath false ["penn.pt"]) (Some 3) None (fresh_world _) =
  (Raise (RuntimeError "torch.cat(): expected a non-empty list of Tensors"),
   fresh_world _).
Proof.
  intros E.
  apply (from_audio_short_audio_raises E [7; 7] 16 (1 # 4) (100 # 1) (300 # 1)
           (mkPath false ["penn.pt"]) (Some 3) None (fresh_world _)).
  - vm_compute. reflexivity.
  - vm_compute. discriminate.
Defined.

Lemma from_audio_returns_one_value_per_frame_witness :
  let E := song "argmax" in
  exists pitch periodicity,
    (from_audio E [0; 3; 1; 0; 0; 2; 5; 1] 8 (1 # 4) (100 # 1) (300 # 1)
                (mkPath false ["penn.pt"]) (Some 3) None (fresh_world _)).1 =
      Ok (pitch, periodicity) /\
    Z.of_nat (length pitch) = 4 /\
    Z.of_nat (length periodicity) = 4.
Proof.
  intros E.
  pose proof (from_audio_returns_one_value_per_frame E [0; 3; 1; 0; 0; 2; 5; 1] 8
                (1 # 4) (100 # 1) (300 # 1) (mkPath false ["penn.pt"]) (Some 3) None
                (fresh_world _)) as P.
  cbv zeta in P.
  exact (P ltac:(vm_compute; split; [reflexivity|discriminate]) ltac:(vm_compute; reflexivity)
           ltac:(vm_compute; reflexivity)
           ltac:(vm_compute; split; [discriminate|right; discriminate])
           (example_one_frame_per_window _ _ _ _ _) example_one_value_per_frame
           eq_refl eq_refl).
Defined.

Lemma from_audio_unknown_strategy_after_first_batch_witness :
  let E := song "crepe" in
  let run := from_audio E [0; 3; 1; 0; 0; 2; 5; 1] 8 (1 # 4) (100 # 1) (300 # 1)
                        (mkPath false ["penn.pt"]) (Some 3) None (fresh_world _) in
  run.1 = Raise (ValueError "Decoder method crepe is not defined") /\
  length (tensors run.2) = 1%nat /\
  cached_for (mkPath false ["penn.pt"]) cpu run.2.
Proof.
  intros E run.
  pose proof (from_audio_unknown_strategy_after_first_batch E
                [0; 3; 1; 0; 0; 2; 5; 1] 8 (1 # 4) (100 # 1) (300 # 1)
                (mkPath false ["penn.pt"]) (Some 3) None (fresh_world _)) as P.
  cbv zeta in P.
  exact (P ltac:(vm_compute; split; [reflexivity|discriminate]) ltac:(vm_compute; reflexivity)
           ltac:(vm_compute; reflexivity)
           ltac:(vm_compute; split; [discriminate|right; discriminate])
           (or_introl eq_refl)).
Defined.

Lemma from_audio_loads_at_most_once_witness :
  let E := song "argmax" in
  let w' := (from_audio E [0; 3; 1; 0; 0; 2; 5; 1] 8 (1 # 4) (100 # 1) (300 # 1)
                        (mkPath false ["penn.pt"]) (Some 1) None (fresh_world _)).2 in
  events w' = [LoadCheckpoint (mkPath false ["penn.pt"]); MoveModel cpu].
Proof.
  intros E w'.
  pose proof (from_audio_loads_at_most_once E [0; 3; 1; 0; 0; 2; 5; 1] 8 (1 # 4)
                (100 # 1) (300 # 1) (mkPath false ["penn.pt"]) (Some 1) None
                (fresh_world _)) as P.
  cbv zeta in P. destruct P as (_ & _ & P).
  destruct (P ltac:(vm_compute; discriminate)) as (_ & _ & Hload).
  apply Hload. intros (a & Ha & _). discriminate Ha.
Defined.


Lemma from_files_to_files_stops_at_first_failure_witness :
  let E := one_short_file in
  let checkpoint := mkPath false ["penn.pt"] in
  let short := mkPath false ["short.wav"] in
  from_files_to_files E ([] ++ short :: [mkPath false ["song.wav"]]) None (1 # 4)
                      (100 # 1) (300 # 1) checkpoint None None (fresh_world _) =
  (Raise (ValueError "range() arg 3 must not be zero"),
   (from_file_to_file E short None (1 # 4) (100 # 1) (300 # 1) checkpoint None None
                      (fresh_world _)).2).
Proof.
  intros E checkpoint short.
  apply (from_files_to_files_stops_at_first_failure E [] [mkPath false ["song.wav"]]
           short (1 # 4) (100 # 1) (300 # 1) checkpoint None None
           (ValueError "range() arg 3 must not be zero")
           (fresh_world _) (fresh_world _)).
  - reflexivity.
  - vm_compute. reflexivity.
Defined.

Lemma from_files_to_files_same_stem_overwrites_witness :
  let E := song "argmax" in
  let first := mkPath false ["data"; "song.wav"] in
  let second := mkPath false ["data"; "song.mp3"] in
  let checkpoint := mkPath false ["penn.pt"] in
  let w' := (from_files_to_files E [first; second] None (1 # 4) (100 # 1) (300 # 1)
                                 checkpoint None None (fresh_world _)).2 in
  exists pitch periodicity,
    disk w' = <["data/song-periodicity.pt" := periodicity]>
                (<["data/song-pitch.pt" := pitch]> ∅).
Proof.
  intros E first second checkpoint w'.
  destruct (from_files_to_files_same_stem_overwrites E first second (1 # 4) (100 # 1)
              (300 # 1) checkpoint None None (fresh_world _) w'
              eq_refl ltac:(vm_compute; reflexivity) ltac:(vm_compute; reflexivity))
    as (w1 & pitch & periodicity & _ & _ & Hdisk).
  exists pitch, periodicity. exact Hdisk.
Defined.

Lemma from_file_to_file_default_names_witness :
  let E := song "argmax" in
  let file := mkPath false (["data"] ++ ["song" +:+ "." +:+ "wav"]) in
  let checkpoint := mkPath false ["penn.pt"] in
  let run := from_file_to_file E file None (1 # 4) (100 # 1) (300 # 1) checkpoint
                               (Some 3) None (fresh_world _) in
  prefix_in_use file None = mkPath false ["data"; "song"] /\
  saves (events run.2) = ["data/song-pitch.pt"; "data/song-periodicity.pt"].
Proof.
  intros E file checkpoint run.
  destruct (from_file_to_file_default_names E false ["data"] "song" "wav"
              (1 # 4) (100 # 1) (300 # 1) checkpoint (Some 3) None (fresh_world _)
              run.2)
    as (Hprefix & w1 & pitch & periodicity & Hinfer & Hevents & _).
  - split; [discriminate|]. split; [discriminate|reflexivity].
  - discriminate.
  - reflexivity.
  - vm_compute. reflexivity.
  - split; [exact Hprefix|]. vm_compute. reflexivity.
Defined.

Lemma postprocess_twice_witness :
  let E := released "argmax" "entropy" in
  let first := postprocess E 0 (200 # 1) (300 # 1) (one_tensor E) in
  postprocess E 0 (200 # 1) (300 # 1) first.2 = first.
Proof.
  intros E.
  exact (postprocess_twice E (one_tensor E) 0 [[[Fin 5]; [Fin 1]; [Fin 7]]]
           (200 # 1) (300 # 1) eq_refl).
Defined.

Lemma postprocess_empty_range_masks_everything_witness :
  let E := released "argmax" "entropy" in
  exists x',
    tensors (postprocess E 0 (400 # 1) (100 # 1) (one_tensor E)).2 !! 0%nat = Some x' /\
    forall f b t s, entry x' f b t = Some s -> s = NegInf.
Proof.
  intros E.
  apply (postprocess_empty_range_masks_everything E (one_tensor E) 0
           [[[Fin 5]; [Fin 1]; [Fin 7]]] (400 # 1) (100 # 1)).
  - reflexivity.
  - vm_compute. lia.
Defined.


Lemma chdir_missing_directory_skips_body_witness :
  chdir (mkPath false ["music"]) (fun t => (Returned (cwd t), t)) at_home
  = (Failed (FileNotFoundError (mkPath true ["home"; "music"])), at_home).
Proof.
  apply (chdir_missing_directory_skips_body (mkPath false ["music"])
           (fun t => (Returned (cwd t), t)) at_home eq_refl).
  - apply (bool_decide_unpack _). vm_compute. exact I.
  - apply (bool_decide_unpack _). vm_compute. exact I.
Defined.


Lemma inference_context_runs_body_in_eval_mode_witness :
  training (inference_context [cuda 0] (fun t => (Ok (training t), t))
                              (mkTorch false true false)).2 = true.
Proof.
  destruct (inference_context_runs_body_in_eval_mode [cuda 0]
              (fun t => (Ok (training t), t)) (mkTorch false true false)
              (cuda 0) eq_refl) as (inside & _ & _ & _ & _ & _ & _ & Hreturn).
  exact (Hreturn (training inside) eq_refl).
Defined.

Lemma inference_context_exception_leaves_eval_mode_witness :
  let run := inference_context [cpu]
               (fun t => (@Raise unit (RuntimeError "out of memory"), t))
               (mkTorch true true false) in
  training run.2 = false /\ grad_enabled run.2 = true.
Proof.
  intros run.
  apply (inference_context_exception_leaves_eval_mode [cpu]
           (fun t => (@Raise unit (RuntimeError "out of memory"), t))
           (mkTorch true true false) (RuntimeError "out of memory")).
  - discriminate.
  - reflexivity.
  - reflexivity.
Defined.

Lemma metric_updates_cover_targets_witness :
  let E := song "argmax" in
  let batches := yielded (preprocess E [0; 3; 1; 0; 0; 2; 5; 1] 8 (1 # 4) (Some 3)) in
  let updates := evaluate.metric_updates 3 (@length (list Z)) batches
                                         [10; 20; 30; 40; 50] in
  map fst updates = [3%nat; 1%nat] /\
  concat (map snd updates) = [10; 20; 30; 40].
Proof.
  intros E batches updates.
  pose proof (metric_updates_cover_targets 3 (@length (list Z)) batches
                [10; 20; 30; 40; 50]) as P.
  cbv zeta in P.
  destruct P as (P1 & P2 & _).
  - intros [|[|i]] item H; vm_compute in H;
      [injection H as <-|injection H as <-|discriminate]; vm_compute; discriminate.
  - intros [|[|i]] item H Hlast; vm_compute in H.
    + injection H as <-. reflexivity.
    + vm_compute in Hlast. lia.
    + discriminate.
  - vm_compute. discriminate.
  - split; [exact P1|exact P2].
Defined.

Lemma periodicity_quality_returns_a_measured_pair_witness :
  (1 # 2 = 1 # 2 /\ 7 # 10 = 0%Q) \/
  evaluate.from_a_measurement one_f1_entry float_half (1 # 2) (7 # 10).
Proof.
  apply (periodicity_quality_returns_a_measured_pair one_f1_entry float_half 3).
  vm_compute. reflexivity.
Defined.

Lemma periodicity_quality_at_least_default_witness :
  (0 <= 7 # 10)%Q /\
  forall key value,
    (key, value) ∈ [("accuracy", 9 # 10); ("f1-0.5", 7 # 10)] ->
    String.prefix "f1" key = true -> (value <= 7 # 10)%Q.
Proof.
  apply (periodicity_quality_at_least_default one_f1_entry float_half 3 (1 # 2)).
  - reflexivity.
  - reflexivity.
  - vm_compute. reflexivity.
Defined.

Lemma benchmark_prefixes_mirror_files_witness :
  let partition := fun dataset : string => Ok ["a"; "b"] in
  let prefixes :=
    evaluate.output_prefixes (mkPath true ["tmp"])
      (evaluate.files (mkPath true ["cache"])
         [("mdb", ["a"; "b"]); ("ptdb", ["a"; "b"])]) in
  prefixes = [mkPath true ["tmp"; "mdb"; "a"]; mkPath true ["tmp"; "mdb"; "b"];
              mkPath true ["tmp"; "ptdb"; "a"]; mkPath true ["tmp"; "ptdb"; "b"]] /\
  Forall (fun prefix => pathlib.parent prefix
            ∈ evaluate.output_directories (mkPath true ["tmp"]) ["mdb"; "ptdb"; "mdb"])
         prefixes.
Proof.
  intros partition prefixes.
  apply (benchmark_prefixes_mirror_files partition (mkPath true ["cache"])
           (mkPath true ["tmp"]) ["mdb"; "ptdb"; "mdb"]
           [("mdb", ["a"; "b"]); ("ptdb", ["a"; "b"])]).
  - vm_compute. reflexivity.
  - repeat constructor; discriminate.
  - repeat constructor; discriminate.
Defined.

Lemma report_exists_iff_no_zero_divisor_witness :
  exists out,
    evaluate.report Qdiv [("infer", 2 # 1); ("total", 4 # 1)] 16 (2 # 1) = Ok out.
Proof.
  apply (proj1 (report_exists_iff_no_zero_divisor Qdiv
                  [("infer", 2 # 1); ("total", 4 # 1)] 16 (2 # 1))).
  right. split; [discriminate|]. repeat constructor; discriminate.
Defined.

Lemma benchmark_without_audio_raises_witness :
  evaluate.results (fun n => inject_Z n / inject_Z 8)%Q Qdiv [("infer", 1 # 1)]
                   (2 # 1) []
  = Raise (ZeroDivisionError "float division by zero").
Proof.
  apply (benchmark_without_audio_raises (fun n => inject_Z n / inject_Z 8)%Q Qdiv
           [("infer", 1 # 1)] (2 # 1) []).
  reflexivity.
Defined.
